(** * camera_depth: stereo / time-of-flight depth estimation

    A shallow embedding of the Python sources
    ([calibration_camera.py], [exception.py], [stereo_vision.py],
    [depth_traitement.py], [tof_sensor.py], [camera_control.py]) together
    with the properties of the depth-estimation and segmentation pipeline
    that are stated in the specification.

    Conventions of the embedding.
    - A finite floating-point sample is the rational it denotes; the
      values that are not numbers are the other constructors of [fnum].
      Arithmetic on samples rounds to nearest, ties to even, onto the
      format of the array ([round_float]).
    - Python exceptions are the constructors of [exn]; a computation that
      may raise and that mutates state is a value of the monad [M].
    - The file system and the console are the two fields of [world].
    - The primitives of OpenCV that resample images, find boards and
      solve the calibration are the fields of type classes. *)

From Stdlib Require Import ZArith QArith Qround Qabs Qpower Lia Lqa.
From stdpp Require Import base gmap strings list pretty.

Local Open Scope string_scope.

(** ** Numbers and arrays *)

(** A float sample: finite, NaN or a signed infinity. *)
Inductive fnum : Type :=
| Fin (q : Q)
| NaN
| PosInf
| NegInf.


(** ** Binary floating point *)

(** The value of a finite float is a rational; [round_float] is the
    rounding to nearest, ties to even, of IEEE 754 onto the format of
    precision [prec], least exponent [emin] of the unit in the last
    place, and overflow threshold [2 ^ emax]. *)
Record float_format : Type := mk_float_format { prec : Z; emin : Z; emax : Z }.

Definition binary32 : float_format := mk_float_format 24 (-149) 128.
Definition binary64 : float_format := mk_float_format 53 (-1074) 1024.

Definition pow2 (e : Z) : Q := (2 ^ e)%Q.

(** The nearest integer, the even one of two that are equally near. *)
Definition round_half_even (y : Q) : Z :=
  let f := Qfloor y in
  match (y - inject_Z f ?= 1 # 2)%Q with
  | Lt => f
  | Gt => (f + 1)%Z
  | Eq => if Z.even f then f else (f + 1)%Z
  end.

(** For [a > 0], the [e] with [2 ^ e <= a < 2 ^ (e + 1)]. *)
Definition magnitude (a : Q) : Z :=
  let k := (Z.log2 (Qnum a) - Z.log2 (Zpos (Qden a)))%Z in
  if Qle_bool (pow2 k) a then k else (k - 1)%Z.

(** The exponent of the unit in the last place of [a > 0]. *)
Definition ulp_exponent (fmt : float_format) (a : Q) : Z :=
  Z.max (magnitude a - (prec fmt - 1)) (emin fmt).

Definition round_positive (fmt : float_format) (a : Q) : Q :=
  let e := ulp_exponent fmt a in
  (inject_Z (round_half_even (a / pow2 e)) * pow2 e)%Q.

Definition round_float (fmt : float_format) (x : Q) : fnum :=
  match (x ?= 0)%Q with
  | Eq => Fin 0
  | Gt =>
      let v := round_positive fmt x in
      if Qle_bool (pow2 (emax fmt)) v then PosInf else Fin (Qred v)
  | Lt =>
      let v := round_positive fmt (- x) in
      if Qle_bool (pow2 (emax fmt)) v then NegInf else Fin (Qred (- v))
  end.


(** The order of the floats that are numbers. *)
Definition fnum_le (x y : fnum) : Prop :=
  match x, y with
  | NaN, _ | _, NaN => False
  | NegInf, _ | _, PosInf => True
  | Fin p, Fin q => (p <= q)%Q
  | _, _ => False
  end.

(** A numpy array of floats: a shape and the flattened samples, in row
    major order.  Images read from files are arrays. *)
Inductive ndarray : Type :=
| Array (shape : list nat) (items : list fnum).

Definition shape_of (a : ndarray) : list nat :=
  match a with Array sh _ => sh end.

Definition items_of (a : ndarray) : list fnum :=
  match a with Array _ xs => xs end.


(** An array of bytes ([np.uint8]). *)
Record image : Type := mk_image { image_shape : list nat; pixels : list Z }.

(** A Python value that is an array or [None]. *)
Abbreviation pyval := (option ndarray).

(** ** Exceptions and the state-and-error monad *)

(** [NotCalibrated] and [CalibrationDivergent] are the names of the
    specification's error taxonomy; the other constructors are the
    exceptions the Python code and its libraries raise. *)
Inductive exn : Type :=
| ValueError (msg : string)
| TypeError
| IndexError
| AttributeError
| NameError (name : string)
| ImportError (name module : string)
| Cv2Error
| NotCalibrated
| CalibrationDivergent.

Inductive result (A : Type) : Type :=
| Ok (a : A)
| Raise (e : exn).
Arguments Ok {A} a.
Arguments Raise {A} e.

(** [str(e)].  Where a library composes the text of the exception, the
    name of the class stands for it. *)
Definition exn_str (e : exn) : string :=
  match e with
  | ValueError msg => msg
  | TypeError => "TypeError"
  | IndexError => "IndexError"
  | AttributeError => "AttributeError"
  | NameError name => "name '" +:+ name +:+ "' is not defined"
  | ImportError name module =>
      "cannot import name '" +:+ name +:+ "' from '" +:+ module +:+ "'"
  | Cv2Error => "cv2.error"
  | NotCalibrated => "NotCalibrated"
  | CalibrationDivergent => "CalibrationDivergent"
  end.

Definition M (S A : Type) : Type := S -> result A * S.

Global Instance M_ret {S} : MRet (M S) := fun A a s => (Ok a, s).
Global Instance M_bind {S} : MBind (M S) := fun A B f m s =>
  match m s with
  | (Ok a, s') => f a s'
  | (Raise e, s') => (Raise e, s')
  end.

Definition raise {S A} (e : exn) : M S A := fun s => (Raise e, s).

(** [try: body except Exception as e: handler e]; the state reached when
    the exception was raised is the one the handler starts from. *)
Definition try_except {S A} (body : M S A) (handler : exn -> M S A) : M S A :=
  fun s =>
    match body s with
    | (Ok a, s') => (Ok a, s')
    | (Raise e, s') => handler e s'
    end.

(** [for x in xs: body x] *)
Fixpoint for_each {S A} (xs : list A) (body : A -> M S unit) : M S unit :=
  match xs with
  | [] => mret tt
  | x :: rest => body x ;; for_each rest body
  end.

(** ** The world: files and console *)

(** Contents of a file.  [NpyFile None] is what [np.save] writes for the
    Python value [None]: a pickled object array.  [CsvFile d] stands for
    the delimited-text rendering of [d].  Directories are not modelled:
    [main.py] creates [data], [image] and [corner] before anything is
    written to them. *)
Inductive file : Type :=
| NpyFile (v : pyval)
| CsvFile (d : pyval)
| ImageFile (i : ndarray).

Record world : Type := mk_world { fs : gmap string file; stdout : list string }.

Definition print (msg : string) : M world unit :=
  fun w => (Ok tt, mk_world (fs w) (stdout w ++ [msg])%list).

Definition write_file (name : string) (f : file) : M world unit :=
  fun w => (Ok tt, mk_world (<[name := f]> (fs w)) (stdout w)).

(** [os.path.exists] *)
Definition path_exists (name : string) : M world bool :=
  fun w => (Ok (bool_decide (is_Some (fs w !! name))), w).

(** [np.save(name, data)]; [name] already carries its extension. *)
Definition np_save (name : string) (data : pyval) : M world unit :=
  write_file name (NpyFile data).

(** [np.load(name)] with the default [allow_pickle=False]: an object
    array, or a file that is not in the binary array format, is refused. *)
Definition np_load (name : string) : M world ndarray :=
  fun w =>
    match fs w !! name with
    | Some (NpyFile (Some a)) => (Ok a, w)
    | Some (NpyFile None) =>
        (Raise (ValueError "Object arrays cannot be loaded when allow_pickle=False"), w)
    | Some _ =>
        (Raise (ValueError "Cannot load file containing pickled data when allow_pickle=False"), w)
    | None => (Raise (ValueError "No such file"), w)
    end.

(** [cv2.imwrite(name, data)] *)
Definition cv2_imwrite (name : string) (data : pyval) : M world unit :=
  match data with
  | None => raise Cv2Error
  | Some i => write_file name (ImageFile i)
  end.

(** The csv branch of [create_file]: the file is opened (and truncated)
    first; iterating the rows of [None], of a scalar or of a
    one-dimensional array raises [TypeError] after the file was created. *)
Definition csv_iterable (data : pyval) : bool :=
  match data with
  | Some a =>
      match shape_of a with
      | [] => false
      | [n] => bool_decide (n = 0)
      | _ => true
      end
  | None => false
  end.

Definition csv_write (name : string) (data : pyval) : M world unit :=
  if csv_iterable data then write_file name (CsvFile data)
  else (write_file name (CsvFile None) ;; raise TypeError).

(** ** exception.py *)

(** [create_file(data, file_name, file_type, folder_name=None)] *)
Definition create_file (data : pyval) (file_name file_type : string)
    (folder_name : option string) : M world unit :=
  let name :=
    match folder_name with
    | Some folder =>
        if bool_decide (folder = "") then file_name +:+ "." +:+ file_type
        else folder +:+ "/" +:+ file_name +:+ "." +:+ file_type
    | None => file_name +:+ "." +:+ file_type
    end in
  try_except
    (if bool_decide (file_type = "jpg") || bool_decide (file_type = "png")
     then cv2_imwrite name data
     else if bool_decide (file_type = "npy") then np_save name data
     else if bool_decide (file_type = "csv") then csv_write name data
     else mret tt)
    (fun e =>
       print ("An error occurred while creating the file '" +:+ name +:+ "': "
              +:+ exn_str e)).

(** The names [exception.py] defines. *)
Definition exception_names : list string :=
  ["create_folder"; "create_file"; "show_image"].

(** [from exception import name] *)
Definition import_from_exception (name : string) : result unit :=
  if bool_decide (name ∈ exception_names) then Ok tt
  else Raise (ImportError name "exception").

(** The global name [file_create] of [calibration_camera.py].  The module
    asks [exception.py] for it, which defines no such name: the import
    fails, the name is never bound, and its evaluation, which comes
    before that of the arguments of a call, raises [NameError]. *)
Definition file_create {S}
    : M S (pyval -> string -> string -> option string -> M world unit) :=
  raise (NameError "file_create").

(** ** calibration_camera.py: StereoCalibration *)

Inductive side : Type := left | right.

Definition side_name (sd : side) : string :=
  match sd with left => "left" | right => "right" end.

(** An attribute is either a plain array (or [None]) or a dictionary
    [{"left": _, "right": _}]. *)
Inductive attr : Type :=
| Plain (v : option ndarray)
| Sided (l r : option ndarray).

(** [self.__dict__], in insertion order. *)
Definition StereoCalibration : Type := list (string * attr).

Definition StereoCalibration_init : StereoCalibration :=
  [ ("cam_mats", Sided None None);
    ("dist_coefs", Sided None None);
    ("rot_mat", Plain None);
    ("trans_vec", Plain None);
    ("e_mat", Plain None);
    ("f_mat", Plain None);
    ("rect_trans", Sided None None);
    ("proj_mats", Sided None None);
    ("disp_to_depth_mat", Plain None);
    ("valid_boxes", Sided None None);
    ("undistortion_map", Sided None None);
    ("rectification_map", Sided None None) ].

Fixpoint getattr (self : StereoCalibration) (key : string) : option attr :=
  match self with
  | [] => None
  | (k, a) :: rest => if bool_decide (k = key) then Some a else getattr rest key
  end.

(** Rebinding an existing key keeps its position. *)
Fixpoint setattr (self : StereoCalibration) (key : string) (a : attr)
    : StereoCalibration :=
  match self with
  | [] => [(key, a)]
  | (k, b) :: rest =>
      if bool_decide (k = key) then (k, a) :: rest
      else (k, b) :: setattr rest key a
  end.

Definition getitem (a : attr) (sd : side) : result (option ndarray) :=
  match a with
  | Sided l r => Ok (match sd with left => l | right => r end)
  | Plain None => Raise TypeError
  | Plain (Some _) => Raise IndexError
  end.

Definition setitem (a : attr) (sd : side) (v : option ndarray) : result attr :=
  match a with
  | Sided l r => Ok (match sd with left => Sided v r | right => Sided l v end)
  | Plain None => Raise TypeError
  | Plain (Some _) => Raise IndexError
  end.

(** Methods run on the pair of the object and the world. *)
Definition io {S A} (m : M world A) : M (S * world) A :=
  fun sw => let (r, w') := m sw.2 in (r, (sw.1, w')).

Definition get_self {S W} : M (S * W) S := fun sw => (Ok sw.1, sw).
Definition put_self {S W} (s : S) : M (S * W) unit := fun sw => (Ok tt, (s, sw.2)).

Definition lift_result {S A} (r : result A) : M S A := fun s => (r, s).

(** [self.__dict__[key]] *)
Definition dict_get (key : string) : M (StereoCalibration * world) attr :=
  self ← get_self;
  match getattr self key with
  | Some a => mret a
  | None => raise AttributeError
  end.

(** Body of the loop of [save_data] for one [(key, item)].  An item that
    is not a dictionary is found again under its key, so that the last
    branch of each [match] is never taken. *)
Definition save_data_item (entry : string * attr)
    : M (StereoCalibration * world) unit :=
  let (key, item) := entry in
  match item with
  | Sided _ _ =>
      for_each [left; right] (fun sd =>
        let filename := key +:+ "_" +:+ side_name sd in
        create ← file_create;
        d ← dict_get key;
        v ← lift_result (getitem d sd);
        io (create v filename "npy" (Some "data")) ;;
        create ← file_create;
        d ← dict_get key;
        v ← lift_result (getitem d sd);
        io (create v filename "csv" (Some "data")))
  | Plain _ =>
      create ← file_create;
      d ← dict_get key;
      match d with
      | Plain v => io (create v key "npy" (Some "data"))
      | Sided l r => raise TypeError
      end ;;
      create ← file_create;
      d ← dict_get key;
      match d with
      | Plain v => io (create v key "csv" (Some "data"))
      | Sided l r => raise TypeError
      end
  end.

(** [save_data(self)] *)
Definition save_data : M (StereoCalibration * world) unit :=
  try_except
    (self ← get_self; for_each self save_data_item)
    (fun e => io (print ("Error saving data to 'data': " +:+ exn_str e))).

(** One assignment [self.__dict__[key][side] = np.load(filename)]. *)
Definition load_side (key : string) (sd : side) (filename : string)
    : M (StereoCalibration * world) unit :=
  v ← io (np_load filename);
  d ← dict_get key;
  d' ← lift_result (setitem d sd (Some v));
  self ← get_self;
  put_self (setattr self key d').

(** Body of the loop of [load_data] for one key. *)
Definition load_data_key (directory key : string)
    : M (StereoCalibration * world) unit :=
  d ← dict_get key;
  match d with
  | Sided _ _ =>
      for_each [left; right] (fun sd =>
        let filename :=
          directory +:+ "/" +:+ key +:+ "_" +:+ side_name sd +:+ ".npy" in
        ex ← io (path_exists filename);
        if ex : bool then load_side key sd filename
        else io (print ("File " +:+ filename +:+ " not found.")))
  | Plain _ =>
      let filename := directory +:+ "/" +:+ key +:+ ".npy" in
      ex ← io (path_exists filename);
      if ex : bool then
        v ← io (np_load filename);
        self ← get_self;
        put_self (setattr self key (Plain (Some v)))
      else io (print ("File " +:+ filename +:+ " not found."))
  end.

(** [load_data(self, directory)] *)
Definition load_data (directory : string) : M (StereoCalibration * world) unit :=
  try_except
    (self ← get_self;
     for_each (map fst self) (load_data_key directory) ;;
     io (print "Data loading completed successfully."))
    (fun e => io (print ("Error loading data: " +:+ exn_str e))).

(** The outcome of an OpenCV primitive: a value, or [cv2.error]. *)
Inductive cv_result (A : Type) : Type :=
| CvOk (a : A)
| CvError.
Arguments CvOk {A} a.
Arguments CvError {A}.


(** [cv2.remap(src, map1, map2, cv2.INTER_NEAREST)] on arguments each of
    which is an array or [None]; which arguments it accepts and what it
    returns is left to OpenCV. *)
Class Imgproc : Type := {
  cv2_remap : pyval -> pyval -> pyval -> cv_result ndarray
}.

Definition result_of_cv {A} (r : cv_result A) : result A :=
  match r with
  | CvOk a => Ok a
  | CvError => Raise Cv2Error
  end.

(** [self.<name>[side]] for an attribute read. *)
Definition attr_side (self : StereoCalibration) (name : string) (sd : side)
    : result (option ndarray) :=
  match getattr self name with
  | Some a => getitem a sd
  | None => Raise AttributeError
  end.

Definition rbind {A B} (r : result A) (k : A -> result B) : result B :=
  match r with Ok a => k a | Raise e => Raise e end.

(** [rectify(self, frames)]; [frames] is the pair [(frames[0], frames[1])]. *)
Definition rectify `{Imgproc} (self : StereoCalibration) (frames : pyval * pyval)
    : result (list ndarray) :=
  let step (new_frames : result (list ndarray)) (isd : nat * side) :=
    rbind new_frames (fun acc =>
    let frame := match isd.1 with 0 => frames.1 | _ => frames.2 end in
    rbind (attr_side self "undistortion_map" isd.2) (fun m1 =>
    rbind (attr_side self "rectification_map" isd.2) (fun m2 =>
    rbind (result_of_cv (cv2_remap frame m1 m2)) (fun out =>
    Ok (acc ++ [out])%list)))) in
  foldl step (Ok []) [(0, left); (1, right)].

(** ** tof_sensor.py: TofCamera *)

(** The buffers of the sensor hold float32 samples; a Python float is a
    float64. *)
Definition round32 : Q -> fnum := round_float binary32.
Definition round64 : Q -> fnum := round_float binary64.

(** Largest finite value of float32. *)
Definition float_max : Q := 340282346638528859811704183484516925440.

(** [np.nan_to_num]: NaN becomes zero, an infinity becomes the largest
    finite value of its sign. *)
Definition nan_to_num (x : fnum) : fnum :=
  match x with
  | Fin q => Fin q
  | NaN => Fin 0
  | PosInf => Fin float_max
  | NegInf => Fin (- float_max)
  end.

(** [x <= c]; a comparison with NaN is false. *)
Definition fle (x : fnum) (c : Q) : bool :=
  match x with
  | Fin q => Qle_bool q c
  | NaN => false
  | PosInf => false
  | NegInf => true
  end.

(** [x / m] for a float32 sample [x] and a finite float32 [m]; a zero
    divisor gives an infinity or NaN. *)
Definition fdiv (x : fnum) (m : Q) : fnum :=
  match x with
  | Fin q =>
      if Qeq_bool m 0 then
        if Qeq_bool q 0 then NaN
        else if Qle_bool 0 q then PosInf else NegInf
      else round32 (q / m)
  | NaN => NaN
  | PosInf => if Qeq_bool m 0 then PosInf else if Qle_bool 0 m then PosInf else NegInf
  | NegInf => if Qeq_bool m 0 then NegInf else if Qle_bool 0 m then NegInf else PosInf
  end.

(** [1 - x] on a float32 sample *)
Definition one_minus (x : fnum) : fnum :=
  match x with
  | Fin q => round32 (1 - q)
  | NaN => NaN
  | PosInf => NegInf
  | NegInf => PosInf
  end.

(** [x * 255] on a float32 sample *)
Definition times_255 (x : fnum) : fnum :=
  match x with
  | Fin q => round32 (q * 255)
  | other => other
  end.

Definition Qclamp (lo hi q : Q) : Q :=
  if Qle_bool q lo then lo else if Qle_bool hi q then hi else q.

(** [np.clip(x, lo, hi)]; NaN passes through. *)
Definition clip (lo hi : Q) (x : fnum) : fnum :=
  match x with
  | Fin q => Fin (Qclamp lo hi q)
  | NaN => NaN
  | PosInf => Fin hi
  | NegInf => Fin lo
  end.

(** Truncation toward zero. *)
Definition Qtrunc (q : Q) : Z :=
  if Qle_bool 0 q then Qfloor q else (- Qfloor (- q))%Z.

(** [x.astype(np.uint8)]: truncation, then wrap-around to one byte; the
    conversion of a non-finite value gives 0. *)
Definition astype_uint8 (x : fnum) : Z :=
  match x with
  | Fin q => (Qtrunc q mod 256)%Z
  | _ => 0%Z
  end.

(** An operation on every sample of an array. *)
Definition map_items (f : fnum -> fnum) (a : ndarray) : ndarray :=
  Array (shape_of a) (map f (items_of a)).

Definition astype_uint8_array (a : ndarray) : image :=
  mk_image (shape_of a) (map astype_uint8 (items_of a)).

(** numpy's broadcasting of two shapes, here read from their last axes:
    two lengths agree when they are equal or when one of them is 1, and
    the shorter shape is completed with axes of length 1. *)
Fixpoint broadcast_reversed (ra rb : list nat) : option (list nat) :=
  match ra, rb with
  | [], r => Some r
  | r, [] => Some r
  | x :: ra', y :: rb' =>
      match broadcast_reversed ra' rb' with
      | Some r =>
          if bool_decide (x = y) then Some (x :: r)
          else if bool_decide (x = 1) then Some (y :: r)
          else if bool_decide (y = 1) then Some (x :: r)
          else None
      | None => None
      end
  end.

Definition broadcast_shapes (a b : list nat) : option (list nat) :=
  reverse <$> broadcast_reversed (reverse a) (reverse b).

(** The items of an array of shape [src] repeated to the shape [target]
    of the same number of axes: along an axis of length 1 the one block
    is taken again for each index of the target. *)
Fixpoint broadcast_items {A} (target src : list nat) (xs : list A) : list A :=
  match target, src with
  | t :: target', s :: src' =>
      let block := foldr Nat.mul 1 src' in
      flat_map (fun i =>
        let start := if bool_decide (s = 1) then 0 else i * block in
        broadcast_items target' src' (take block (drop start xs)))
        (seq 0 t)
  | _, _ => xs
  end.

Definition broadcast_to (target : list nat) (a : image) : list Z :=
  let padding := replicate (length target - length (image_shape a)) 1 in
  broadcast_items target (padding ++ image_shape a) (pixels a).

(** The start of the message of numpy, which goes on with the two shapes. *)
Definition broadcast_message : string :=
  "operands could not be broadcast together".

(** [a & b] on arrays of bytes: item by item on operands of one shape,
    after broadcasting on operands of two shapes that agree. *)
Definition bitwise_and (a b : image) : result image :=
  if bool_decide (image_shape a = image_shape b) then
    Ok (mk_image (image_shape a) (zip_with Z.land (pixels a) (pixels b)))
  else
    match broadcast_shapes (image_shape a) (image_shape b) with
    | Some sh =>
        Ok (mk_image sh (zip_with Z.land (broadcast_to sh a) (broadcast_to sh b)))
    | None => Raise (ValueError broadcast_message)
    end.

(** The attributes of [TofCamera] that hold data; the handles of the
    sensor ([cam], [frame]) carry none.  [max_distance] is the value as
    it meets the depth buffer, a float32. *)
Record TofCamera : Type := mk_TofCamera {
  max_distance : Q;
  amplitude_buf : option ndarray;
  depth_buf : option ndarray;
  depth_normalized : option image;
  result_image : option image;
  n : nat
}.

Definition set_depth_buf (v : ndarray) : M TofCamera unit := fun self =>
  (Ok tt, mk_TofCamera (max_distance self) (amplitude_buf self) (Some v)
            (depth_normalized self) (result_image self) (n self)).

Definition set_amplitude_buf (v : ndarray) : M TofCamera unit := fun self =>
  (Ok tt, mk_TofCamera (max_distance self) (Some v) (depth_buf self)
            (depth_normalized self) (result_image self) (n self)).

Definition set_depth_normalized (v : image) : M TofCamera unit := fun self =>
  (Ok tt, mk_TofCamera (max_distance self) (amplitude_buf self) (depth_buf self)
            (Some v) (result_image self) (n self)).

Definition none_buffer_message : string :=
  "Depth buffer and amplitude buffer must not be None.".

(** [np.where(amplitude <= 7, 0, 255)] on one sample *)
Definition threshold_amplitude (a : fnum) : fnum :=
  if fle a 7 then Fin 0 else Fin 255.

(** [(1 - (depth / max_distance)) * 255], clipped and cast, on one sample *)
Definition normalize_depth (m : Q) (d : fnum) : Z :=
  astype_uint8 (clip 0 255 (times_255 (one_minus (fdiv d m)))).

(** [process_frame(self)] *)
Definition process_frame : M TofCamera image := fun self =>
  match depth_buf self, amplitude_buf self with
  | Some depth, Some amplitude =>
      (let depth := map_items nan_to_num depth in
       set_depth_buf depth ;;
       let amplitude := map_items threshold_amplitude amplitude in
       set_amplitude_buf amplitude ;;
       let normalized_depth :=
         mk_image (shape_of depth)
           (map (normalize_depth (max_distance self)) (items_of depth)) in
       set_depth_normalized normalized_depth ;;
       lift_result (bitwise_and normalized_depth (astype_uint8_array amplitude))) self
  | _, _ => (Raise (ValueError none_buffer_message), self)
  end.

(** ** stereo_vision.py: the depth of a disparity field *)

(** The attributes of [StereoVision] that [depth_calcul] works on.  The
    focal length and the baseline are Python numbers; the disparity and
    the depth are float32 arrays, and a disparity is finite. *)
Record StereoVision : Type := mk_StereoVision {
  focal_length : Q;
  baseline : Q;
  disparity : option (list Q);
  depth : option (list fnum)
}.

(** The conversion of a Python float that meets a float32 array. *)
Definition to_float32 (x : fnum) : fnum :=
  match x with
  | Fin q => round32 q
  | other => other
  end.

(** [depth = np.zeros_like(disparity)], then
    [depth[disparity > 0] = focal_length * baseline / disparity[disparity > 0]],
    on one pixel: the product is a Python float, the quotient a float32. *)
Definition depth_pixel (f b d : Q) : fnum :=
  let initial := Fin 0 in
  let valid_disparity_mask := negb (Qle_bool d 0) in
  if valid_disparity_mask then fdiv (to_float32 (round64 (f * b))) d else initial.

(** [depth_calcul(self)] *)
Definition depth_calcul : M StereoVision unit := fun self =>
  match disparity self with
  | Some disp =>
      (Ok tt, mk_StereoVision (focal_length self) (baseline self) (Some disp)
                (Some (map (depth_pixel (focal_length self) (baseline self)) disp)))
  | None => (Raise TypeError, self)
  end.

(** ** depth_traitement.py: DepthMapProcessor *)

(** A contour is the list of its points. *)
Definition contour : Type := list (Z * Z).

(** The OpenCV primitives the processor relies on.  An image is the
    row-major list of its pixels.  [cv2_filled c j] tells whether
    [cv2.drawContours] with thickness [-1] paints pixel [j] when it is
    given the contour [c]. *)
Class Cv2 : Type := {
  cv2_dilate : list Z -> nat -> nat -> list Z;
  cv2_erode : list Z -> nat -> nat -> list Z;
  cv2_Canny : list Z -> list Z;
  cv2_findContours : list Z -> list contour;
  cv2_contourArea : contour -> Q;
  cv2_filled : contour -> nat -> bool
}.

Record DepthMapProcessor : Type := mk_DepthMapProcessor {
  depth_map_original : list Q;
  depth_map_normalized : list Z;
  pixel_min : Z;
  min_contour_area : Q;
  thresholds : list Z;
  kernel_size : nat;
  dilate_iterations : nat;
  erode_iterations : nat;
  segmented_image : option (list Z);
  contours : list contour;
  mean_amplitudes : gmap nat Q
}.

Definition set_segmented_image (v : list Z) (self : DepthMapProcessor)
    : DepthMapProcessor :=
  mk_DepthMapProcessor (depth_map_original self) (depth_map_normalized self)
    (pixel_min self) (min_contour_area self) (thresholds self) (kernel_size self)
    (dilate_iterations self) (erode_iterations self) (Some v) (contours self)
    (mean_amplitudes self).

Definition set_contours (v : list contour) (self : DepthMapProcessor)
    : DepthMapProcessor :=
  mk_DepthMapProcessor (depth_map_original self) (depth_map_normalized self)
    (pixel_min self) (min_contour_area self) (thresholds self) (kernel_size self)
    (dilate_iterations self) (erode_iterations self) (segmented_image self) v
    (mean_amplitudes self).

Definition set_mean_amplitudes (v : gmap nat Q) (self : DepthMapProcessor)
    : DepthMapProcessor :=
  mk_DepthMapProcessor (depth_map_original self) (depth_map_normalized self)
    (pixel_min self) (min_contour_area self) (thresholds self) (kernel_size self)
    (dilate_iterations self) (erode_iterations self) (segmented_image self)
    (contours self) v.

(** What the processor prints, shows or writes. *)
Inductive report : Type :=
| SegmentKept (index : nat) (lower upper : Z) (non_zero_count : Z)
| SegmentRejected (index : nat) (lower upper : Z) (non_zero_count : Z)
| ContourMean (idx : nat) (mean_amplitude : Q)
| ContourImage (labels : list (nat * option Q)).

(** [cv2.inRange(src, lowerb, upperb)]: both bounds are inclusive. *)
Definition cv2_inRange (src : list Z) (lowerb upperb : Z) : list Z :=
  map (fun v => if (lowerb <=? v)%Z && (v <=? upperb)%Z then 255%Z else 0%Z) src.

(** [cv2.bitwise_and(src1, src2, mask=mask)]: the conjunction where the
    mask is set, zero elsewhere. *)
Definition cv2_bitwise_and (src1 src2 mask : list Z) : list Z :=
  zip_with (fun v12 m => if (m =? 0)%Z then 0%Z else Z.land v12.1 v12.2)
           (zip src1 src2) mask.

(** [calculate_histogram(image)]: 256 bins over [0, 256). *)
Definition calculate_histogram (image : list Z) : list Z :=
  map (fun b => Z.of_nat (length (filter (fun v => v = Z.of_nat b) image)))
      (seq 0 256).

(** [count_non_zero_pixels_from_histogram(hist)] *)
Definition count_non_zero_pixels_from_histogram (hist : list Z) : Z :=
  foldr Z.add 0%Z (drop 1 hist).

Section DepthMapProcessor.
Context `{Cv2}.

(** [apply_morphological_operations(self, image)] *)
Definition apply_morphological_operations (self : DepthMapProcessor)
    (image : list Z) : list Z :=
  let dilated_image := cv2_dilate image (kernel_size self) (dilate_iterations self) in
  let eroded_image := cv2_erode dilated_image (kernel_size self) (erode_iterations self) in
  let dilated_image2 := cv2_dilate eroded_image (kernel_size self) (dilate_iterations self) in
  dilated_image2.

(** [cv2.mean(src, mask=mask)[0]]: the mean of the pixels whose mask is
    not zero, and 0 when there is none. *)
Definition cv2_mean (src : list Q) (mask : list Z) : Q :=
  let selected := zip_with (fun v m => if (m =? 0)%Z then None else Some v) src mask in
  let total := foldr (fun o acc => match o with Some v => (v + acc)%Q | None => acc end)
                     0%Q selected in
  let count := length (filter is_Some selected) in
  if bool_decide (count = 0) then 0%Q else (total / inject_Z (Z.of_nat count))%Q.

(** The mask of one contour: zeros, then 255 over the filled contour. *)
Definition contour_mask (size : nat) (c : contour) : list Z :=
  map (fun j => if cv2_filled c j then 255%Z else 0%Z) (seq 0 size).

(** [calculate_mean_amplitude(self, contours)] *)
Definition calculate_mean_amplitude (contours : list contour)
    : M (DepthMapProcessor * list report) (gmap nat Q) :=
  self ← get_self;
  put_self (set_mean_amplitudes ∅ self) ;;
  for_each (imap (fun i c => (i, c)) contours) (fun '(i, c) =>
    self ← get_self;
    if Qle_bool (min_contour_area self) (cv2_contourArea c) then
      let mask := contour_mask (length (depth_map_original self)) c in
      let mean_amplitude := cv2_mean (depth_map_original self) mask in
      put_self (set_mean_amplitudes (<[i := mean_amplitude]> (mean_amplitudes self)) self)
    else mret tt) ;;
  self ← get_self;
  mret (mean_amplitudes self).

(** [find_and_draw_contours(self, processed_image)]; the drawing is the
    list of the labelled contours. *)
Definition find_and_draw_contours (processed_image : list Z)
    : M (DepthMapProcessor * list report) (list (nat * option Q)) :=
  let edges := cv2_Canny processed_image in
  let found := cv2_findContours edges in
  self ← get_self;
  let image_with_contours :=
    omap (fun '(i, c) =>
      if Qle_bool (min_contour_area self) (cv2_contourArea c) then
        let mean_amplitude := default 0%Q (mean_amplitudes self !! i) in
        Some (i, if Qle_bool mean_amplitude 0 then None else Some mean_amplitude)
      else None) (imap (fun i c => (i, c)) found) in
  put_self (set_contours found self) ;;
  mret image_with_contours.

Definition emit {S} (r : report) : M (S * list report) unit :=
  fun s => (Ok tt, (s.1, (s.2 ++ [r])%list)).

(** [process_contour(self)]; the items of [mean_amplitudes] come in the
    order of their insertion, that is by increasing index. *)
Definition process_contour : M (DepthMapProcessor * list report) unit :=
  self ← get_self;
  match segmented_image self with
  | None => raise Cv2Error
  | Some segmented =>
      let processed_image := apply_morphological_operations self segmented in
      _ ← find_and_draw_contours processed_image;
      self ← get_self;
      means ← calculate_mean_amplitude (contours self);
      self ← get_self;
      put_self (set_mean_amplitudes means self) ;;
      for_each (seq 0 (length (contours self))) (fun idx =>
        match means !! idx with
        | Some mean_amplitude => emit (ContourMean idx mean_amplitude)
        | None => mret tt
        end) ;;
      processed_image_with_contours ← find_and_draw_contours processed_image;
      emit (ContourImage processed_image_with_contours)
  end.

(** The two statements of the loop of [process_disparity_image] that
    build the segment of the band [lower_thresh .. upper_thresh]. *)
Definition segment (depth_map_normalized : list Z) (lower_thresh upper_thresh : Z)
    : list Z :=
  let mask := cv2_inRange depth_map_normalized lower_thresh upper_thresh in
  cv2_bitwise_and depth_map_normalized depth_map_normalized mask.

(** Body of the loop of [process_disparity_image] for the index [i]. *)
Definition process_band (i : nat) : M (DepthMapProcessor * list report) unit :=
  self ← get_self;
  match thresholds self !! i, thresholds self !! (i + 1) with
  | Some lower_thresh, Some upper_thresh =>
      put_self (set_segmented_image
                  (segment (depth_map_normalized self) lower_thresh upper_thresh) self) ;;
      self ← get_self;
      let hist := calculate_histogram (default [] (segmented_image self)) in
      let non_zero_count := count_non_zero_pixels_from_histogram hist in
      if (pixel_min self <=? non_zero_count)%Z then
        emit (SegmentKept (i + 1) lower_thresh upper_thresh non_zero_count) ;;
        process_contour
      else
        emit (SegmentRejected (i + 1) lower_thresh upper_thresh non_zero_count)
  | _, _ => raise IndexError
  end.

(** [process_disparity_image(self)] *)
Definition process_disparity_image : M (DepthMapProcessor * list report) unit :=
  self ← get_self;
  for_each (seq 0 (length (thresholds self) - 1)) process_band.

End DepthMapProcessor.

(** ** calibration_camera.py: Calibrator *)

(** What [cv2.stereoCalibrate] returns after the leading reprojection
    error: the two camera matrices and distortion vectors, then R, T, E, F. *)
Record stereo_solution : Type := mk_stereo_solution {
  sol_cam_left : ndarray; sol_dist_left : ndarray;
  sol_cam_right : ndarray; sol_dist_right : ndarray;
  sol_rot : ndarray; sol_trans : ndarray; sol_e : ndarray; sol_f : ndarray
}.

(** What [cv2.stereoRectify] returns: R1, R2, P1, P2, Q and the two
    regions of valid pixels. *)
Record rectification : Type := mk_rectification {
  rect_left : ndarray; rect_right : ndarray;
  proj_left : ndarray; proj_right : ndarray;
  disp_to_depth : ndarray;
  roi_left : ndarray; roi_right : ndarray
}.

(** The OpenCV primitives of the calibration.  The termination criteria
    (100 iterations, 1e-5) and the flags of the source are part of
    [cv2_stereoCalibrate]; [cv2_findChessboardCorners] gives [None] when
    no board is found. *)
Class Calib3d : Type := {
  cv2_cvtColor : ndarray -> ndarray;
  cv2_findChessboardCorners : ndarray -> nat * nat -> option ndarray;
  cv2_drawChessboardCorners : ndarray -> nat * nat -> ndarray -> ndarray;
  cv2_cornerSubPix : ndarray -> ndarray -> ndarray;
  cv2_stereoCalibrate :
    list ndarray -> list ndarray -> list ndarray -> nat * nat ->
    cv_result stereo_solution;
  cv2_stereoRectify :
    ndarray -> ndarray -> ndarray -> ndarray -> nat * nat -> ndarray -> ndarray ->
    cv_result rectification;
  cv2_initUndistortRectifyMap :
    ndarray -> ndarray -> ndarray -> ndarray -> nat * nat ->
    cv_result (ndarray * ndarray)
}.

Record Calibrator : Type := mk_Calibrator {
  image_count : nat;
  row : nat;
  column : nat;
  square_size : Q;
  image_size : nat * nat;
  corner_coordinates : ndarray;
  object_points : list ndarray;
  image_points_left : list ndarray;
  image_points_right : list ndarray
}.

(** [str(k).zfill(2)] *)
Definition zfill2 (k : nat) : string :=
  let s := pretty k in
  if bool_decide (String.length s < 2) then "0" +:+ s else s.

(** [cv2.imread(name, 1)]: [None] when the file cannot be decoded. *)
Definition cv2_imread (name : string) : M world pyval :=
  fun w =>
    match fs w !! name with
    | Some (ImageFile i) => (Ok (Some i), w)
    | _ => (Ok None, w)
    end.

(** [os.path.isfile] *)
Definition path_isfile (name : string) : M world bool := path_exists name.

(** [corners.reshape(-1, 2)] *)
Definition reshape_pairs (corners : ndarray) : ndarray :=
  match corners with
  | Array _ xs => Array [length xs / 2; 2] xs
  end.

Definition append_image_points (sd : side) (pts : ndarray) (self : Calibrator)
    : Calibrator :=
  mk_Calibrator (image_count self) (row self) (column self) (square_size self)
    (image_size self) (corner_coordinates self) (object_points self)
    (match sd with left => (image_points_left self ++ [pts])%list
                 | right => image_points_left self end)
    (match sd with left => image_points_right self
                 | right => (image_points_right self ++ [pts])%list end).

Section Calibrator.
Context `{Calib3d}.

(** Body of the loop of [corner_detect] for one image and its side. *)
Definition corner_detect_image (sd : side) (image : pyval)
    : M (Calibrator * world) unit :=
  self ← get_self;
  img ← match image with
        | Some i => mret i
        | None => raise Cv2Error
        end;
  let gray := cv2_cvtColor img in
  let found := cv2_findChessboardCorners gray (row self, column self) in
  match found with
  | Some corners =>
      let img := cv2_drawChessboardCorners img (column self, row self) corners in
      let corners := cv2_cornerSubPix gray corners in
      let name := "corner/" +:+ side_name sd +:+ zfill2 (image_count self + 1)
                  +:+ "corn" in
      create ← file_create;
      io (create (Some img) name "png" None) ;;
      put_self (append_image_points sd (reshape_pairs corners) self)
  | None => raise AttributeError
  end.

(** [corner_detect(self, image_pair)] *)
Definition corner_detect (image_pair : pyval * pyval) : M (Calibrator * world) unit :=
  self ← get_self;
  put_self (mk_Calibrator (image_count self) (row self) (column self)
              (square_size self) (image_size self) (corner_coordinates self)
              (object_points self ++ [corner_coordinates self])%list
              (image_points_left self) (image_points_right self)) ;;
  corner_detect_image left image_pair.1 ;;
  corner_detect_image right image_pair.2 ;;
  self ← get_self;
  put_self (mk_Calibrator (image_count self + 1) (row self) (column self)
              (square_size self) (image_size self) (corner_coordinates self)
              (object_points self) (image_points_left self)
              (image_points_right self)).


(** Body of the loop of [calibration_process] for one value of
    [photo_counter]. *)
Definition import_pair (image_folder : string) (photo_counter : nat)
    : M (Calibrator * world) unit :=
  io (print ("Importing pair No " +:+ pretty photo_counter)) ;;
  let left_name := image_folder +:+ "/left" +:+ zfill2 photo_counter +:+ ".jpg" in
  let right_name := image_folder +:+ "/right" +:+ zfill2 photo_counter +:+ ".jpg" in
  is_left ← io (path_isfile left_name);
  is_right ← io (path_isfile right_name);
  if (is_left : bool) && (is_right : bool) then
    img_left ← io (cv2_imread left_name);
    img_right ← io (cv2_imread right_name);
    corner_detect (img_left, img_right)
  else mret tt.



End Calibrator.

(** ** stereo_vision.py: the capture and display processes *)

(** What travels through the queue: a pair [(disparity_normalized, depth)],
    here identified by its rank, or the pair [(None, None)]. *)
Inductive item : Type :=
| FramePair (k : nat)
| NonePair.

(** The key returned by [cv2.waitKey(1)]. *)
Inductive key_press : Type := KeyQ | KeyS | KeyT | NoKey.

(** Control points of [capture_and_compute]. *)
Inductive producer_pc : Type :=
| P_test      (* while not self.stop_event.is_set() *)
| P_body      (* capture, compute, queue.put((disparity_normalized, depth)) *)
| P_exit      (* queue.put((None, None)) *)
| P_done.

(** Control points of [depth_map_display]. *)
Inductive consumer_pc : Type :=
| C_test_flag   (* while not self.stop_event.is_set() ... *)
| C_test_empty  (* ... or not queue.empty() *)
| C_poll        (* if not queue.empty(): queue.get() and display *)
| C_done        (* cv2.destroyAllWindows() *)
| C_raised (e : exn).

Record pipeline : Type := mk_pipeline {
  stop_event : bool;
  queue : list item;
  producer : producer_pc;
  produced : nat;
  consumer : consumer_pc;
  displayed : list item
}.

(** Who moves next: one of the two processes, the consumer with the key
    it reads, or the parent process setting the event. *)
Inductive actor : Type :=
| Producer
| Consumer (key : key_press)
| Interrupt.

Definition pipeline_start : pipeline :=
  mk_pipeline false [] P_test 0 C_test_flag [].

(** One step of [capture_and_compute]. *)
Definition producer_step (s : pipeline) : option pipeline :=
  match producer s with
  | P_test =>
      Some (mk_pipeline (stop_event s) (queue s)
              (if stop_event s then P_exit else P_body)
              (produced s) (consumer s) (displayed s))
  | P_body =>
      Some (mk_pipeline (stop_event s) (queue s ++ [FramePair (produced s)])%list
              P_test (S (produced s)) (consumer s) (displayed s))
  | P_exit =>
      Some (mk_pipeline (stop_event s) (queue s ++ [NonePair])%list
              P_done (produced s) (consumer s) (displayed s))
  | P_done => None
  end.

(** One step of [depth_map_display].  A dequeued pair is handed to
    [cv2.applyColorMap], which raises [cv2.error] on [None]; the keys
    [s] and [t] save or analyse the frame and leave the pipeline as it is. *)
Definition consumer_step (key : key_press) (s : pipeline) : option pipeline :=
  match consumer s with
  | C_test_flag =>
      Some (mk_pipeline (stop_event s) (queue s) (producer s) (produced s)
              (if stop_event s then C_test_empty else C_poll) (displayed s))
  | C_test_empty =>
      Some (mk_pipeline (stop_event s) (queue s) (producer s) (produced s)
              (match queue s with [] => C_done | _ => C_poll end) (displayed s))
  | C_poll =>
      match queue s with
      | [] =>
          Some (mk_pipeline (stop_event s) [] (producer s) (produced s)
                  C_test_flag (displayed s))
      | FramePair k :: rest =>
          Some (mk_pipeline
                  (match key with KeyQ => true | _ => stop_event s end)
                  rest (producer s) (produced s) C_test_flag
                  (displayed s ++ [FramePair k])%list)
      | NonePair :: rest =>
          Some (mk_pipeline (stop_event s) rest (producer s) (produced s)
                  (C_raised Cv2Error) (displayed s))
      end
  | C_done => None
  | C_raised _ => None
  end.

Definition step (a : actor) (s : pipeline) : option pipeline :=
  match a with
  | Producer => producer_step s
  | Consumer key => consumer_step key s
  | Interrupt =>
      Some (mk_pipeline true (queue s) (producer s) (produced s) (consumer s)
              (displayed s))
  end.

(** The pipeline after a schedule, when every actor of it could move. *)
Fixpoint run (schedule : list actor) (s : pipeline) : option pipeline :=
  match schedule with
  | [] => Some s
  | a :: rest =>
      match step a s with
      | Some s' => run rest s'
      | None => None
      end
  end.

(** ** tof_sensor.py: saving the frame *)

(** The byte image as an array. *)
Definition image_of_bytes (img : image) : ndarray :=
  Array (image_shape img) (map (fun z => Fin (inject_Z z)) (pixels img)).

Definition set_n (k : nat) (self : TofCamera) : TofCamera :=
  mk_TofCamera (max_distance self) (amplitude_buf self) (depth_buf self)
    (depth_normalized self) (result_image self) k.

Definition set_result_image (img : option image) (self : TofCamera) : TofCamera :=
  mk_TofCamera (max_distance self) (amplitude_buf self) (depth_buf self)
    (depth_normalized self) img (n self).

(** [capture_image(self)] *)
Definition capture_image : M (TofCamera * world) unit :=
  self ← get_self;
  match result_image self with
  | Some img =>
      io (cv2_imwrite ("tof" +:+ pretty (n self) +:+ ".png")
            (Some (image_of_bytes img))) ;;
      io (print ("Image saved as tof" +:+ pretty (n self) +:+ ".png")) ;;
      self ← get_self;
      put_self (set_n (n self + 1) self)
  | None => io (print "No image to save")
  end.

(** ** exception.py: show_image *)

Definition colormaps : list string :=
  [ "autumn"; "bone"; "jet"; "winter"; "rainbow"; "ocean"; "summer"; "spring";
    "cool"; "hsv"; "pink"; "hot"; "parula"; "magma"; "inferno"; "plasma";
    "viridis"; "cividis"; "twilight"; "twilight_shifted"; "turbo"; "deepgreen" ].

(** [show_image(title, image, cmap='gray')].  The window is not part of
    the world; [cv2.applyColorMap] and [cv2.imshow] reject a missing
    image with [cv2.error]. *)
Definition show_image (title : string) (image : pyval) (cmap : string)
    : M world unit :=
  image ← (if bool_decide (cmap ∈ colormaps) then
             match image with
             | Some i => mret (Some i)
             | None => raise Cv2Error
             end
           else if bool_decide (cmap <> "gray") then
             print "The selected color is not available. Default color applied" ;;
             mret image
           else mret image);
  match image with
  | Some _ => mret tt
  | None => raise Cv2Error
  end.

(** ** camera_control.py: DualCameraCapture *)

Record DualCameraCapture : Type := mk_DualCameraCapture {
  left_cam_id : nat;
  right_cam_id : nat;
  preview_size : nat * nat;
  capture_delay : nat;
  interval : nat
}.

(** The cameras: [picam_capture_file picam_id size w] is the frame that
    camera [picam_id] delivers in the state [w] of the world, with the
    metadata that [capture_file] returns, as text. *)
Class Picamera2 : Type := {
  picam_capture_file : nat -> nat * nat -> world -> ndarray * string
}.

(** [os.path.join(a, b)] *)
Definition ends_with_slash (s : string) : bool :=
  bool_decide (String.substring (String.length s - 1) 1 s = "/").

Definition os_path_join (a b : string) : string :=
  if String.prefix "/" b then b
  else if bool_decide (a = "") || ends_with_slash a then a +:+ b
  else a +:+ "/" +:+ b.

(** [validate_images(self)].  [answers] are the lines the user types,
    each as [input(...).strip().lower()] returns it.  With no line left,
    [input] waits and the method does not return: [None]. *)
Fixpoint validate_images (answers : list string) (w : world)
    : option (bool * (list string * world)) :=
  match answers with
  | [] => None
  | user_input :: rest =>
      let w := (print "Are the images acceptable? (y/n): " w).2 in
      if bool_decide (user_input ∈ ["y"; "n"]) then
        Some (bool_decide (user_input = "y"), (rest, w))
      else
        validate_images rest (print "Invalid input. Please enter 'y' or 'n'." w).2
  end.

Section DualCameraCapture.
Context `{Picamera2}.

(** [capture_and_save_image(self, picam_id, filename)] *)
Definition capture_and_save_image (self : DualCameraCapture) (picam_id : nat)
    (filename : string) : M world unit :=
  fun w =>
    let (frame, metadata) := picam_capture_file picam_id (preview_size self) w in
    (write_file filename (ImageFile frame) ;;
     print ("Image captured " +:+ filename +:+ ": " +:+ metadata)) w.

(** [display_images(self, left_filename, right_filename)] *)
Definition display_images (left_filename right_filename : string) : M world unit :=
  left_image ← cv2_imread left_filename;
  right_image ← cv2_imread right_filename;
  show_image "Left Image" left_image "gray" ;;
  show_image "Right Image" right_image "gray".

(** The loop of [capture_images], from the value [photo_counter] of its
    counter.  Every turn of the loop takes at least one answer, so that
    [fuel] above the number of answers is never used up. *)
Fixpoint capture_loop (fuel : nat) (self : DualCameraCapture) (nbr_photos : nat)
    (image_folder : string) (photo_counter : nat) (answers : list string)
    (w : world) : option (result unit * (list string * world)) :=
  match fuel with
  | 0 => None
  | S fuel =>
      if bool_decide (photo_counter < nbr_photos) then
        let left_filename :=
          os_path_join image_folder
            ("left_" +:+ zfill2 (photo_counter + 1) +:+ ".png") in
        let right_filename :=
          os_path_join image_folder
            ("right_" +:+ zfill2 (photo_counter + 1) +:+ ".png") in
        match (capture_and_save_image self (left_cam_id self) left_filename ;;
               capture_and_save_image self (right_cam_id self) right_filename ;;
               display_images left_filename right_filename) w with
        | (Raise e, w) => Some (Raise e, (answers, w))
        | (Ok _, w) =>
            match validate_images answers w with
            | None => None
            | Some (true, (answers, w)) =>
                capture_loop fuel self nbr_photos image_folder (photo_counter + 1)
                  answers
                  (print ("Captured pair No " +:+ pretty (photo_counter + 1)) w).2
            | Some (false, (answers, w)) =>
                capture_loop fuel self nbr_photos image_folder photo_counter
                  answers (print "Retrying images..." w).2
            end
        end
      else Some (Ok tt, (answers, w))
  end.

(** [capture_images(self, nbr_photos, image_folder)] *)
Definition capture_images (self : DualCameraCapture) (nbr_photos : nat)
    (image_folder : string) (answers : list string) (w : world)
    : option (result unit * (list string * world)) :=
  capture_loop (S (length answers)) self nbr_photos image_folder 0 answers w.

End DualCameraCapture.

(** ** stereo_vision.py: the disparity field *)



(** ** tof_sensor.py: a frame of the sensor *)

(** [x * c] on a float32 sample for a positive float32 [c] *)
Definition fscale (c : Q) (x : fnum) : fnum :=
  match x with
  | Fin q => round32 (q * c)
  | other => other
  end.

(** The statements of the loop of [continuous_display] from the arrival
    of a frame to the call of [process_frame]: the buffers are taken
    from the frame, the amplitude is scaled by [255 / 1024] and clipped,
    and the image is the result of [process_frame]. *)
Definition store_result_image (v : image) : M TofCamera unit := fun self =>
  (Ok tt, set_result_image (Some v) self).

Definition take_frame (depth amplitude : ndarray) : M TofCamera unit :=
  set_depth_buf depth ;;
  set_amplitude_buf (map_items (fun a => clip 0 255 (fscale (255 / 1024) a)) amplitude) ;;
  result_frame ← process_frame;
  store_result_image result_frame.

(** ** Predicates and sample inputs used by the statements *)

Definition npy_name (stem : string) : string := "data" +:+ "/" +:+ stem +:+ "." +:+ "npy".

Definition populated (a : attr) : Prop :=
  match a with
  | Plain v => is_Some v
  | Sided l r => is_Some l ∧ is_Some r
  end.

Definition same_kind (a b : attr) : Prop :=
  match a, b with
  | Plain _, Plain _ | Sided _ _, Sided _ _ => True
  | _, _ => False
  end.

(** The object has the attributes the constructor creates. *)
Definition well_formed (c : StereoCalibration) : Prop :=
  Forall2 (fun x y => x.1 = y.1 ∧ same_kind x.2 y.2) c StereoCalibration_init.

Definition fully_populated (c : StereoCalibration) : Prop :=
  well_formed c ∧ Forall (fun x => populated x.2) c.

Definition arr1 (q : Q) : ndarray := Array [1; 1] [Fin q].

Definition sample_calibration : StereoCalibration :=
  [ ("cam_mats", Sided (Some (arr1 1)) (Some (arr1 2)));
    ("dist_coefs", Sided (Some (arr1 3)) (Some (arr1 4)));
    ("rot_mat", Plain (Some (arr1 5)));
    ("trans_vec", Plain (Some (arr1 6)));
    ("e_mat", Plain (Some (arr1 7)));
    ("f_mat", Plain (Some (arr1 8)));
    ("rect_trans", Sided (Some (arr1 9)) (Some (arr1 10)));
    ("proj_mats", Sided (Some (arr1 11)) (Some (arr1 12)));
    ("disp_to_depth_mat", Plain (Some (arr1 13)));
    ("valid_boxes", Sided (Some (arr1 14)) (Some (arr1 15)));
    ("undistortion_map", Sided (Some (arr1 16)) (Some (arr1 17)));
    ("rectification_map", Sided (Some (arr1 18)) (Some (arr1 19))) ].

(** The arrays an object holds, each with the stem of its file name. *)
Definition arrays_of (c : StereoCalibration) : list (string * ndarray) :=
  flat_map (fun '(key, a) =>
    match a with
    | Plain v => from_option (fun x => [(key, x)]) [] v
    | Sided l r =>
        (from_option (fun x => [(key +:+ "_" +:+ "left", x)]) [] l
         ++ from_option (fun x => [(key +:+ "_" +:+ "right", x)]) [] r)%list
    end) c.

(** A data directory that holds the binary file of every array of the
    sample calibration but that of the rotation matrix. *)
Definition world_without_rot_mat : world :=
  mk_world
    (delete (npy_name "rot_mat")
       (list_to_map (map (fun sa => (npy_name sa.1, NpyFile (Some sa.2)))
                         (arrays_of sample_calibration))))
    [].

Definition loaded_without_rot_mat : StereoCalibration :=
  (load_data "data" (StereoCalibration_init, world_without_rot_mat)).2.1.

(** What the two calls of [cv2.remap] in [rectify] give on the frames and
    the maps of the two sides: the two frames, or the [cv2.error] of the
    first call that fails. *)
Definition remap_pair `{Imgproc} (frames : pyval * pyval) (ul ur rl rr : pyval)
    : result (list ndarray) :=
  match cv2_remap frames.1 ul rl with
  | CvOk new_left =>
      match cv2_remap frames.2 ur rr with
      | CvOk new_right => Ok [new_left; new_right]
      | CvError => Raise Cv2Error
      end
  | CvError => Raise Cv2Error
  end.

(** A stand-in for [cv2.remap] on which statements can be run: the frame
    is returned as it is when the frame and the two maps are there. *)
Definition toy_imgproc : Imgproc := {|
  cv2_remap := fun src map1 map2 =>
    match src, map1, map2 with
    | Some i, Some _, Some _ => CvOk i
    | _, _, _ => CvError
    end
|}.



(** The depth reading that enters the normalisation: NaN counts as zero,
    an infinity as the largest finite value of its sign. *)
Definition reading (d : fnum) : Q :=
  match d with
  | Fin q => q
  | NaN => 0
  | PosInf => float_max
  | NegInf => - float_max
  end.


(** The same with the formula evaluated in float32, each operation
    rounded in its turn. *)
Definition normalized32 (m : Q) (depth : Q) : Z :=
  match clip 0 255 (times_255 (one_minus (fdiv (Fin depth) m))) with
  | Fin q => Qfloor q
  | _ => 0%Z
  end.

Definition gated_pixel32 (m : Q) (depth : Q) (amplitude : fnum) : Z :=
  if fle amplitude 7 then 0%Z else normalized32 m depth.


(** A buffer of one axis. *)
Definition row_of (xs : list fnum) : ndarray := Array [length xs] xs.

Definition cam_of (m : Q) (depth amplitude : list fnum) : TofCamera :=
  mk_TofCamera m (Some (row_of amplitude)) (Some (row_of depth)) None None 0.

Definition cam_1m : TofCamera := cam_of 4 [Fin 1] [Fin 255].


(** Buffers of two shapes that do not agree. *)
Definition cam_mismatch : TofCamera :=
  cam_of 4 [Fin 1; NaN] [Fin 255; Fin 255; Fin 255].

Definition cam_empty : TofCamera :=
  mk_TofCamera 4 None None None None 0.

(** The camera whose depth buffer is a frame already produced. *)
Definition fed_back (cam : TofCamera) (frame : image) : TofCamera :=
  mk_TofCamera (max_distance cam) (amplitude_buf cam)
    (Some (image_of_bytes frame))
    (depth_normalized cam) (result_image cam) (n cam).

Definition stereo_of (f b : Q) (disp : list Q) : StereoVision :=
  mk_StereoVision f b (Some disp) None.

(** A value well inside the range of the normal numbers of float32. *)
Definition in_normal_range (x : Q) : Prop :=
  (pow2 (-125) <= Qabs x)%Q /\ (Qabs x <= pow2 127)%Q.

Definition Qsum (l : list Q) : Q := foldr Qplus 0%Q l.

Definition arithmetic_mean (l : list Q) : Q :=
  (Qsum l / inject_Z (Z.of_nat (length l)))%Q.

(** A computation that leaves the current segment as it is. *)
Definition keeps_segment {A} (m : M (DepthMapProcessor * list report) A) : Prop :=
  forall sw, segmented_image (m sw).2.1 = segmented_image sw.1.

Definition sample_processor (img : list Z) : DepthMapProcessor :=
  mk_DepthMapProcessor (map inject_Z img) img 1 10 [50; 100; 200; 255]%Z 5 1 2
    None [] ∅.

(** A stand-in for OpenCV on which statements can be run: morphology
    and edge detection return their input, one contour is found in any
    image (the unit square at the origin, of area 16), and it covers the
    first two pixels. *)
Definition toy_cv2 : Cv2 := {|
  cv2_dilate := fun image _ _ => image;
  cv2_erode := fun image _ _ => image;
  cv2_Canny := fun image => image;
  cv2_findContours := fun _ => [[(0, 0); (3, 0); (3, 3); (0, 3)]%Z];
  cv2_contourArea := fun _ => 16%Q;
  cv2_filled := fun _ j => bool_decide (j < 2)
|}.

(** The values of a field at the pixels that the filled contour covers. *)
Definition inside_values `{Cv2} (field : list Q) (c : contour) : list Q :=
  omap (fun '(j, v) => if cv2_filled c j then Some v else None)
       (zip (seq 0 (length field)) field).

(** The effect of one iteration of the loop of [calculate_mean_amplitude]
    on the dictionary. *)
Definition add_mean `{Cv2} (self : DepthMapProcessor) (m : gmap nat Q)
    (ic : nat * contour) : gmap nat Q :=
  if Qle_bool (min_contour_area self) (cv2_contourArea ic.2) then
    <[ic.1 := cv2_mean (depth_map_original self)
                (contour_mask (length (depth_map_original self)) ic.2)]> m
  else m.

(** A computation that leaves the object as it is. *)
Definition keeps_self {S A} (m : M (S * world) A) : Prop :=
  forall sw, (m sw).2.1 = sw.1.

(** A computation that changes no file. *)
Definition reads_only {S A} (m : M (S * world) A) : Prop :=
  forall sw, fs (m sw).2.2 = fs sw.2.


(** The first phase of [calibration_process]: the images are read and
    the corners collected. *)
Definition import_phase `{Calib3d} (nbr_photo : nat) (image_folder : string)
    : M (Calibrator * world) unit :=
  io (print "Start Calibration") ;;
  io (print "Start reading images") ;;
  for_each (seq 1 nbr_photo) (import_pair image_folder).





(** The line [save_data] prints when it stops at the helper. *)
Definition save_error : string :=
  "Error saving data to 'data': name 'file_create' is not defined".




(** A stand-in for OpenCV whose three primitives return. *)
Definition returning_cv2 : Calib3d := {|
  cv2_cvtColor := fun img => img;
  cv2_findChessboardCorners := fun _ _ => Some (Array [1; 1; 2] [Fin 0; Fin 0]);
  cv2_drawChessboardCorners := fun img _ _ => img;
  cv2_cornerSubPix := fun _ corners => corners;
  cv2_stereoCalibrate := fun _ _ _ _ =>
    CvOk (mk_stereo_solution (Array [1; 1] [Fin 1]) (Array [1; 1] [Fin 2])
            (Array [1; 1] [Fin 3]) (Array [1; 1] [Fin 4]) (Array [1; 1] [Fin 5])
            (Array [1; 1] [Fin 6]) (Array [1; 1] [Fin 7]) (Array [1; 1] [Fin 8]));
  cv2_stereoRectify := fun _ _ _ _ _ _ _ =>
    CvOk (mk_rectification (Array [1; 1] [Fin 9]) (Array [1; 1] [Fin 10])
            (Array [1; 1] [Fin 11]) (Array [1; 1] [Fin 12]) (Array [1; 1] [Fin 13])
            (Array [1; 1] [Fin 14]) (Array [1; 1] [Fin 15]));
  cv2_initUndistortRectifyMap := fun _ _ _ _ _ =>
    CvOk (Array [1; 1] [Fin 16], Array [1; 1] [Fin 18])
|}.

Definition sample_calibrator : Calibrator :=
  mk_Calibrator 0 6 9 (24 # 10) (840, 820) (Array [54; 3] []) [] [] [].




(** One pair is produced, the event is set, the consumer displays the
    pair and leaves its loop, and only then the producer sends [NonePair]. *)
Definition late_sentinel_schedule : list actor :=
  [ Producer; Producer;
    Interrupt;
    Consumer NoKey; Consumer NoKey; Consumer NoKey;
    Consumer NoKey; Consumer NoKey;
    Producer; Producer ].

(** The consumer is slow: both the pair and [NonePair] are queued when
    it polls. *)
Definition early_sentinel_schedule : list actor :=
  [ Producer; Producer;
    Interrupt;
    Producer; Producer;
    Consumer NoKey; Consumer NoKey; Consumer NoKey;
    Consumer NoKey; Consumer NoKey; Consumer NoKey ].

(** ** Invariants of the capture and display processes *)

Definition frame_pairs (start len : nat) : list item :=
  map FramePair (seq start len).

(** What holds of the pipeline along every schedule: the pairs are
    displayed in the order of their production, the others wait in the
    queue in that order, [(None, None)] is queued last and only by a
    finished producer, and the event is set once a process is past the
    test that needs it. *)
Definition pipeline_invariant (s : pipeline) : Prop :=
  exists k sent,
    k <= produced s
    /\ displayed s = frame_pairs 0 k
    /\ queue s = (frame_pairs k (produced s - k) ++ sent)%list
    /\ match consumer s with
       | C_raised _ => producer s = P_done /\ sent = [] /\ k = produced s
       | _ => sent = match producer s with P_done => [NonePair] | _ => [] end
       end
    /\ match producer s with
       | P_exit | P_done => stop_event s = true
       | _ => True
       end
    /\ match consumer s with
       | C_test_empty | C_done => stop_event s = true
       | _ => True
       end.

(** ** Statements on the depth-map processor *)





(** The parameters of the processor, as opposed to its working fields. *)
Definition same_parameters (s s' : DepthMapProcessor) : Prop :=
  depth_map_original s' = depth_map_original s
  /\ depth_map_normalized s' = depth_map_normalized s
  /\ pixel_min s' = pixel_min s
  /\ min_contour_area s' = min_contour_area s
  /\ thresholds s' = thresholds s
  /\ kernel_size s' = kernel_size s
  /\ dilate_iterations s' = dilate_iterations s
  /\ erode_iterations s' = erode_iterations s.

(** The verdict on a band that a report carries, if it carries one. *)
Definition band_decision (r : report) : option (nat * bool) :=
  match r with
  | SegmentKept i _ _ _ => Some (i, true)
  | SegmentRejected i _ _ _ => Some (i, false)
  | _ => None
  end.

(** The count of non-zero pixels of the segment of band [i]. *)
Definition band_count (self : DepthMapProcessor) (i : nat) : Z :=
  match thresholds self !! i, thresholds self !! (i + 1) with
  | Some lower, Some upper =>
      count_non_zero_pixels_from_histogram
        (calculate_histogram (segment (depth_map_normalized self) lower upper))
  | _, _ => 0%Z
  end.

Definition band_verdict (self : DepthMapProcessor) (i : nat) : nat * bool :=
  (i + 1, bool_decide (pixel_min self <= band_count self i)%Z).

Definition kept_segments (reports : list report) : nat :=
  length (filter (fun d => d.2 = true) (omap band_decision reports)).

Definition set_pixel_min (p : Z) (self : DepthMapProcessor) : DepthMapProcessor :=
  mk_DepthMapProcessor (depth_map_original self) (depth_map_normalized self)
    p (min_contour_area self) (thresholds self) (kernel_size self)
    (dilate_iterations self) (erode_iterations self) (segmented_image self)
    (contours self) (mean_amplitudes self).

(** ** Statements on the persistence layer *)

(** The binary files of an object, with what [np.save] writes in each:
    the array, or a pickled [None] for a field that is not set. *)
Definition stored_files (c : StereoCalibration) : list (string * file) :=
  flat_map (fun '(key, a) =>
    match a with
    | Plain v => [(npy_name key, NpyFile v)]
    | Sided l r =>
        [(npy_name (key +:+ "_" +:+ "left"), NpyFile l);
         (npy_name (key +:+ "_" +:+ "right"), NpyFile r)]
    end) c.

(** The data directory holds the files of [c]. *)
Definition stored (c : StereoCalibration) (w : world) : Prop :=
  Forall (fun nf => fs w !! nf.1 = Some nf.2) (stored_files c).

Definition unset_attr (entry : string * attr) : string * attr :=
  (entry.1, match entry.2 with
            | Plain _ => Plain None
            | Sided _ _ => Sided None None
            end).

(** The fields of [c] up to the first one that is not set, the others
    unset; of a two-sided field whose right side only is not set, the
    left side is kept. *)
Fixpoint loaded_fields (c : StereoCalibration) : StereoCalibration :=
  match c with
  | [] => []
  | (key, Plain (Some a)) :: rest => (key, Plain (Some a)) :: loaded_fields rest
  | (key, Sided (Some a) (Some b)) :: rest =>
      (key, Sided (Some a) (Some b)) :: loaded_fields rest
  | (key, Sided (Some a) None) :: rest =>
      (key, Sided (Some a) None) :: map unset_attr rest
  | entry :: rest => unset_attr entry :: map unset_attr rest
  end.

(** A data directory with the files of an object of which no field is
    set. *)
Definition unset_directory : world :=
  mk_world (list_to_map (stored_files StereoCalibration_init)) [].

(** The lines [load_data] prints for the files it does not find when
    none of the files of the object is there. *)
Definition not_found_messages (directory : string) (self : StereoCalibration)
    : list string :=
  flat_map (fun key =>
    match getattr self key with
    | Some (Sided _ _) =>
        ["File " +:+ (directory +:+ "/" +:+ key +:+ "_" +:+ "left" +:+ ".npy")
                 +:+ " not found.";
         "File " +:+ (directory +:+ "/" +:+ key +:+ "_" +:+ "right" +:+ ".npy")
                 +:+ " not found."]
    | Some (Plain _) =>
        ["File " +:+ (directory +:+ "/" +:+ key +:+ ".npy") +:+ " not found."]
    | None => []
    end) (map fst self).

(** ** Statements on the import of the calibration images *)


(** The names under which [calibration_process] looks for pair [k]. *)
Definition left_name (image_folder : string) (k : nat) : string :=
  image_folder +:+ "/left" +:+ zfill2 k +:+ ".jpg".
Definition right_name (image_folder : string) (k : nat) : string :=
  image_folder +:+ "/right" +:+ zfill2 k +:+ ".jpg".



(** ** Statements on the capture of the calibration images *)

(** No file has a name that ends in [.jpg]. *)
Definition jpg_free (w : world) : Prop :=
  forall stem, fs w !! (stem +:+ ".jpg") = None.

(** A stand-in for the cameras: every frame is the same array. *)
Definition toy_picam : Picamera2 := {|
  picam_capture_file := fun _ _ _ => (arr1 0, "{}")
|}.

Definition sample_capture : DualCameraCapture :=
  mk_DualCameraCapture 2 1 (840, 820) 0 5.

(** The world after one pair was captured and accepted. *)
Definition captured_world : world :=
  default (mk_world ∅ [])
    (snd ∘ snd <$> @capture_images toy_picam sample_capture 1 "image" ["y"]
                    (mk_world ∅ [])).

(** A file of that name is there and holds an image. *)
Definition holds_image (w : world) (name : string) : Prop :=
  exists i, fs w !! name = Some (ImageFile i).

(** The names under which [capture_images] saves pair [k]. *)
Definition left_filename (image_folder : string) (k : nat) : string :=
  os_path_join image_folder ("left_" +:+ zfill2 k +:+ ".png").
Definition right_filename (image_folder : string) (k : nat) : string :=
  os_path_join image_folder ("right_" +:+ zfill2 k +:+ ".png").

(** ** Statements on the disparity field and on the sensor's frame *)

(** The raw amplitudes that the gate of [process_frame] masks once they
    are scaled: the float32 product [a * (255 / 1024)] is at most 7 when
    the exact one is at most [7 + 2 ^ -22], halfway to the next float32,
    that is when [a * 255 <= 7168 + 1 / 4096]. *)
Definition raw_gate (a : fnum) : bool :=
  match a with
  | Fin q => Qle_bool (q * 255) (7168 + (1 # 4096))
  | NegInf => true
  | NaN | PosInf => false
  end.

Definition cam_fresh (m : Q) : TofCamera := mk_TofCamera m None None None None 0.

(** * Properties *)

(** ** Reasoning about monadic code *)

Lemma bind_ok {S A B} (m : M S A) (k : A -> M S B) s a s' :
  m s = (Ok a, s') -> (m ≫= k) s = k a s'.
Proof. intros H. unfold mbind, M_bind. by rewrite H. Qed.

Lemma bind_raise {S A B} (m : M S A) (k : A -> M S B) s e s' :
  m s = (Raise e, s') -> (m ≫= k) s = (Raise e, s').
Proof. intros H. unfold mbind, M_bind. by rewrite H. Qed.

Lemma for_each_cons_ok {S A} (x : A) xs (body : A -> M S unit) s s' :
  body x s = (Ok tt, s') -> for_each (x :: xs) body s = for_each xs body s'.
Proof. intros H. simpl. by rewrite (bind_ok _ _ _ _ _ H). Qed.

(** * Rounding to a binary floating-point format *)

(** ** Powers of two *)

Lemma pow2_pos e : (0 < pow2 e)%Q.
Proof. by apply Qpower_0_lt. Qed.

Lemma pow2_add a b : (pow2 (a + b) == pow2 a * pow2 b)%Q.
Proof. by apply Qpower_plus. Qed.

Lemma pow2_succ e : (pow2 (e + 1) == 2 * pow2 e)%Q.
Proof. rewrite pow2_add. change (pow2 1) with 2%Q. ring. Qed.

Lemma pow2_pred e : (pow2 (e - 1) == pow2 e / 2)%Q.
Proof.
  assert (H : (pow2 e == 2 * pow2 (e - 1))%Q).
  { rewrite <- pow2_succ. by replace (e - 1 + 1)%Z with e by lia. }
  rewrite H. field.
Qed.

Lemma pow2_le a b : (a <= b)%Z -> (pow2 a <= pow2 b)%Q.
Proof. intros H. by apply Qpower_le_compat_l. Qed.

Lemma pow2_lt a b : (a < b)%Z -> (pow2 a < pow2 b)%Q.
Proof. intros H. by apply Qpower_lt_compat_l. Qed.

Lemma pow2_le_inv a b : (pow2 a <= pow2 b)%Q -> (a <= b)%Z.
Proof. intros H. by apply (Qpower_le_compat_l_inv 2). Qed.

Lemma pow2_lt_inv a b : (pow2 a < pow2 b)%Q -> (a < b)%Z.
Proof. intros H. by apply (Qpower_lt_compat_l_inv 2). Qed.

Lemma pow2_Z e : (0 <= e)%Z -> (pow2 e == inject_Z (2 ^ e))%Q.
Proof. intros H. unfold pow2. by rewrite Zpower_Qpower. Qed.

(** ** Rounding to the nearest integer *)

Lemma round_half_even_cases y :
  (round_half_even y = Qfloor y /\ (y - inject_Z (Qfloor y) <= 1 # 2)%Q)
  \/ (round_half_even y = (Qfloor y + 1)%Z /\ (1 # 2 <= y - inject_Z (Qfloor y))%Q).
Proof.
  unfold round_half_even.
  destruct (Qcompare_spec (y - inject_Z (Qfloor y)) (1 # 2)) as [E|E|E].
  - destruct (Z.even (Qfloor y)); [left|right]; (split; [done|]); rewrite E; apply Qle_refl.
  - left. split; [done|]. by apply Qlt_le_weak.
  - right. split; [done|]. by apply Qlt_le_weak.
Qed.

Lemma round_half_even_near y :
  (Qabs (inject_Z (round_half_even y) - y) <= 1 # 2)%Q.
Proof.
  pose proof (Qfloor_le y) as Hlo. pose proof (Qlt_floor y) as Hhi.
  rewrite inject_Z_plus in Hhi. change (inject_Z 1) with 1%Q in Hhi.
  apply Qabs_Qle_condition.
  destruct (round_half_even_cases y) as [[-> H]|[-> H]].
  - split; lra.
  - rewrite inject_Z_plus. change (inject_Z 1) with 1%Q. split; lra.
Qed.

Lemma round_half_even_mono y y' :
  (y <= y')%Q -> (round_half_even y <= round_half_even y')%Z.
Proof.
  intros Hle.
  pose proof (Qfloor_resp_le _ _ Hle) as Hf.
  destruct (Z.eq_dec (Qfloor y) (Qfloor y')) as [E|Hne].
  - unfold round_half_even. rewrite <- E.
    destruct (Qcompare_spec (y - inject_Z (Qfloor y)) (1 # 2)) as [E1|E1|E1];
      destruct (Qcompare_spec (y' - inject_Z (Qfloor y)) (1 # 2)) as [E2|E2|E2];
      try destruct (Z.even (Qfloor y)); try lia; exfalso; lra.
  - destruct (round_half_even_cases y) as [[-> _]|[-> _]];
      destruct (round_half_even_cases y') as [[-> _]|[-> _]]; lia.
Qed.

Lemma round_half_even_Z k : round_half_even (inject_Z k) = k.
Proof.
  unfold round_half_even. rewrite Qfloor_Z.
  destruct (Qcompare_spec (inject_Z k - inject_Z k) (1 # 2)) as [E|E|E];
    [exfalso; lra|done|exfalso; lra].
Qed.

Lemma round_half_even_comp y y' : (y == y')%Q -> round_half_even y = round_half_even y'.
Proof.
  intros E. unfold round_half_even. rewrite (Qfloor_comp _ _ E).
  assert (H : (y - inject_Z (Qfloor y') ?= 1 # 2)%Q = (y' - inject_Z (Qfloor y') ?= 1 # 2)%Q).
  { apply Qcompare_comp; [by rewrite E|reflexivity]. }
  by rewrite H.
Qed.

Lemma round_half_even_nonneg y : (0 <= y)%Q -> (0 <= round_half_even y)%Z.
Proof.
  intros H. rewrite <- (round_half_even_Z 0). by apply round_half_even_mono.
Qed.

(** ** The magnitude of a positive rational *)

Lemma Qmake_pos_lt (n : Z) (d : positive) : (0 < n # d)%Q -> (0 < n)%Z.
Proof. unfold Qlt. simpl. lia. Qed.

Lemma log2_bracket (n : Z) :
  (0 < n)%Z -> (2 ^ Z.log2 n <= n < 2 ^ (Z.log2 n + 1))%Z.
Proof. intros H. pose proof (Z.log2_spec n H). by rewrite <- Z.add_1_r in *. Qed.

Lemma magnitude_estimate (a : Q) :
  (0 < a)%Q ->
  (pow2 (Z.log2 (Qnum a) - Z.log2 (Zpos (Qden a)) - 1) <= a
   /\ a < pow2 (Z.log2 (Qnum a) - Z.log2 (Zpos (Qden a)) + 1))%Q.
Proof.
  destruct a as [n d]. intros Hpos. cbn [Qnum Qden].
  set (k := (Z.log2 n - Z.log2 (Zpos d))%Z).
  apply Qmake_pos_lt in Hpos.
  destruct (log2_bracket n Hpos) as [Hn1 Hn2].
  destruct (log2_bracket (Zpos d) ltac:(lia)) as [Hd1 Hd2].
  pose proof (Z.log2_nonneg n) as Hln. pose proof (Z.log2_nonneg (Zpos d)) as Hld.
  set (ln := Z.log2 n) in *. set (ld := Z.log2 (Zpos d)) in *.
  assert (Hk1 : (pow2 (k - 1) == inject_Z (2 ^ ln) / inject_Z (2 ^ (ld + 1)))%Q).
  { replace (k - 1)%Z with (ln - (ld + 1))%Z by (subst k; lia).
    unfold pow2. rewrite Qpower_minus by done.
    fold (pow2 ln) (pow2 (ld + 1)). by rewrite !pow2_Z by lia. }
  assert (Hk2 : (pow2 (k + 1) == inject_Z (2 ^ (ln + 1)) / inject_Z (2 ^ ld))%Q).
  { replace (k + 1)%Z with (ln + 1 - ld)%Z by (subst k; lia).
    unfold pow2. rewrite Qpower_minus by done.
    fold (pow2 (ln + 1)) (pow2 ld). by rewrite !pow2_Z by lia. }
  assert (Hp1 : (0 < 2 ^ (ld + 1))%Z) by (apply Z.pow_pos_nonneg; lia).
  assert (Hp2 : (0 < 2 ^ ld)%Z) by (apply Z.pow_pos_nonneg; lia).
  assert (Hp3 : (0 < 2 ^ ln)%Z) by (apply Z.pow_pos_nonneg; lia).
  rewrite Hk1, Hk2. rewrite (Qmake_Qdiv n d). split.
  - apply Qle_shift_div_r; [by rewrite <- (Zlt_Qlt 0)|].
    unfold Qdiv. rewrite <- Qmult_assoc, (Qmult_comm (/ _)), Qmult_assoc.
    apply Qle_shift_div_l; [by rewrite <- (Zlt_Qlt 0)|].
    rewrite <- !inject_Z_mult, <- Zle_Qle. nia.
  - apply Qlt_shift_div_l; [by rewrite <- (Zlt_Qlt 0)|].
    unfold Qdiv. rewrite <- Qmult_assoc, (Qmult_comm (/ _)), Qmult_assoc.
    apply Qlt_shift_div_r; [by rewrite <- (Zlt_Qlt 0)|].
    rewrite <- !inject_Z_mult, <- Zlt_Qlt. nia.
Qed.

Lemma magnitude_spec (a : Q) :
  (0 < a)%Q -> (pow2 (magnitude a) <= a /\ a < pow2 (magnitude a + 1))%Q.
Proof.
  intros Hpos. destruct (magnitude_estimate a Hpos) as [H1 H2]. unfold magnitude.
  destruct (Qle_bool _ a) eqn:E.
  - apply Qle_bool_iff in E. by split.
  - split; [done|]. replace (_ - 1 + 1)%Z with
      (Z.log2 (Qnum a) - Z.log2 (Zpos (Qden a)))%Z by lia.
    apply Qnot_le_lt. intros Hn. apply Qle_bool_iff in Hn. congruence.
Qed.

Lemma magnitude_unique (a : Q) (e : Z) :
  (pow2 e <= a)%Q -> (a < pow2 (e + 1))%Q -> magnitude a = e.
Proof.
  intros H1 H2.
  assert (Hpos : (0 < a)%Q) by (eapply Qlt_le_trans; [apply pow2_pos|exact H1]).
  destruct (magnitude_spec a Hpos) as [M1 M2].
  assert (magnitude a < e + 1)%Z.
  { apply pow2_lt_inv. eapply Qle_lt_trans; eassumption. }
  assert (e < magnitude a + 1)%Z.
  { apply pow2_lt_inv. eapply Qle_lt_trans; eassumption. }
  lia.
Qed.

Lemma magnitude_mono (a b : Q) :
  (0 < a)%Q -> (a <= b)%Q -> (magnitude a <= magnitude b)%Z.
Proof.
  intros Ha Hab.
  assert (Hb : (0 < b)%Q) by (eapply Qlt_le_trans; eassumption).
  destruct (magnitude_spec a Ha) as [A1 _], (magnitude_spec b Hb) as [_ B2].
  assert (magnitude a < magnitude b + 1)%Z; [|lia].
  apply pow2_lt_inv. eapply Qle_lt_trans; [exact A1|].
  eapply Qle_lt_trans; eassumption.
Qed.

Lemma magnitude_comp (a b : Q) : (0 < a)%Q -> (a == b)%Q -> magnitude a = magnitude b.
Proof.
  intros Ha E. symmetry. destruct (magnitude_spec a Ha) as [A1 A2].
  apply magnitude_unique; by rewrite <- E.
Qed.

(** ** Rounding a positive rational *)

Section RoundPositive.
Variable fmt : float_format.
Hypothesis prec_pos : (1 <= prec fmt)%Z.

Lemma ulp_exponent_ge_emin a : (emin fmt <= ulp_exponent fmt a)%Z.
Proof. unfold ulp_exponent. lia. Qed.

Lemma ulp_exponent_above a :
  (0 < a)%Q -> (a < pow2 (ulp_exponent fmt a + prec fmt))%Q.
Proof.
  intros Ha. destruct (magnitude_spec a Ha) as [_ H2].
  eapply Qlt_le_trans; [exact H2|]. apply pow2_le. unfold ulp_exponent. lia.
Qed.

Lemma ulp_exponent_below a :
  (0 < a)%Q -> (emin fmt < ulp_exponent fmt a)%Z ->
  (pow2 (ulp_exponent fmt a + prec fmt - 1) <= a)%Q.
Proof.
  intros Ha He. destruct (magnitude_spec a Ha) as [H1 _].
  replace (ulp_exponent fmt a + prec fmt - 1)%Z with (magnitude a); [done|].
  unfold ulp_exponent in *. lia.
Qed.

Lemma ulp_exponent_mono a b :
  (0 < a)%Q -> (a <= b)%Q -> (ulp_exponent fmt a <= ulp_exponent fmt b)%Z.
Proof.
  intros Ha Hab. pose proof (magnitude_mono a b Ha Hab). unfold ulp_exponent. lia.
Qed.

Lemma ulp_exponent_normal a :
  (pow2 (emin fmt + prec fmt - 1) <= a)%Q ->
  ulp_exponent fmt a = (magnitude a - (prec fmt - 1))%Z.
Proof.
  intros Hn.
  assert (Ha : (0 < a)%Q) by (eapply Qlt_le_trans; [apply pow2_pos|exact Hn]).
  destruct (magnitude_spec a Ha) as [_ H2].
  assert (emin fmt + prec fmt - 1 < magnitude a + 1)%Z.
  { apply pow2_lt_inv. eapply Qle_lt_trans; eassumption. }
  unfold ulp_exponent. lia.
Qed.

Lemma scaled_above a :
  (0 < a)%Q ->
  (a / pow2 (ulp_exponent fmt a) < inject_Z (2 ^ prec fmt))%Q.
Proof.
  intros Ha. apply Qlt_shift_div_r; [apply pow2_pos|].
  rewrite <- (pow2_Z (prec fmt)) by lia. rewrite <- pow2_add, Z.add_comm.
  by apply ulp_exponent_above.
Qed.

Lemma scaled_below a :
  (0 < a)%Q -> (emin fmt < ulp_exponent fmt a)%Z ->
  (inject_Z (2 ^ (prec fmt - 1)) <= a / pow2 (ulp_exponent fmt a))%Q.
Proof.
  intros Ha He. apply Qle_shift_div_l; [apply pow2_pos|].
  rewrite <- (pow2_Z (prec fmt - 1)) by lia. rewrite <- pow2_add.
  replace (prec fmt - 1 + ulp_exponent fmt a)%Z
    with (ulp_exponent fmt a + prec fmt - 1)%Z by lia.
  by apply ulp_exponent_below.
Qed.

Lemma round_positive_nonneg a : (0 < a)%Q -> (0 <= round_positive fmt a)%Q.
Proof.
  intros Ha. unfold round_positive. apply Qmult_le_0_compat.
  - rewrite <- (Zle_Qle 0). apply round_half_even_nonneg.
    apply Qle_shift_div_l; [apply pow2_pos|]. rewrite Qmult_0_l. by apply Qlt_le_weak.
  - apply Qlt_le_weak, pow2_pos.
Qed.

Lemma round_positive_mono a b :
  (0 < a)%Q -> (a <= b)%Q -> (round_positive fmt a <= round_positive fmt b)%Q.
Proof.
  intros Ha Hab.
  assert (Hb : (0 < b)%Q) by (eapply Qlt_le_trans; eassumption).
  pose proof (ulp_exponent_mono a b Ha Hab) as He. unfold round_positive.
  destruct (Z.eq_dec (ulp_exponent fmt a) (ulp_exponent fmt b)) as [E|Hne].
  - rewrite E. apply Qmult_le_compat_r; [|apply Qlt_le_weak, pow2_pos].
    rewrite <- Zle_Qle. apply round_half_even_mono.
    apply Qmult_le_compat_r; [done|]. apply Qlt_le_weak, Qinv_lt_0_compat, pow2_pos.
  - assert (Hlt : (ulp_exponent fmt a < ulp_exponent fmt b)%Z) by lia.
    assert (Hbig : (emin fmt < ulp_exponent fmt b)%Z).
    { pose proof (ulp_exponent_ge_emin a). lia. }
    apply Qle_trans with (pow2 (ulp_exponent fmt a + prec fmt)).
    + rewrite Z.add_comm, pow2_add.
      apply Qmult_le_compat_r; [|apply Qlt_le_weak, pow2_pos].
      rewrite (pow2_Z (prec fmt)) by lia. rewrite <- Zle_Qle.
      rewrite <- (round_half_even_Z (2 ^ prec fmt)).
      apply round_half_even_mono, Qlt_le_weak. by apply scaled_above.
    + apply Qle_trans with (pow2 (ulp_exponent fmt b + prec fmt - 1)).
      { apply pow2_le. lia. }
      replace (ulp_exponent fmt b + prec fmt - 1)%Z
        with (prec fmt - 1 + ulp_exponent fmt b)%Z by lia.
      rewrite pow2_add.
      apply Qmult_le_compat_r; [|apply Qlt_le_weak, pow2_pos].
      rewrite (pow2_Z (prec fmt - 1)) by lia. rewrite <- Zle_Qle.
      rewrite <- (round_half_even_Z (2 ^ (prec fmt - 1))).
      apply round_half_even_mono. by apply scaled_below.
Qed.

Lemma round_positive_error a :
  (0 < a)%Q ->
  (Qabs (round_positive fmt a - a) <= pow2 (ulp_exponent fmt a - 1))%Q.
Proof.
  intros Ha. unfold round_positive. set (e := ulp_exponent fmt a).
  pose proof (pow2_pos e) as He.
  assert (Heq : (inject_Z (round_half_even (a / pow2 e)) * pow2 e - a
                 == (inject_Z (round_half_even (a / pow2 e)) - a / pow2 e) * pow2 e)%Q).
  { field. intros E0. rewrite E0 in He. by apply (Qlt_irrefl 0). }
  rewrite Heq, Qabs_Qmult, (Qabs_pos (pow2 e)) by (by apply Qlt_le_weak).
  rewrite pow2_pred.
  apply Qle_trans with ((1 # 2) * pow2 e)%Q.
  - apply Qmult_le_compat_r; [apply round_half_even_near|by apply Qlt_le_weak].
  - apply Qle_lteq. right. field.
Qed.

Lemma round_positive_relative_error a :
  (pow2 (emin fmt + prec fmt - 1) <= a)%Q ->
  (Qabs (round_positive fmt a - a) <= a * pow2 (- prec fmt))%Q.
Proof.
  intros Hn.
  assert (Ha : (0 < a)%Q) by (eapply Qlt_le_trans; [apply pow2_pos|exact Hn]).
  eapply Qle_trans; [by apply round_positive_error|].
  rewrite (ulp_exponent_normal a Hn).
  replace (magnitude a - (prec fmt - 1) - 1)%Z with (magnitude a + - prec fmt)%Z by lia.
  rewrite pow2_add.
  apply Qmult_le_compat_r; [|apply Qlt_le_weak, pow2_pos].
  by destruct (magnitude_spec a Ha).
Qed.

Lemma round_positive_comp a b :
  (0 < a)%Q -> (a == b)%Q -> (round_positive fmt a == round_positive fmt b)%Q.
Proof.
  intros Ha E. unfold round_positive, ulp_exponent.
  rewrite <- (magnitude_comp a b Ha E).
  set (e := Z.max _ _).
  assert (H : round_half_even (a / pow2 e) = round_half_even (b / pow2 e)).
  { apply round_half_even_comp. by rewrite E. }
  by rewrite H.
Qed.

End RoundPositive.

(** ** Rounding to a float *)

Section RoundFloat.
Variable fmt : float_format.
Hypothesis prec_pos : (1 <= prec fmt)%Z.

Lemma round_float_zero x : (x == 0)%Q -> round_float fmt x = Fin 0.
Proof.
  intros E. unfold round_float.
  destruct (Qcompare_spec x 0); [done|exfalso; lra..].
Qed.

Lemma round_float_positive x :
  (0 < x)%Q ->
  round_float fmt x
  = if Qle_bool (pow2 (emax fmt)) (round_positive fmt x) then PosInf
    else Fin (Qred (round_positive fmt x)).
Proof.
  intros H. unfold round_float.
  destruct (Qcompare_spec x 0); [exfalso; lra..|done].
Qed.

Lemma round_float_negative x :
  (x < 0)%Q ->
  round_float fmt x
  = if Qle_bool (pow2 (emax fmt)) (round_positive fmt (- x)) then NegInf
    else Fin (Qred (- round_positive fmt (- x))).
Proof.
  intros H. unfold round_float.
  destruct (Qcompare_spec x 0); [exfalso; lra|done|exfalso; lra].
Qed.

Lemma round_float_not_NaN x : round_float fmt x <> NaN.
Proof.
  unfold round_float. destruct (x ?= 0)%Q; [done|..]; by destruct (Qle_bool _ _).
Qed.

Lemma round_float_mono x y :
  (x <= y)%Q -> fnum_le (round_float fmt x) (round_float fmt y).
Proof.
  intros Hxy.
  destruct (Qcompare_spec x 0) as [Ex|Ex|Ex]; destruct (Qcompare_spec y 0) as [Ey|Ey|Ey];
    try (exfalso; lra).
  - rewrite !round_float_zero by done. simpl. lra.
  - rewrite (round_float_zero x) by done. rewrite (round_float_positive y) by done.
    destruct (Qle_bool _ _); [done|]. simpl. rewrite Qred_correct.
    by apply round_positive_nonneg.
  - rewrite (round_float_zero y) by done. rewrite (round_float_negative x) by done.
    destruct (Qle_bool _ _); [done|]. simpl. rewrite Qred_correct.
    assert (0 <= round_positive fmt (- x))%Q by (apply round_positive_nonneg; lra).
    lra.
  - rewrite (round_float_negative x), (round_float_negative y) by done.
    assert (Hm : (round_positive fmt (- y) <= round_positive fmt (- x))%Q).
    { apply round_positive_mono; [done|lra|lra]. }
    destruct (Qle_bool _ (round_positive fmt (- x))) eqn:E1;
      [destruct (Qle_bool _ (round_positive fmt (- y))); exact I|].
    destruct (Qle_bool _ (round_positive fmt (- y))) eqn:E2.
    + apply Qle_bool_iff in E2.
      assert (Qle_bool (pow2 (emax fmt)) (round_positive fmt (- x)) = true); [|congruence].
      apply Qle_bool_iff. lra.
    + simpl. rewrite !Qred_correct. lra.
  - rewrite (round_float_negative x), (round_float_positive y) by done.
    destruct (Qle_bool _ (round_positive fmt (- x))); [destruct (Qle_bool _ _); exact I|].
    destruct (Qle_bool _ _); [done|]. simpl. rewrite !Qred_correct.
    assert (0 <= round_positive fmt (- x))%Q by (apply round_positive_nonneg; lra).
    assert (0 <= round_positive fmt y)%Q by (by apply round_positive_nonneg).
    lra.
  - rewrite (round_float_positive x), (round_float_positive y) by done.
    assert (Hm : (round_positive fmt x <= round_positive fmt y)%Q).
    { by apply round_positive_mono. }
    destruct (Qle_bool _ (round_positive fmt y)) eqn:E2;
      [destruct (Qle_bool _ (round_positive fmt x)); exact I|].
    destruct (Qle_bool _ (round_positive fmt x)) eqn:E1.
    + apply Qle_bool_iff in E1.
      assert (Qle_bool (pow2 (emax fmt)) (round_positive fmt y) = true); [|congruence].
      apply Qle_bool_iff. lra.
    + simpl. rewrite !Qred_correct. lra.
Qed.

Lemma round_float_comp x y : (x == y)%Q -> round_float fmt x = round_float fmt y.
Proof.
  intros E.
  destruct (Qcompare_spec x 0) as [Ex|Ex|Ex].
  - rewrite !round_float_zero; [done|by rewrite <- E|done].
  - rewrite (round_float_negative x) by done.
    rewrite (round_float_negative y) by (by rewrite <- E).
    assert (H : (round_positive fmt (- x) == round_positive fmt (- y))%Q).
    { apply round_positive_comp; [lra|by rewrite E]. }
    assert (Hb : Qle_bool (pow2 (emax fmt)) (round_positive fmt (- x))
                 = Qle_bool (pow2 (emax fmt)) (round_positive fmt (- y))).
    { destruct (Qle_bool _ (round_positive fmt (- y))) eqn:E2.
      - apply Qle_bool_iff. apply Qle_bool_iff in E2. by rewrite H.
      - apply not_true_is_false. intros E1. apply Qle_bool_iff in E1.
        rewrite H in E1. apply Qle_bool_iff in E1. congruence. }
    rewrite Hb. clear Hb. destruct (Qle_bool _ _); [done|]. f_equal. apply Qred_complete.
    by rewrite H.
  - rewrite (round_float_positive x) by done.
    rewrite (round_float_positive y) by (by rewrite <- E).
    assert (H : (round_positive fmt x == round_positive fmt y)%Q).
    { by apply round_positive_comp. }
    assert (Hb : Qle_bool (pow2 (emax fmt)) (round_positive fmt x)
                 = Qle_bool (pow2 (emax fmt)) (round_positive fmt y)).
    { destruct (Qle_bool _ (round_positive fmt y)) eqn:E2.
      - apply Qle_bool_iff. apply Qle_bool_iff in E2. by rewrite H.
      - apply not_true_is_false. intros E1. apply Qle_bool_iff in E1.
        rewrite H in E1. apply Qle_bool_iff in E1. congruence. }
    rewrite Hb. clear Hb. destruct (Qle_bool _ _); [done|]. f_equal. by apply Qred_complete.
Qed.

(** The value of a finite result, and the absolute value it was
    rounded from. *)
Lemma round_float_value x q :
  round_float fmt x = Fin q ->
  ~ (x == 0)%Q ->
  (Qabs q == round_positive fmt (Qabs x))%Q
  /\ ((0 < x)%Q -> (0 <= q)%Q) /\ ((x < 0)%Q -> (q <= 0)%Q).
Proof.
  intros Hr Hx.
  destruct (Qcompare_spec x 0) as [Ex|Ex|Ex]; [done|..].
  - rewrite (round_float_negative x) in Hr by done.
    destruct (Qle_bool _ _); [done|]. injection Hr as <-.
    assert (Hn : (0 <= round_positive fmt (- x))%Q)
      by (apply round_positive_nonneg; lra).
    rewrite Qred_correct. split; [|split; intros; lra].
    rewrite Qabs_neg by lra.
    rewrite (round_positive_comp fmt (Qabs x) (- x)); [ring| |].
    + rewrite Qabs_neg; lra.
    + apply Qabs_neg; lra.
  - rewrite (round_float_positive x) in Hr by done.
    destruct (Qle_bool _ _); [done|]. injection Hr as <-.
    assert (Hn : (0 <= round_positive fmt x)%Q) by (by apply round_positive_nonneg).
    rewrite Qred_correct. split; [|split; intros; lra].
    rewrite Qabs_pos by lra.
    apply round_positive_comp; [done|]. symmetry. apply Qabs_pos; lra.
Qed.

Lemma round_float_error x q :
  round_float fmt x = Fin q ->
  ~ (x == 0)%Q ->
  (Qabs (q - x) <= pow2 (ulp_exponent fmt (Qabs x) - 1))%Q.
Proof.
  intros Hr Hx.
  destruct (Qcompare_spec x 0) as [Ex|Ex|Ex]; [done|..].
  - rewrite (round_float_negative x) in Hr by done.
    destruct (Qle_bool _ _); [done|]. injection Hr as <-. rewrite Qred_correct.
    assert (Hpos : (0 < - x)%Q) by lra.
    pose proof (round_positive_error fmt (- x) Hpos) as He.
    assert (Hu : ulp_exponent fmt (Qabs x) = ulp_exponent fmt (- x)).
    { unfold ulp_exponent. f_equal. f_equal. symmetry.
      apply magnitude_comp; [done|]. symmetry. apply Qabs_neg. lra. }
    rewrite Hu.
    assert (Heq : (- round_positive fmt (- x) - x == - (round_positive fmt (- x) - - x))%Q)
      by ring.
    by rewrite Heq, Qabs_opp.
  - rewrite (round_float_positive x) in Hr by done.
    destruct (Qle_bool _ _); [done|]. injection Hr as <-. rewrite Qred_correct.
    pose proof (round_positive_error fmt x Ex) as He.
    assert (Hu : ulp_exponent fmt (Qabs x) = ulp_exponent fmt x).
    { unfold ulp_exponent. f_equal. f_equal. symmetry.
      apply magnitude_comp; [done|]. symmetry. apply Qabs_pos. lra. }
    by rewrite Hu.
Qed.

Lemma round_float_relative_error x q :
  round_float fmt x = Fin q ->
  (pow2 (emin fmt + prec fmt - 1) <= Qabs x)%Q ->
  (Qabs (q - x) <= Qabs x * pow2 (- prec fmt))%Q.
Proof.
  intros Hr Hn.
  assert (Hpos : (0 < Qabs x)%Q) by (eapply Qlt_le_trans; [apply pow2_pos|exact Hn]).
  assert (Hx : ~ (x == 0)%Q).
  { intros E. rewrite E in Hpos. by apply (Qlt_irrefl 0). }
  eapply Qle_trans; [by apply round_float_error|].
  rewrite (ulp_exponent_normal fmt (Qabs x) Hn).
  replace (magnitude (Qabs x) - (prec fmt - 1) - 1)%Z
    with (magnitude (Qabs x) + - prec fmt)%Z by lia.
  rewrite pow2_add.
  apply Qmult_le_compat_r; [|apply Qlt_le_weak, pow2_pos].
  by destruct (magnitude_spec (Qabs x) Hpos).
Qed.


End RoundFloat.

(** ** The formats float32 and float64 *)

Lemma fnum_le_trans x y z : fnum_le x y -> fnum_le y z -> fnum_le x z.
Proof.
  destruct x, y, z; simpl; try done. apply Qle_trans.
Qed.

(** A rational between two floats of the format rounds to a float
    between them. *)
Lemma round_float_bounded (fmt : float_format) (lo hi x : Q) :
  (1 <= prec fmt)%Z ->
  round_float fmt lo = Fin lo ->
  round_float fmt hi = Fin hi ->
  (lo <= x)%Q -> (x <= hi)%Q ->
  exists q, round_float fmt x = Fin q /\ (lo <= q)%Q /\ (q <= hi)%Q.
Proof.
  intros Hp Hlo Hhi Hl Hh.
  pose proof (round_float_mono fmt Hp _ _ Hl) as H1.
  pose proof (round_float_mono fmt Hp _ _ Hh) as H2.
  rewrite Hlo in H1. rewrite Hhi in H2.
  destruct (round_float fmt x) as [q| | |]; simpl in *; try done.
  by exists q.
Qed.

Lemma prec32_pos : (1 <= prec binary32)%Z.
Proof. done. Qed.

Lemma prec64_pos : (1 <= prec binary64)%Z.
Proof. done. Qed.

Lemma round32_mono x y : (x <= y)%Q -> fnum_le (round32 x) (round32 y).
Proof. apply round_float_mono, prec32_pos. Qed.

Lemma round32_0 : round32 0 = Fin 0.
Proof. reflexivity. Qed.

Lemma round32_1 : round32 1 = Fin 1.
Proof. vm_compute. reflexivity. Qed.


Lemma round32_bounded (lo hi x : Q) :
  round32 lo = Fin lo -> round32 hi = Fin hi ->
  (lo <= x)%Q -> (x <= hi)%Q ->
  exists q, round32 x = Fin q /\ (lo <= q)%Q /\ (q <= hi)%Q.
Proof. apply round_float_bounded, prec32_pos. Qed.


(** ** The persistence layer *)

(** Unfold the monadic plumbing and reduce what has become a redex. *)
Ltac mrun :=
  repeat progress
    (unfold mbind, M_bind, mret, M_ret, io, lift_result, get_self, put_self,
       raise, try_except;
     cbn [fst snd fs stdout getitem setitem for_each side_name map]).

Lemma getattr_setattr_eq self key a b :
  getattr self key = Some b -> getattr (setattr self key a) key = Some a.
Proof.
  induction self as [|[k c] self IH]; simpl; [done|].
  case_bool_decide as Hk; simpl.
  - by rewrite bool_decide_true.
  - rewrite bool_decide_false by done. done.
Qed.

Lemma getattr_setattr_ne self key key' a :
  key <> key' -> getattr (setattr self key a) key' = getattr self key'.
Proof.
  intros Hne. induction self as [|[k c] self IH]; simpl.
  - by rewrite bool_decide_false.
  - case_bool_decide as Hk; simpl.
    + subst k. by rewrite !bool_decide_false.
    + case_bool_decide; [done|apply IH].
Qed.

Lemma path_exists_present name f w :
  fs w !! name = Some f -> path_exists name w = (Ok true, w).
Proof. intros H. unfold path_exists. rewrite H. by rewrite bool_decide_true. Qed.

Lemma path_exists_absent name w :
  fs w !! name = None -> path_exists name w = (Ok false, w).
Proof.
  intros H. unfold path_exists. rewrite H.
  rewrite bool_decide_false; [done|]. by intros [? ?].
Qed.

Lemma np_load_array name a w :
  fs w !! name = Some (NpyFile (Some a)) -> np_load name w = (Ok a, w).
Proof. intros H. unfold np_load. by rewrite H. Qed.

Lemma load_data_key_plain dir key v0 a self w :
  getattr self key = Some (Plain v0) ->
  fs w !! (dir +:+ "/" +:+ key +:+ ".npy") = Some (NpyFile (Some a)) ->
  load_data_key dir key (self, w) =
  (Ok tt, (setattr self key (Plain (Some a)), w)).
Proof.
  intros H Hf. unfold load_data_key, dict_get. mrun. rewrite H. mrun.
  rewrite (path_exists_present _ _ _ Hf). mrun.
  rewrite (np_load_array _ _ _ Hf). reflexivity.
Qed.

Lemma load_data_key_plain_missing dir key v0 self w :
  getattr self key = Some (Plain v0) ->
  fs w !! (dir +:+ "/" +:+ key +:+ ".npy") = None ->
  load_data_key dir key (self, w) =
  (Ok tt, (self, mk_world (fs w)
     (stdout w ++ ["File " +:+ (dir +:+ "/" +:+ key +:+ ".npy") +:+ " not found."]))).
Proof.
  intros H Hf. unfold load_data_key, dict_get. mrun. rewrite H. mrun.
  rewrite (path_exists_absent _ _ Hf). reflexivity.
Qed.

Lemma load_data_key_sided dir key l0 r0 a b self w :
  getattr self key = Some (Sided l0 r0) ->
  fs w !! (dir +:+ "/" +:+ key +:+ "_" +:+ "left" +:+ ".npy") = Some (NpyFile (Some a)) ->
  fs w !! (dir +:+ "/" +:+ key +:+ "_" +:+ "right" +:+ ".npy") = Some (NpyFile (Some b)) ->
  load_data_key dir key (self, w) =
  (Ok tt, (setattr (setattr self key (Sided (Some a) r0)) key
             (Sided (Some a) (Some b)), w)).
Proof.
  intros H Hl Hr. unfold load_data_key, load_side, dict_get. mrun. rewrite H. mrun.
  rewrite (path_exists_present _ _ _ Hl). mrun.
  rewrite (np_load_array _ _ _ Hl). mrun. rewrite H. mrun.
  rewrite (path_exists_present _ _ _ Hr). mrun.
  rewrite (np_load_array _ _ _ Hr). mrun.
  rewrite (getattr_setattr_eq _ _ _ _ H). mrun. reflexivity.
Qed.

Ltac inv_forall2 :=
  repeat match goal with
  | H : Forall2 _ _ (_ :: _) |- _ =>
      apply Forall2_cons_inv_r in H; destruct H as (?&?&[? ?]&H&->)
  | H : Forall2 _ _ [] |- _ => apply Forall2_nil_inv_r in H; subst
  end.

Ltac concretise c Hwf Hpop :=
  unfold well_formed, StereoCalibration_init in Hwf;
  inv_forall2;
  repeat match goal with
         | x : string * attr |- _ => destruct x as [? []]; simpl in *; try done
         end;
  subst;
  repeat match goal with
         | H : Forall _ (_ :: _) |- _ => apply Forall_cons in H; destruct H as [? H]
         end;
  simpl in *;
  repeat match goal with
         | H : is_Some _ ∧ is_Some _ |- _ => destruct H as [[? ->] [? ->]]
         | H : is_Some _ |- _ => destruct H as [? ->]
         end.

Lemma sample_calibration_populated : fully_populated sample_calibration.
Proof.
  split.
  - unfold well_formed, sample_calibration, StereoCalibration_init.
    repeat (constructor; [split; exact I || reflexivity|]). constructor.
  - unfold sample_calibration.
    repeat (constructor; [simpl; eauto|]). constructor.
Qed.

Ltac split_files Hall :=
  repeat match type of Hall with
         | Forall _ (_ :: _) =>
             let Hx := fresh "Hfile" in
             apply Forall_cons in Hall as [Hx Hall];
             try specialize (Hx ltac:(discriminate))
         end.

Lemma load_without_rot_mat (c : StereoCalibration) (w : world) :
  fully_populated c ->
  fs w !! npy_name "rot_mat" = None ->
  (forall stem a, (stem, a) ∈ arrays_of c -> stem <> "rot_mat" ->
                  fs w !! npy_name stem = Some (NpyFile (Some a))) ->
  load_data "data" (StereoCalibration_init, w)
  = (Ok tt, (setattr c "rot_mat" (Plain None),
             mk_world (fs w)
               (stdout w ++ ["File data/rot_mat.npy not found.";
                             "Data loading completed successfully."]))).
Proof.
  intros [Hwf Hpop] Hmissing Hfiles.
  assert (Hall : Forall (fun sa => sa.1 <> "rot_mat" ->
                           fs w !! npy_name sa.1 = Some (NpyFile (Some sa.2)))
                        (arrays_of c)).
  { apply Forall_forall. intros [stem a] Hin. by apply Hfiles. }
  clear Hfiles. concretise c Hwf Hpop.
  unfold arrays_of in Hall. cbn [flat_map from_option app fst snd] in Hall.
  split_files Hall. clear Hall.
  unfold npy_name in *. cbn [String.append] in *.
  unfold load_data, StereoCalibration_init. mrun.
  repeat (first [ erewrite load_data_key_sided by (first [reflexivity | eassumption])
                | erewrite load_data_key_plain by (first [reflexivity | eassumption])
                | erewrite load_data_key_plain_missing by (first [reflexivity | eassumption]) ];
          mrun).
  unfold print. cbn [fst snd fs stdout setattr bool_decide]. rewrite <- !app_assoc.
  reflexivity.
Qed.

(** ** Rectification of a pair of frames *)

Section Rectify.
Context `{Imgproc}.

Lemma rectify_run (self : StereoCalibration) (frames : pyval * pyval)
    (ul ur rl rr : pyval) :
  getattr self "undistortion_map" = Some (Sided ul ur) ->
  getattr self "rectification_map" = Some (Sided rl rr) ->
  rectify self frames = remap_pair frames ul ur rl rr.
Proof.
  intros Hu Hr. unfold rectify, attr_side, remap_pair. cbn [foldl fst snd].
  rewrite Hu, Hr. cbn [getitem rbind app].
  destruct (cv2_remap frames.1 ul rl) as [new_left|]; cbn [result_of_cv rbind]; [|done].
  by destruct (cv2_remap frames.2 ur rr) as [new_right|].
Qed.

Lemma remap_pair_error (frames : pyval * pyval) (ul ur rl rr : pyval) (e : exn) :
  remap_pair frames ul ur rl rr = Raise e -> e = Cv2Error.
Proof.
  unfold remap_pair. repeat case_match; congruence.
Qed.

Lemma rectify_same_maps (self self' : StereoCalibration) (frames : pyval * pyval) :
  getattr self' "undistortion_map" = getattr self "undistortion_map" ->
  getattr self' "rectification_map" = getattr self "rectification_map" ->
  rectify self' frames = rectify self frames.
Proof.
  intros Hu Hr. unfold rectify, attr_side. cbn [foldl fst snd]. by rewrite Hu, Hr.
Qed.

(** C1, amended: [rectify] reads the undistortion and the rectification
    map of each side and no other field, and hands them to [cv2.remap]
    with the frame of that side, be they arrays or [None]: its outcome is
    that of the two calls, the two resampled frames or the [cv2.error] of
    the first call that fails, and never [NotCalibrated].  After a load
    from a directory that holds every file but [rot_mat.npy], the load
    completes with a warning, [rot_mat] stays unset, every other field is
    loaded, and [rectify] does what it does on the calibration that was
    saved. *)
Theorem rectify_reads_maps_only (frames : pyval * pyval) :
  (forall (self : StereoCalibration) (ul ur rl rr : pyval),
     getattr self "undistortion_map" = Some (Sided ul ur) ->
     getattr self "rectification_map" = Some (Sided rl rr) ->
     rectify self frames = remap_pair frames ul ur rl rr
     /\ rectify self frames <> Raise NotCalibrated)
  /\ (forall (c : StereoCalibration) (w : world),
        fully_populated c ->
        fs w !! npy_name "rot_mat" = None ->
        (forall stem a, (stem, a) ∈ arrays_of c -> stem <> "rot_mat" ->
                        fs w !! npy_name stem = Some (NpyFile (Some a))) ->
        exists self w',
          load_data "data" (StereoCalibration_init, w) = (Ok tt, (self, w'))
          /\ stdout w' = (stdout w ++ ["File data/rot_mat.npy not found.";
                                       "Data loading completed successfully."])%list
          /\ getattr self "rot_mat" = Some (Plain None)
          /\ (forall key, key <> "rot_mat" -> getattr self key = getattr c key)
          /\ rectify self frames = rectify c frames).
Proof.
  split.
  - intros self ul ur rl rr Hu Hr. rewrite (rectify_run _ _ _ _ _ _ Hu Hr).
    split; [done|]. intros Hn. by apply remap_pair_error in Hn.
  - intros c w Hc Hmissing Hfiles.
    assert (Hother : forall key, key <> "rot_mat" ->
              getattr (setattr c "rot_mat" (Plain None)) key = getattr c key).
    { intros key Hkey. apply getattr_setattr_ne. congruence. }
    eexists _, _. split; [by apply load_without_rot_mat|].
    split; [reflexivity|]. split.
    { destruct Hc as [Hwf Hpop]. concretise c Hwf Hpop. reflexivity. }
    split; [exact Hother|].
    apply rectify_same_maps; by apply Hother.
Qed.

End Rectify.

(** C1, counterexample: after a load from a directory without
    [rot_mat.npy] the load completes with a warning and [rot_mat] stays
    unset; whatever [cv2.remap] does, neither on the instance that was
    loaded nor on a fresh one, where every field is absent, does
    [rectify] raise [NotCalibrated]. *)
Lemma rectify_NotCalibrated_counterexample :
  (load_data "data" (StereoCalibration_init, world_without_rot_mat)).1 = Ok tt
  /\ stdout (load_data "data" (StereoCalibration_init, world_without_rot_mat)).2.2
     = ["File data/rot_mat.npy not found."; "Data loading completed successfully."]
  /\ getattr loaded_without_rot_mat "rot_mat" = Some (Plain None)
  /\ (forall (remap : Imgproc) (frames : pyval * pyval),
        @rectify remap loaded_without_rot_mat frames <> Raise NotCalibrated)
  /\ (forall (remap : Imgproc) (frames : pyval * pyval),
        @rectify remap StereoCalibration_init frames <> Raise NotCalibrated).
Proof.
  split; [vm_compute; reflexivity|]. split; [vm_compute; reflexivity|].
  split; [vm_compute; reflexivity|]. split.
  - intros remap frames.
    erewrite (@rectify_run remap) by (vm_compute; reflexivity).
    intros Hn. by apply remap_pair_error in Hn.
  - intros remap frames.
    erewrite (@rectify_run remap) by (vm_compute; reflexivity).
    intros Hn. by apply remap_pair_error in Hn.
Qed.

Lemma rectify_reads_maps_only_witness :
  exists self w',
    load_data "data" (StereoCalibration_init, world_without_rot_mat) = (Ok tt, (self, w'))
    /\ stdout w' = ["File data/rot_mat.npy not found.";
                    "Data loading completed successfully."]
    /\ getattr self "rot_mat" = Some (Plain None)
    /\ (forall key, key <> "rot_mat" -> getattr self key = getattr sample_calibration key)
    /\ @rectify toy_imgproc self (Some (arr1 100), Some (arr1 200))
       = @rectify toy_imgproc sample_calibration (Some (arr1 100), Some (arr1 200)).
Proof.
  apply (proj2 (@rectify_reads_maps_only toy_imgproc (Some (arr1 100), Some (arr1 200)))
           sample_calibration world_without_rot_mat).
  - exact sample_calibration_populated.
  - vm_compute. reflexivity.
  - intros stem a Hin Hne.
    unfold sample_calibration, arrays_of in Hin.
    cbn [flat_map from_option app] in Hin.
    repeat (apply elem_of_cons in Hin as [[= -> ->]|Hin];
            [first [vm_compute; reflexivity | by destruct Hne]|]).
    by apply elem_of_nil in Hin.
Defined.
(** ** The time-of-flight frame *)

Lemma Qclamp_range q : (0 <= Qclamp 0 255 q /\ Qclamp 0 255 q <= 255)%Q.
Proof.
  unfold Qclamp.
  destruct (Qle_bool q 0) eqn:E0; [split; [apply Qle_refl | discriminate]|].
  destruct (Qle_bool 255 q) eqn:E1; [split; [discriminate | apply Qle_refl]|].
  split.
  - apply Qlt_le_weak, Qnot_le_lt. intros H. apply Qle_bool_iff in H. congruence.
  - apply Qlt_le_weak, Qnot_le_lt. intros H. apply Qle_bool_iff in H. congruence.
Qed.

Lemma Qfloor_byte q : (0 <= q)%Q -> (q <= 255)%Q -> (0 <= Qfloor q <= 255)%Z.
Proof.
  intros H0 H1. split.
  - change 0%Z with (Qfloor 0). by apply Qfloor_resp_le.
  - change 255%Z with (Qfloor 255). by apply Qfloor_resp_le.
Qed.

Lemma astype_uint8_clamped q :
  astype_uint8 (Fin (Qclamp 0 255 q)) = Qfloor (Qclamp 0 255 q).
Proof.
  destruct (Qclamp_range q) as [H0 H1]. unfold astype_uint8, Qtrunc.
  apply Qle_bool_iff in H0 as H0'. rewrite H0'.
  apply Z.mod_small. pose proof (Qfloor_byte _ H0 H1). lia.
Qed.

Lemma astype_uint8_byte x : (0 <= astype_uint8 x <= 255)%Z.
Proof.
  destruct x; simpl; try lia.
  pose proof (Z.mod_pos_bound (Qtrunc q) 256). lia.
Qed.

Lemma land_255 z : (0 <= z <= 255)%Z -> Z.land z 255 = z.
Proof.
  intros H. change 255%Z with (Z.ones 8). rewrite Z.land_ones by lia.
  apply Z.mod_small. change (2 ^ 8)%Z with 256%Z. lia.
Qed.

Lemma land_byte x y :
  (0 <= x <= 255)%Z -> (0 <= y <= 255)%Z -> (0 <= Z.land x y <= 255)%Z.
Proof.
  intros Hx Hy. split; [apply Z.land_nonneg; lia|].
  assert (Z.land x y < 2 ^ 8)%Z; [|lia].
  destruct (Z.eq_dec (Z.land x y) 0%Z) as [->|Hne]; [done|].
  apply Z.log2_lt_pow2; [pose proof (Z.land_nonneg x y); lia|].
  pose proof (Z.log2_land x y) as Hl.
  assert (Z.log2 x < 8)%Z.
  { destruct (Z.eq_dec x 0%Z) as [->|]; [done|]. apply Z.log2_lt_pow2; lia. }
  lia.
Qed.

Lemma nan_to_num_reading d : nan_to_num d = Fin (reading d).
Proof. by destruct d. Qed.

Lemma normalize_depth_byte m d : (0 <= normalize_depth m d <= 255)%Z.
Proof. apply astype_uint8_byte. Qed.

(** The code's pixel is the float32 evaluation of the formula. *)
Lemma normalize_depth_normalized32 m r :
  normalize_depth m (Fin r) = normalized32 m r.
Proof.
  unfold normalize_depth, normalized32.
  destruct (times_255 _) as [q| | |]; cbn [clip]; try done;
    try (rewrite astype_uint8_clamped; done).
Qed.

Lemma gate_pixel m d a :
  Z.land (normalize_depth m (nan_to_num d)) (astype_uint8 (threshold_amplitude a))
  = gated_pixel32 m (reading d) a.
Proof.
  unfold gated_pixel32, threshold_amplitude. destruct (fle a 7).
  - apply Z.land_0_r.
  - rewrite nan_to_num_reading, <- normalize_depth_normalized32.
    change (astype_uint8 (Fin 255)) with 255%Z.
    apply land_255, normalize_depth_byte.
Qed.

Lemma zip_with_map_both {A B C D E} (f : C -> D -> E) (g : A -> C) (h : B -> D) l k :
  zip_with f (map g l) (map h k) = zip_with (fun x y => f (g x) (h y)) l k.
Proof.
  revert k. induction l as [|x l IH]; intros [|y k]; simpl; [done..|].
  by rewrite IH.
Qed.

Lemma process_frame_present cam depth amplitude :
  depth_buf cam = Some depth ->
  amplitude_buf cam = Some amplitude ->
  process_frame cam =
  (bitwise_and
     (mk_image (shape_of depth)
        (map (normalize_depth (max_distance cam)) (map nan_to_num (items_of depth))))
     (astype_uint8_array (map_items threshold_amplitude amplitude)),
   mk_TofCamera (max_distance cam) (Some (map_items threshold_amplitude amplitude))
     (Some (map_items nan_to_num depth))
     (Some (mk_image (shape_of depth)
              (map (normalize_depth (max_distance cam))
                   (map nan_to_num (items_of depth)))))
     (result_image cam) (n cam)).
Proof.
  intros Hd Ha. unfold process_frame. rewrite Hd, Ha. reflexivity.
Qed.

Lemma process_frame_same_shape cam depth amplitude :
  depth_buf cam = Some depth ->
  amplitude_buf cam = Some amplitude ->
  shape_of depth = shape_of amplitude ->
  (process_frame cam).1 =
  Ok (mk_image (shape_of depth)
        (zip_with (fun d a => gated_pixel32 (max_distance cam) (reading d) a)
           (items_of depth) (items_of amplitude))).
Proof.
  intros Hd Ha Hsh. rewrite (process_frame_present _ _ _ Hd Ha). cbn [fst].
  unfold bitwise_and, astype_uint8_array, map_items.
  cbn [image_shape pixels shape_of items_of].
  rewrite bool_decide_true by done. f_equal. f_equal.
  rewrite !zip_with_map_both. apply zip_with_ext; [|done..].
  intros d a. apply gate_pixel.
Qed.

(** ** The normalised depth in float32 *)

Lemma fnum_le_PosInf z : z <> NaN -> fnum_le z PosInf.
Proof. by destruct z. Qed.

Lemma fnum_le_NegInf z : z <> NaN -> fnum_le NegInf z.
Proof. by destruct z. Qed.

Lemma round32_not_NaN x : round32 x <> NaN.
Proof. apply round_float_not_NaN. Qed.

Lemma Qeq_bool_false (m : Q) : ~ (m == 0)%Q -> Qeq_bool m 0 = false.
Proof.
  intros Hm. destruct (Qeq_bool m 0) eqn:E; [|done]. by apply Qeq_bool_iff in E.
Qed.

Lemma fdiv_finite q m : ~ (m == 0)%Q -> fdiv (Fin q) m = round32 (q / m).
Proof. intros Hm. unfold fdiv. by rewrite Qeq_bool_false. Qed.

Lemma one_minus_antitone x y : fnum_le x y -> fnum_le (one_minus y) (one_minus x).
Proof.
  destruct x as [p| | |], y as [q| | |]; simpl; try done.
  - intros Hpq. apply round32_mono. lra.
  - intros _. apply fnum_le_NegInf, round32_not_NaN.
  - intros _. apply fnum_le_PosInf, round32_not_NaN.
Qed.

Lemma times_255_mono x y : fnum_le x y -> fnum_le (times_255 x) (times_255 y).
Proof.
  destruct x as [p| | |], y as [q| | |]; simpl; try done.
  - intros Hpq. apply round32_mono. lra.
  - intros _. apply fnum_le_PosInf, round32_not_NaN.
  - intros _. apply fnum_le_NegInf, round32_not_NaN.
Qed.

Lemma Qclamp_monotone lo hi p q :
  (lo <= hi)%Q -> (p <= q)%Q -> (Qclamp lo hi p <= Qclamp lo hi q)%Q.
Proof.
  intros Hlh Hpq. unfold Qclamp.
  destruct (Qle_bool p lo) eqn:E1; destruct (Qle_bool q lo) eqn:E2;
    destruct (Qle_bool hi p) eqn:E3; destruct (Qle_bool hi q) eqn:E4;
    repeat match goal with
           | H : Qle_bool _ _ = true |- _ => apply Qle_bool_iff in H
           | H : Qle_bool ?a ?b = false |- _ =>
               assert (b < a)%Q by (apply Qnot_le_lt; intros Hn;
                                    apply Qle_bool_iff in Hn; congruence);
               clear H
           end;
    lra.
Qed.

Lemma Qclamp_le_hi lo hi q : (lo <= hi)%Q -> (Qclamp lo hi q <= hi)%Q.
Proof.
  intros Hlh. unfold Qclamp.
  destruct (Qle_bool q lo) eqn:E1; [done|].
  destruct (Qle_bool hi q) eqn:E2; [apply Qle_refl|].
  apply Qlt_le_weak, Qnot_le_lt. intros Hn. apply Qle_bool_iff in Hn. congruence.
Qed.

Lemma Qclamp_ge_lo lo hi q : (lo <= hi)%Q -> (lo <= Qclamp lo hi q)%Q.
Proof.
  intros Hlh. unfold Qclamp.
  destruct (Qle_bool q lo) eqn:E1; [apply Qle_refl|].
  destruct (Qle_bool hi q) eqn:E2; [done|].
  apply Qlt_le_weak, Qnot_le_lt. intros Hn. apply Qle_bool_iff in Hn. congruence.
Qed.

Lemma clip_mono lo hi x y :
  (lo <= hi)%Q -> fnum_le x y -> fnum_le (clip lo hi x) (clip lo hi y).
Proof.
  intros Hlh. destruct x as [p| | |], y as [q| | |]; simpl; try done; intros Hxy;
    first [ by apply Qclamp_monotone | by apply Qclamp_le_hi
          | by apply Qclamp_ge_lo | apply Qle_refl ].
Qed.

Lemma astype_clip_mono x y :
  fnum_le x y ->
  (astype_uint8 (clip 0 255 x) <= astype_uint8 (clip 0 255 y))%Z.
Proof.
  intros Hxy.
  assert (Hc := clip_mono 0 255 x y ltac:(done) Hxy).
  destruct x as [p| | |], y as [q| | |]; simpl in Hxy; try done;
    cbn [clip] in *; simpl in Hc;
    repeat match goal with
           | |- context [astype_uint8 (Fin (Qclamp 0 255 ?q))] =>
               rewrite (astype_uint8_clamped q)
           end;
    try change (astype_uint8 (Fin 255)) with (Qfloor 255);
    try change (astype_uint8 (Fin 0)) with (Qfloor 0);
    first [ by apply Qfloor_resp_le | done ].
Qed.

Lemma fdiv_mono m p q :
  (0 < m)%Q -> (p <= q)%Q -> fnum_le (fdiv (Fin p) m) (fdiv (Fin q) m).
Proof.
  intros Hm Hpq. rewrite !fdiv_finite by lra.
  apply round32_mono. unfold Qdiv. apply Qmult_le_compat_r; [done|].
  apply Qlt_le_weak, Qinv_lt_0_compat, Hm.
Qed.

Lemma normalize_depth_antitone m r1 r2 :
  (0 < m)%Q -> (r1 <= r2)%Q ->
  (normalize_depth m (Fin r2) <= normalize_depth m (Fin r1))%Z.
Proof.
  intros Hm Hr. unfold normalize_depth.
  apply astype_clip_mono, times_255_mono, one_minus_antitone.
  by apply fdiv_mono.
Qed.

(** Saturation: at and beyond the maximal distance the pixel is 0, at
    and below zero it is 255. *)
Lemma normalize_depth_far m r :
  ~ (m == 0)%Q -> (1 <= r / m)%Q -> normalize_depth m (Fin r) = 0%Z.
Proof.
  intros Hm Hx. unfold normalize_depth. rewrite fdiv_finite by done.
  pose proof (round32_mono _ _ Hx) as H1. rewrite round32_1 in H1.
  apply one_minus_antitone in H1. change (one_minus (Fin 1)) with (round32 (1 - 1)) in H1.
  assert (E : round32 (1 - 1) = Fin 0) by reflexivity. rewrite E in H1.
  apply times_255_mono in H1. change (times_255 (Fin 0)) with (round32 (0 * 255)) in H1.
  assert (E' : round32 (0 * 255) = Fin 0) by reflexivity. rewrite E' in H1.
  apply astype_clip_mono in H1.
  change (astype_uint8 (clip 0 255 (Fin 0))) with 0%Z in H1.
  pose proof (astype_uint8_byte
                (clip 0 255 (times_255 (one_minus (round32 (r / m)))))).
  lia.
Qed.

Lemma normalize_depth_front m r :
  ~ (m == 0)%Q -> (r / m <= 0)%Q -> normalize_depth m (Fin r) = 255%Z.
Proof.
  intros Hm Hx. unfold normalize_depth. rewrite fdiv_finite by done.
  pose proof (round32_mono _ _ Hx) as H1. rewrite round32_0 in H1.
  apply one_minus_antitone in H1. change (one_minus (Fin 0)) with (round32 (1 - 0)) in H1.
  assert (E : round32 (1 - 0) = Fin 1) by (vm_compute; reflexivity). rewrite E in H1.
  apply times_255_mono in H1. change (times_255 (Fin 1)) with (round32 (1 * 255)) in H1.
  assert (E' : round32 (1 * 255) = Fin 255) by (vm_compute; reflexivity). rewrite E' in H1.
  apply astype_clip_mono in H1.
  change (astype_uint8 (clip 0 255 (Fin 255))) with 255%Z in H1.
  pose proof (astype_uint8_byte
                (clip 0 255 (times_255 (one_minus (round32 (r / m)))))).
  lia.
Qed.






(** ** The frame that [process_frame] returns *)





Lemma nan_to_num_idempotent d : nan_to_num (nan_to_num d) = nan_to_num d.
Proof. by destruct d. Qed.

Lemma threshold_amplitude_idempotent a :
  threshold_amplitude (threshold_amplitude a) = threshold_amplitude a.
Proof. unfold threshold_amplitude. by destruct (fle a 7). Qed.

Lemma map_idempotent {A} (f : A -> A) (l : list A) :
  (forall x, f (f x) = f x) -> map f (map f l) = map f l.
Proof. intros Hf. induction l as [|x l IH]; simpl; [done|]. by rewrite Hf, IH. Qed.

Lemma Forall_zip_with_land (a b : list Z) :
  Forall (fun x => (0 <= x <= 255)%Z) a ->
  Forall (fun x => (0 <= x <= 255)%Z) b ->
  Forall (fun x => (0 <= x <= 255)%Z) (zip_with Z.land a b).
Proof.
  intros Ha. revert b. induction Ha as [|x a Hx Ha IH]; intros [|y b] Hb; simpl;
    try constructor.
  - apply land_byte; [done|]. by inversion Hb.
  - apply IH. by inversion Hb.
Qed.

Lemma broadcast_items_subseteq {A} (target src : list nat) (xs : list A) :
  broadcast_items target src xs ⊆ xs.
Proof.
  revert src xs. induction target as [|t target IH]; intros src xs; [done|].
  destruct src as [|s src]; [done|]. cbn [broadcast_items].
  intros x Hx. apply list_elem_of_In, in_flat_map in Hx as (i & _ & Hx).
  apply list_elem_of_In, IH in Hx.
  by apply subseteq_take, subseteq_drop in Hx.
Qed.

Lemma broadcast_to_byte (target : list nat) (a : image) :
  Forall (fun x => (0 <= x <= 255)%Z) (pixels a) ->
  Forall (fun x => (0 <= x <= 255)%Z) (broadcast_to target a).
Proof.
  intros Ha. apply Forall_forall. intros x Hx.
  apply broadcast_items_subseteq in Hx. by eapply Forall_forall in Ha.
Qed.

Lemma bitwise_and_byte a b out :
  Forall (fun x => (0 <= x <= 255)%Z) (pixels a) ->
  Forall (fun x => (0 <= x <= 255)%Z) (pixels b) ->
  bitwise_and a b = Ok out ->
  Forall (fun x => (0 <= x <= 255)%Z) (pixels out).
Proof.
  intros Ha Hb. unfold bitwise_and. case_bool_decide as Hsh.
  - intros [= <-]. by apply Forall_zip_with_land.
  - destruct (broadcast_shapes _ _) as [sh|]; [|done]. intros [= <-].
    apply Forall_zip_with_land; by apply broadcast_to_byte.
Qed.

(** C7, counterexample: the frame obtained at one metre is [191]; taken
    as a depth buffer it is mapped to [0]. *)
Lemma process_frame_not_idempotent_counterexample :
  (process_frame cam_1m).1 = Ok (mk_image [1] [191%Z])
  /\ (process_frame (fed_back (process_frame cam_1m).2 (mk_image [1] [191%Z]))).1
     = Ok (mk_image [1] [0%Z])
  /\ (process_frame (fed_back (process_frame cam_1m).2 (mk_image [1] [191%Z]))).1
     <> (process_frame cam_1m).1.
Proof. vm_compute. repeat split; discriminate. Qed.

(** C7, amended: a second call of [process_frame] on the camera, whose
    buffers the first call has cleaned and binarised in place, returns
    the same frame and leaves the camera as it is; and every value of a
    returned frame lies in [0, 255]. *)
Theorem process_frame_repeatable (cam cam' : TofCamera) (out : image) :
  process_frame cam = (Ok out, cam') ->
  process_frame cam' = (Ok out, cam')
  /\ Forall (fun x => (0 <= x <= 255)%Z) (pixels out).
Proof.
  intros H. destruct (depth_buf cam) as [depth|] eqn:Hd;
    [|unfold process_frame in H; by rewrite Hd in H].
  destruct (amplitude_buf cam) as [amplitude|] eqn:Ha;
    [|unfold process_frame in H; by rewrite Hd, Ha in H].
  rewrite (process_frame_present _ _ _ Hd Ha) in H.
  injection H as Hout Hcam. split.
  - subst cam'. erewrite process_frame_present by reflexivity.
    cbn [max_distance result_image n].
    unfold map_items, astype_uint8_array in *. cbn [shape_of items_of] in *.
    rewrite (map_idempotent nan_to_num) by apply nan_to_num_idempotent.
    rewrite (map_idempotent threshold_amplitude)
      by apply threshold_amplitude_idempotent.
    by rewrite Hout.
  - eapply bitwise_and_byte; [| |exact Hout].
    + apply Forall_fmap, Forall_true. intros d. apply normalize_depth_byte.
    + apply Forall_fmap, Forall_true. intros a. apply astype_uint8_byte.
Qed.

Lemma process_frame_repeatable_witness :
  process_frame (process_frame cam_1m).2
  = (Ok (mk_image [1] [191%Z]), (process_frame cam_1m).2)
  /\ Forall (fun x => (0 <= x <= 255)%Z) (pixels (mk_image [1] [191%Z])).
Proof.
  apply (process_frame_repeatable cam_1m (process_frame cam_1m).2 (mk_image [1] [191%Z])).
  vm_compute. reflexivity.
Defined.

Lemma broadcast_reversed_refl (r : list nat) : broadcast_reversed r r = Some r.
Proof.
  induction r as [|x r IH]; [done|]. cbn [broadcast_reversed]. rewrite IH.
  by rewrite bool_decide_true.
Qed.

Lemma broadcast_shapes_refl (sh : list nat) : broadcast_shapes sh sh = Some sh.
Proof.
  unfold broadcast_shapes. rewrite broadcast_reversed_refl. cbn.
  by rewrite reverse_involutive.
Qed.

Lemma bitwise_and_outcome (a b : image) :
  match broadcast_shapes (image_shape a) (image_shape b) with
  | Some sh => exists out, bitwise_and a b = Ok out /\ image_shape out = sh
  | None => bitwise_and a b = Raise (ValueError broadcast_message)
  end.
Proof.
  unfold bitwise_and. case_bool_decide as Hsh.
  - rewrite <- Hsh, broadcast_shapes_refl. eauto.
  - destruct (broadcast_shapes _ _) as [sh|]; eauto.
Qed.



(** ** Depth from disparity *)

Lemma depth_calcul_run self disp :
  disparity self = Some disp ->
  depth_calcul self =
  (Ok tt, mk_StereoVision (focal_length self) (baseline self) (Some disp)
            (Some (map (depth_pixel (focal_length self) (baseline self)) disp))).
Proof. intros H. unfold depth_calcul. by rewrite H. Qed.

Lemma depth_pixel_positive f b d :
  (0 < d)%Q -> depth_pixel f b d = fdiv (to_float32 (round64 (f * b))) d.
Proof.
  intros Hd. unfold depth_pixel.
  destruct (Qle_bool d 0) eqn:E; [|done].
  apply Qle_bool_iff in E. exfalso. by apply (Qlt_not_le _ _ Hd).
Qed.

Lemma depth_pixel_sentinel f b d :
  (d <= 0)%Q -> depth_pixel f b d = Fin 0.
Proof.
  intros Hd. unfold depth_pixel. apply Qle_bool_iff in Hd. by rewrite Hd.
Qed.

Lemma round32_relative_error (x q : Q) :
  round32 x = Fin q ->
  (pow2 (-126) <= Qabs x)%Q ->
  (Qabs (q - x) <= Qabs x * (1 # 16777216))%Q.
Proof.
  intros Hq Hx. exact (round_float_relative_error binary32 x q Hq Hx).
Qed.

Lemma round64_relative_error (x q : Q) :
  round64 x = Fin q ->
  (pow2 (-1022) <= Qabs x)%Q ->
  (Qabs (q - x) <= Qabs x * (1 # 9007199254740992))%Q.
Proof.
  intros Hq Hx. exact (round_float_relative_error binary64 x q Hq Hx).
Qed.

Lemma round_bounded_abs (fmt : float_format) (hi x : Q) :
  (1 <= prec fmt)%Z ->
  round_float fmt hi = Fin hi ->
  round_float fmt (- hi) = Fin (- hi) ->
  (Qabs x <= hi)%Q ->
  exists q, round_float fmt x = Fin q /\ (Qabs q <= hi)%Q.
Proof.
  intros Hp Hhi Hlo Hx. apply Qabs_Qle_condition in Hx as [Hx1 Hx2].
  destruct (round_float_bounded fmt (- hi) hi x Hp Hlo Hhi Hx1 Hx2) as (q & Hq & H1 & H2).
  exists q. split; [done|]. by apply Qabs_Qle_condition.
Qed.

(** The depth of a pixel of positive disparity, when the product of the
    focal length and the baseline and its quotient by the disparity are
    in the normal range: three roundings lie between the exact quotient
    and the depth. *)
Lemma depth_pixel_tolerance (f b d : Q) :
  (0 < d)%Q ->
  in_normal_range (f * b) ->
  in_normal_range (f * b / d) ->
  exists q,
    depth_pixel f b d = Fin q
    /\ ~ (q == 0)%Q
    /\ (Qabs (q * d - f * b) <= Qabs (f * b) * (1 # 4194304))%Q.
Proof.
  intros Hd [Hp1 Hp2] [Hy1 Hy2]. rewrite depth_pixel_positive by done.
  set (p := (f * b)%Q) in *.
  assert (E125 : pow2 (-125) = (1 # 42535295865117307932921825928971026432)%Q)
    by (vm_compute; reflexivity).
  assert (E126 : pow2 (-126) = (1 # 85070591730234615865843651857942052864)%Q)
    by (vm_compute; reflexivity).
  assert (E127 : pow2 127 = 170141183460469231731687303715884105728%Q)
    by (vm_compute; reflexivity).
  rewrite E125 in Hp1, Hy1. rewrite E127 in Hp2, Hy2.
  (* the product, a Python float *)
  destruct (round_bounded_abs binary64 170141183460469231731687303715884105728 p
              prec64_pos) as (p64 & E64 & H64); [by vm_compute..|done|].
  assert (He64 : (Qabs (p64 - p) <= Qabs p * (1 # 9007199254740992))%Q).
  { apply round64_relative_error; [done|].
    eapply Qle_trans; [apply (pow2_le (-1022) (-125)); lia|].
    by rewrite E125. }
  unfold round64. rewrite E64. cbn [to_float32].
  pose proof (Qabs_triangle (p64 - p) p) as T1.
  assert (Ep : (p64 - p + p == p64)%Q) by ring. rewrite Ep in T1.
  pose proof (Qabs_triangle (p - p64) p64) as T2.
  assert (Ep' : (p - p64 + p64 == p)%Q) by ring. rewrite Ep' in T2.
  rewrite (Qabs_Qminus p p64) in T2.
  (* its conversion to float32 *)
  destruct (round_bounded_abs binary32 170141183460469231731687303715884105728 p64
              prec32_pos) as (p32 & E32 & H32); [by vm_compute..|done|].
  assert (He32 : (Qabs (p32 - p64) <= Qabs p64 * (1 # 16777216))%Q).
  { apply round32_relative_error; [done|]. rewrite E126. lra. }
  unfold round32 in *. rewrite E32.
  pose proof (Qabs_triangle (p32 - p64) p64) as T3.
  assert (Ep2 : (p32 - p64 + p64 == p32)%Q) by ring. rewrite Ep2 in T3.
  pose proof (Qabs_triangle (p64 - p32) p32) as T4.
  assert (Ep3 : (p64 - p32 + p32 == p64)%Q) by ring. rewrite Ep3 in T4.
  rewrite (Qabs_Qminus p64 p32) in T4.
  (* the quotient *)
  assert (Hd0 : ~ (d == 0)%Q) by lra.
  rewrite fdiv_finite by done. unfold round32.
  set (y := (p32 / d)%Q).
  assert (Hyd : (y * d == p32)%Q) by (unfold y; field; done).
  assert (Hy : (Qabs y * d == Qabs p32)%Q).
  { rewrite <- Hyd, Qabs_Qmult, (Qabs_pos d); [reflexivity|lra]. }
  assert (Hpd : (Qabs (p / d) * d == Qabs p)%Q).
  { assert (Hq : (p / d * d == p)%Q) by (field; done).
    rewrite <- Hq at 2. rewrite Qabs_Qmult, (Qabs_pos d); [reflexivity|lra]. }
  assert (Hdiff : (Qabs y - Qabs (p / d) <= Qabs (p / d) * (1 # 4194304))%Q
                  /\ (Qabs (p / d) - Qabs y <= Qabs (p / d) * (1 # 4194304))%Q).
  { assert (H1 : ((Qabs y - Qabs (p / d)) * d
                  <= Qabs (p / d) * (1 # 4194304) * d)%Q).
    { setoid_replace ((Qabs y - Qabs (p / d)) * d)%Q
        with (Qabs y * d - Qabs (p / d) * d)%Q using relation Qeq by ring.
      setoid_replace (Qabs (p / d) * (1 # 4194304) * d)%Q
        with (Qabs (p / d) * d * (1 # 4194304))%Q using relation Qeq by ring.
      rewrite Hy, Hpd. lra. }
    assert (H2 : ((Qabs (p / d) - Qabs y) * d
                  <= Qabs (p / d) * (1 # 4194304) * d)%Q).
    { setoid_replace ((Qabs (p / d) - Qabs y) * d)%Q
        with (Qabs (p / d) * d - Qabs y * d)%Q using relation Qeq by ring.
      setoid_replace (Qabs (p / d) * (1 # 4194304) * d)%Q
        with (Qabs (p / d) * d * (1 # 4194304))%Q using relation Qeq by ring.
      rewrite Hy, Hpd. lra. }
    split; eapply Qmult_le_r; eauto. }
  destruct Hdiff as [Hdiff1 Hdiff2].
  destruct (round_bounded_abs binary32 float_max y prec32_pos)
    as (q & Eq & Hq); [by vm_compute..| |].
  { unfold float_max. lra. }
  assert (Heq : (Qabs (q - y) <= Qabs y * (1 # 16777216))%Q).
  { apply round32_relative_error; [done|]. rewrite E126. lra. }
  exists q. split; [exact Eq|]. split.
  - intros Hz. rewrite Hz in Heq.
    assert (E0 : (Qabs (0 - y) == Qabs y)%Q).
    { setoid_replace (0 - y)%Q with (- y)%Q using relation Qeq by ring. apply Qabs_opp. }
    rewrite E0 in Heq. lra.
  - assert (Heq' : (Qabs (q * d - p32) <= Qabs p32 * (1 # 16777216))%Q).
    { setoid_replace (q * d - p32)%Q with ((q - y) * d)%Q using relation Qeq
        by (rewrite <- Hyd; ring).
      rewrite Qabs_Qmult, (Qabs_pos d) by lra. rewrite <- Hy.
      setoid_replace (Qabs y * d * (1 # 16777216))%Q
        with (Qabs y * (1 # 16777216) * d)%Q using relation Qeq by ring.
      apply Qmult_le_compat_r; [done|lra]. }
    pose proof (Qabs_triangle (q * d - p32) (p32 - p)) as T5.
    assert (Ep4 : (q * d - p32 + (p32 - p) == q * d - p)%Q) by ring.
    rewrite Ep4 in T5.
    pose proof (Qabs_triangle (p32 - p64) (p64 - p)) as T6.
    assert (Ep5 : (p32 - p64 + (p64 - p) == p32 - p)%Q) by ring.
    rewrite Ep5 in T6.
    lra.
Qed.

(** C3, counterexample: with a zero focal length the depth is zero at a
    pixel of positive disparity; and so it is, by underflow, for a
    product of [2 ^ -60] at a disparity of [2 ^ 100], where the product
    is not zero. *)
Lemma depth_zero_focal_counterexample :
  depth (depth_calcul (stereo_of 0 (6 # 100) [1%Q])).2 = Some [Fin 0]
  /\ depth (depth_calcul (stereo_of 1 (pow2 (-60)) [pow2 100])).2 = Some [Fin 0]
  /\ (0 < 1)%Q /\ (0 < pow2 100)%Q /\ ~ (1 * pow2 (-60) == 0)%Q.
Proof. vm_compute. repeat split; discriminate. Qed.

(** C3, amended: every pixel of disparity zero or less keeps the zero
    sentinel.  At a pixel of positive disparity the depth is the float32
    quotient of the product of focal length and baseline by the
    disparity; when the product and the exact quotient are in the normal
    range of float32, between [2 ^ -125] and [2 ^ 127] in absolute value,
    the depth is finite and not zero, and depth times disparity is the
    product up to the relative error [2 ^ -22] of the roundings. *)
Theorem depth_calcul_pixels (self : StereoVision) (disp : list Q) :
  disparity self = Some disp ->
  exists dep,
    depth (depth_calcul self).2 = Some dep
    /\ (depth_calcul self).1 = Ok tt
    /\ length dep = length disp
    /\ forall i d z, disp !! i = Some d -> dep !! i = Some z ->
         ((d <= 0)%Q -> z = Fin 0)
         /\ ((0 < d)%Q ->
             z = fdiv (to_float32 (round64 (focal_length self * baseline self))) d)
         /\ ((0 < d)%Q ->
             in_normal_range (focal_length self * baseline self) ->
             in_normal_range (focal_length self * baseline self / d) ->
             exists q,
               z = Fin q
               /\ ~ (q == 0)%Q
               /\ (Qabs (q * d - focal_length self * baseline self)
                   <= Qabs (focal_length self * baseline self) * (1 # 4194304))%Q).
Proof.
  intros Hdisp. rewrite (depth_calcul_run _ _ Hdisp). cbn [fst snd depth].
  eexists. split; [reflexivity|]. split; [reflexivity|].
  split; [apply length_map|].
  intros i d z Hd Hz. rewrite list_lookup_fmap, Hd in Hz.
  injection Hz as <-. split; [|split].
  - apply depth_pixel_sentinel.
  - apply depth_pixel_positive.
  - apply depth_pixel_tolerance.
Qed.

Lemma depth_calcul_pixels_witness :
  exists dep,
    depth (depth_calcul (stereo_of 1300 (6 # 100) [2%Q; 0%Q])).2 = Some dep
    /\ (depth_calcul (stereo_of 1300 (6 # 100) [2%Q; 0%Q])).1 = Ok tt
    /\ length dep = 2
    /\ forall i d z, [2%Q; 0%Q] !! i = Some d -> dep !! i = Some z ->
         ((d <= 0)%Q -> z = Fin 0)
         /\ ((0 < d)%Q -> z = fdiv (to_float32 (round64 (1300 * (6 # 100)))) d)
         /\ ((0 < d)%Q ->
             in_normal_range (1300 * (6 # 100)) ->
             in_normal_range (1300 * (6 # 100) / d) ->
             exists q,
               z = Fin q
               /\ ~ (q == 0)%Q
               /\ (Qabs (q * d - 1300 * (6 # 100))
                   <= Qabs (1300 * (6 # 100)) * (1 # 4194304))%Q).
Proof.
  apply (depth_calcul_pixels (stereo_of 1300 (6 # 100) [2%Q; 0%Q]) [2%Q; 0%Q]).
  reflexivity.
Defined.
(** ** Segmentation by threshold bands *)

Lemma keeps_segment_bind {A B} (m : M _ A) (k : A -> M _ B) :
  keeps_segment m -> (forall a, keeps_segment (k a)) -> keeps_segment (m ≫= k).
Proof.
  intros Hm Hk sw. unfold mbind, M_bind. specialize (Hm sw).
  destruct (m sw) as [[a|e] sw'] eqn:E; cbn [fst snd] in *; [|done].
  by rewrite Hk.
Qed.

Lemma keeps_segment_get {B} (k : DepthMapProcessor -> M _ B) :
  (forall s w, segmented_image (k s (s, w)).2.1 = segmented_image s) ->
  keeps_segment (get_self ≫= k).
Proof. intros Hk [s w]. apply Hk. Qed.

Lemma keeps_segment_for_each {A} (xs : list A) (body : A -> M _ unit) :
  (forall x, keeps_segment (body x)) -> keeps_segment (for_each xs body).
Proof.
  intros Hb. induction xs as [|x xs IH]; [done|].
  by apply keeps_segment_bind.
Qed.

Lemma keeps_segment_emit r : keeps_segment (emit r).
Proof. done. Qed.

Lemma keeps_segment_ret {A} (a : A) : keeps_segment (mret a).
Proof. done. Qed.

Lemma keeps_segment_find `{Cv2} img : keeps_segment (find_and_draw_contours img).
Proof. unfold find_and_draw_contours. by apply keeps_segment_get. Qed.

Lemma keeps_segment_means `{Cv2} cs : keeps_segment (calculate_mean_amplitude cs).
Proof.
  unfold calculate_mean_amplitude. apply keeps_segment_get. intros s w.
  change (segmented_image s) with (segmented_image (set_mean_amplitudes ∅ s)).
  rewrite (bind_ok _ _ _ tt (set_mean_amplitudes ∅ s, w)) by done.
  generalize (set_mean_amplitudes ∅ s). intros s'.
  apply (keeps_segment_bind _ _) with (sw := (s', w)).
  - apply keeps_segment_for_each. intros [i c].
    apply keeps_segment_get. intros s0 w0. by destruct (Qle_bool _ _).
  - intros _. by apply keeps_segment_get.
Qed.

Lemma keeps_segment_contour `{Cv2} : keeps_segment process_contour.
Proof.
  unfold process_contour. apply keeps_segment_get. intros s w.
  destruct (segmented_image s) as [seg|] eqn:Hseg; [|done].
  rewrite <- Hseg.
  apply (keeps_segment_bind _ _) with (sw := (s, w));
    [apply keeps_segment_find|]. intros _.
  apply keeps_segment_get. intros s1 w1.
  apply (keeps_segment_bind _ _) with (sw := (s1, w1));
    [apply keeps_segment_means|]. intros means.
  apply keeps_segment_get. intros s2 w2.
  change (segmented_image s2) with (segmented_image (set_mean_amplitudes means s2)).
  rewrite (bind_ok _ _ _ tt (set_mean_amplitudes means s2, w2)) by done.
  generalize (set_mean_amplitudes means s2). intros s3.
  apply (keeps_segment_bind _ _) with (sw := (s3, w2)).
  - apply keeps_segment_for_each. intros idx. by destruct (means !! idx).
  - intros _. apply keeps_segment_bind; [apply keeps_segment_find|].
    intros labels. apply keeps_segment_emit.
Qed.

Lemma segment_lookup img lower upper j v :
  img !! j = Some v ->
  segment img lower upper !! j =
  Some (if bool_decide (lower <= v <= upper)%Z then v else 0%Z).
Proof.
  intros Hj. unfold segment, cv2_bitwise_and, cv2_inRange.
  rewrite lookup_zip_with.
  rewrite (proj2 (lookup_zip_Some img img j v v) (conj Hj Hj)).
  rewrite list_lookup_fmap, Hj. simpl.
  case_bool_decide as Hb.
  - rewrite (proj2 (Z.leb_le lower v)) by lia.
    rewrite (proj2 (Z.leb_le v upper)) by lia.
    simpl. by rewrite Z.land_diag.
  - destruct (lower <=? v)%Z eqn:E1; destruct (v <=? upper)%Z eqn:E2; simpl; try done.
    apply Z.leb_le in E1, E2. lia.
Qed.

Lemma segment_length img lower upper : length (segment img lower upper) = length img.
Proof.
  unfold segment, cv2_bitwise_and, cv2_inRange.
  rewrite length_zip_with, length_zip, length_map. lia.
Qed.

Lemma process_band_segment `{Cv2} self out i lower upper :
  thresholds self !! i = Some lower ->
  thresholds self !! (i + 1) = Some upper ->
  segmented_image (process_band i (self, out)).2.1
  = Some (segment (depth_map_normalized self) lower upper).
Proof.
  intros Hl Hu. unfold process_band.
  rewrite (bind_ok _ _ _ self (self, out)) by done. rewrite Hl, Hu.
  set (s1 := set_segmented_image (segment (depth_map_normalized self) lower upper) self).
  rewrite (bind_ok _ _ _ tt (s1, out)) by done.
  rewrite (bind_ok _ _ _ s1 (s1, out)) by done.
  destruct (pixel_min s1 <=? _)%Z; [|done].
  apply (keeps_segment_bind _ _) with (sw := (s1, out));
    [apply keeps_segment_emit|]. intros _. apply keeps_segment_contour.
Qed.

(** C2, counterexample: with the boundaries 50, 100, 200, 255 a pixel of
    value 100, the upper boundary of the first band, is kept in the
    segment of that band, and in the segment of the next band as well. *)
Lemma segment_upper_bound_counterexample :
  segmented_image (@process_band toy_cv2 0 (sample_processor [100; 99]%Z, [])).2.1
    = Some [100; 99]%Z
  /\ segmented_image (@process_band toy_cv2 1 (sample_processor [100; 99]%Z, [])).2.1
    = Some [100; 0]%Z
  /\ ~ (50 <= 100 < 100)%Z.
Proof. split; [|split]; [vm_compute; reflexivity..|lia]. Qed.

(** C2, amended: the segment of the adjacent boundaries [(lower, upper)]
    holds, at every pixel, the byte-normalised value [v] when
    [lower <= v <= upper] and zero otherwise; the band is closed at both
    ends. *)
Theorem process_band_closed_band `{Cv2} (self : DepthMapProcessor)
    (out : list report) (i : nat) (lower upper : Z) :
  thresholds self !! i = Some lower ->
  thresholds self !! (i + 1) = Some upper ->
  exists seg,
    segmented_image (process_band i (self, out)).2.1 = Some seg
    /\ length seg = length (depth_map_normalized self)
    /\ forall j v, depth_map_normalized self !! j = Some v ->
         seg !! j = Some (if bool_decide (lower <= v <= upper)%Z then v else 0%Z).
Proof.
  intros Hl Hu. eexists. split; [by apply process_band_segment|].
  split; [apply segment_length|]. intros j v. apply segment_lookup.
Qed.

Lemma process_band_closed_band_witness :
  exists seg,
    segmented_image (@process_band toy_cv2 0 (sample_processor [100; 99]%Z, [])).2.1
      = Some seg
    /\ length seg = 2
    /\ forall j v, [100; 99]%Z !! j = Some v ->
         seg !! j = Some (if bool_decide (50 <= v <= 100)%Z then v else 0%Z).
Proof.
  apply (@process_band_closed_band toy_cv2 (sample_processor [100; 99]%Z) [] 0 50 100);
    reflexivity.
Defined.

(** ** Mean amplitude of a contour *)

Section MeanAmplitude.
Context `{Cv2}.

Lemma selected_inside (c : contour) (field : list Q) (start : nat) :
  let selected :=
    zip_with (fun v m => if (m =? 0)%Z then None else Some v) field
      (map (fun j => if cv2_filled c j then 255%Z else 0%Z)
           (seq start (length field))) in
  let inside :=
    omap (fun '(j, v) => if cv2_filled c j then Some v else None)
         (zip (seq start (length field)) field) in
  foldr (fun o acc => match o with Some v => (v + acc)%Q | None => acc end) 0%Q selected
    = Qsum inside
  /\ length (filter is_Some selected) = length inside.
Proof.
  revert start. induction field as [|v field IH]; intros start; [done|].
  specialize (IH (S start)). cbn zeta in IH. destruct IH as [IH1 IH2].
  cbn [length seq map zip_with omap list_omap]. cbn zeta.
  destruct (cv2_filled c start); cbn [Z.eqb].
  - rewrite filter_cons_True by eauto. cbn [foldr length Qsum].
    unfold Qsum in IH1. rewrite IH1. split; [done|]. by rewrite IH2.
  - rewrite filter_cons_False by (by intros [? ?]). cbn [foldr].
    split; [exact IH1|]. exact IH2.
Qed.

Lemma cv2_mean_filled (c : contour) (field : list Q) :
  (cv2_mean field (contour_mask (length field) c)
   == arithmetic_mean (inside_values field c))%Q.
Proof.
  unfold cv2_mean, contour_mask, arithmetic_mean, inside_values.
  destruct (selected_inside c field 0) as [E1 E2]. cbn zeta in E1, E2.
  rewrite E1, E2. case_bool_decide as Hn; [|reflexivity].
  rewrite Hn. simpl. unfold Qdiv. change (/ inject_Z 0)%Q with 0%Q.
  by rewrite Qmult_0_r.
Qed.

Lemma set_mean_amplitudes_id self : set_mean_amplitudes (mean_amplitudes self) self = self.
Proof. by destruct self. Qed.

Lemma mean_loop_run (entries : list (nat * contour)) self (out : list report) :
  for_each entries (fun '(i, c) =>
    self ← get_self;
    if Qle_bool (min_contour_area self) (cv2_contourArea c) then
      let mask := contour_mask (length (depth_map_original self)) c in
      let mean_amplitude := cv2_mean (depth_map_original self) mask in
      put_self (set_mean_amplitudes (<[i := mean_amplitude]> (mean_amplitudes self)) self)
    else mret tt) (self, out)
  = (Ok tt, (set_mean_amplitudes
               (foldl (add_mean self) (mean_amplitudes self) entries) self, out)).
Proof.
  revert self. induction entries as [|[i c] entries IH]; intros self.
  - simpl. by rewrite set_mean_amplitudes_id.
  - cbn [for_each foldl]. unfold add_mean at 2. cbn [fst snd].
    destruct (Qle_bool (min_contour_area self) (cv2_contourArea c)) eqn:Hgate.
    + erewrite bind_ok; [|unfold mbind, M_bind, get_self; cbn [fst snd];
                          rewrite Hgate; reflexivity].
      rewrite IH. by destruct self.
    + erewrite bind_ok; [|unfold mbind, M_bind, get_self; cbn [fst snd];
                          rewrite Hgate; reflexivity].
      rewrite IH. reflexivity.
Qed.

Lemma add_mean_other self entries (m : gmap nat Q) (i : nat) :
  i ∉ entries.*1 -> foldl (add_mean self) m entries !! i = m !! i.
Proof.
  revert m. induction entries as [|[j c] entries IH]; intros m Hi; [done|].
  rewrite fmap_cons, not_elem_of_cons in Hi. destruct Hi as [Hne Hi].
  cbn [foldl]. rewrite IH by done. unfold add_mean. cbn [fst snd] in *.
  destruct (Qle_bool _ _); [|done]. by rewrite lookup_insert_ne.
Qed.

Lemma add_mean_lookup self entries (m : gmap nat Q) (i : nat) (c : contour) :
  NoDup entries.*1 ->
  (i, c) ∈ entries ->
  Qle_bool (min_contour_area self) (cv2_contourArea c) = true ->
  foldl (add_mean self) m entries !! i
  = Some (cv2_mean (depth_map_original self)
            (contour_mask (length (depth_map_original self)) c)).
Proof.
  revert m. induction entries as [|[j d] entries IH]; intros m Hnd Hin Hgate.
  - by apply elem_of_nil in Hin.
  - rewrite fmap_cons in Hnd. apply NoDup_cons in Hnd as [Hj Hnd].
    apply elem_of_cons in Hin as [[= <- <-]|Hin].
    + cbn [foldl]. rewrite add_mean_other by done.
      unfold add_mean. cbn [fst snd]. rewrite Hgate. apply lookup_insert_eq.
    + cbn [foldl]. by apply IH.
Qed.

Lemma enumerate_keys (cs : list contour) :
  (imap (fun i c => (i, c)) cs).*1 = seq 0 (length cs).
Proof.
  change (imap (fun i c => (i, c)) cs) with (imap (fun i (c : contour) => (0 + i, c)) cs).
  generalize 0. induction cs as [|c cs IH]; intros k; [done|].
  rewrite imap_cons, fmap_cons. cbn [fst length seq]. rewrite Nat.add_0_r. f_equal.
  rewrite <- IH. f_equal. apply imap_ext. intros i x _. simpl. f_equal. lia.
Qed.

Lemma calculate_mean_amplitude_run self out cs :
  calculate_mean_amplitude cs (self, out)
  = (Ok (foldl (add_mean self) ∅ (imap (fun i c => (i, c)) cs)),
     (set_mean_amplitudes
        (foldl (add_mean self) ∅ (imap (fun i c => (i, c)) cs)) self, out)).
Proof.
  unfold calculate_mean_amplitude.
  rewrite (bind_ok _ _ _ self (self, out)) by done.
  rewrite (bind_ok _ _ _ tt (set_mean_amplitudes ∅ self, out)) by done.
  erewrite bind_ok; [|apply mean_loop_run].
  by destruct self.
Qed.

Lemma find_and_draw_contours_run img self out :
  exists labels,
    find_and_draw_contours img (self, out)
    = (Ok labels, (set_contours (cv2_findContours (cv2_Canny img)) self, out)).
Proof. eexists. unfold find_and_draw_contours. mrun. reflexivity. Qed.

Lemma report_loop_run (means : gmap nat Q) (idxs : list nat)
    (self : DepthMapProcessor) (out : list report) :
  for_each idxs (fun idx =>
    match means !! idx with
    | Some mean_amplitude => emit (ContourMean idx mean_amplitude)
    | None => mret tt
    end) (self, out)
  = (Ok tt, (self, (out ++ omap (fun idx => ContourMean idx <$> means !! idx) idxs)%list)).
Proof.
  revert out. induction idxs as [|idx idxs IH]; intros out.
  - simpl. by rewrite app_nil_r.
  - cbn [for_each omap list_omap]. destruct (means !! idx) as [m|] eqn:E.
    + erewrite bind_ok; [|reflexivity]. cbn [fst snd]. rewrite IH. simpl.
      by rewrite <- app_assoc.
    + erewrite bind_ok; [|reflexivity]. by rewrite IH.
Qed.

(** C8: for a contour that passes the minimum-area gate, the mean
    amplitude that [process_contour] stores under its index and reports
    is the arithmetic mean of the values of the original field at the
    pixels covered by the filled contour. *)
Theorem contour_mean_is_arithmetic_mean (self : DepthMapProcessor)
    (out : list report) (seg : list Z) (i : nat) (c : contour) :
  segmented_image self = Some seg ->
  cv2_findContours (cv2_Canny (apply_morphological_operations self seg)) !! i = Some c ->
  (min_contour_area self <= cv2_contourArea c)%Q ->
  exists m,
    (process_contour (self, out)).1 = Ok tt
    /\ mean_amplitudes (process_contour (self, out)).2.1 !! i = Some m
    /\ ContourMean i m ∈ (process_contour (self, out)).2.2
    /\ (m == arithmetic_mean (inside_values (depth_map_original self) c))%Q.
Proof.
  intros Hseg Hc Hgate. apply Qle_bool_iff in Hgate.
  set (found := cv2_findContours (cv2_Canny (apply_morphological_operations self seg))) in *.
  set (s1 := set_contours found self).
  set (means := foldl (add_mean s1) ∅ (imap (fun i c => (i, c)) found)).
  assert (Hm : means !! i
               = Some (cv2_mean (depth_map_original self)
                         (contour_mask (length (depth_map_original self)) c))).
  { unfold means. erewrite add_mean_lookup; [reflexivity| | |exact Hgate].
    - rewrite enumerate_keys. apply NoDup_seq.
    - apply elem_of_lookup_imap. eauto. }
  assert (Hrun : exists labels,
    process_contour (self, out)
    = (Ok tt, (set_contours found (set_mean_amplitudes means (set_mean_amplitudes means s1)),
               ((out ++ omap (fun idx => ContourMean idx <$> means !! idx)
                             (seq 0 (length found))) ++ [ContourImage labels])%list))).
  { unfold process_contour.
    rewrite (bind_ok _ _ _ self (self, out)) by done. rewrite Hseg.
    destruct (find_and_draw_contours_run
                (apply_morphological_operations self seg) self out) as [l1 E1].
    rewrite (bind_ok _ _ _ _ _ E1). fold found s1.
    rewrite (bind_ok _ _ _ s1 (s1, out)) by done.
    rewrite (bind_ok _ _ _ _ _ (calculate_mean_amplitude_run s1 out (contours s1))).
    change (contours s1) with found. fold means.
    rewrite (bind_ok _ _ _ (set_mean_amplitudes means s1)
               (set_mean_amplitudes means s1, out)) by done.
    rewrite (bind_ok _ _ _ tt
               (set_mean_amplitudes means (set_mean_amplitudes means s1), out)) by done.
    erewrite bind_ok; [|apply report_loop_run].
    destruct (find_and_draw_contours_run
                (apply_morphological_operations self seg)
                (set_mean_amplitudes means (set_mean_amplitudes means s1))
                (out ++ omap (fun idx => ContourMean idx <$> means !! idx)
                             (seq 0 (length found)))%list) as [l2 E2].
    rewrite (bind_ok _ _ _ _ _ E2). exists l2. reflexivity. }
  destruct Hrun as [labels Hrun]. rewrite Hrun. cbn [fst snd].
  eexists. split; [reflexivity|]. split; [exact Hm|]. split.
  - apply elem_of_app. left. apply elem_of_app. right.
    apply list_elem_of_omap. exists i. split.
    + apply elem_of_seq. apply lookup_lt_Some in Hc. lia.
    + by rewrite Hm.
  - apply cv2_mean_filled.
Qed.

End MeanAmplitude.

Lemma contour_mean_is_arithmetic_mean_witness :
  exists m,
    (@process_contour toy_cv2
       (set_segmented_image [180; 180; 0]%Z (sample_processor [180; 180; 0]%Z), [])).1
      = Ok tt
    /\ mean_amplitudes
         (@process_contour toy_cv2
            (set_segmented_image [180; 180; 0]%Z (sample_processor [180; 180; 0]%Z), [])).2.1
         !! 0 = Some m
    /\ ContourMean 0 m ∈
         (@process_contour toy_cv2
            (set_segmented_image [180; 180; 0]%Z (sample_processor [180; 180; 0]%Z), [])).2.2
    /\ (m == arithmetic_mean
              (@inside_values toy_cv2 (map inject_Z [180; 180; 0]%Z)
                 [(0, 0); (3, 0); (3, 3); (0, 3)]%Z))%Q.
Proof.
  apply (@contour_mean_is_arithmetic_mean toy_cv2
           (set_segmented_image [180; 180; 0]%Z (sample_processor [180; 180; 0]%Z))
           [] [180; 180; 0]%Z 0 [(0, 0); (3, 0); (3, 3); (0, 3)]%Z).
  - reflexivity.
  - reflexivity.
  - discriminate.
Defined.

(** ** What a computation leaves as it is *)

Lemma io_keeps_fs {S A} (m : M world A) :
  (forall w, fs (m w).2 = fs w) ->
  forall sw : S * world, fs (io m sw).2.2 = fs sw.2.
Proof. intros Hm [s w]. unfold io. cbn [fst snd]. specialize (Hm w). by destruct (m w). Qed.

Lemma reads_only_bind {S A B} (m : M (S * world) A) (k : A -> M (S * world) B) :
  reads_only m -> (forall a, reads_only (k a)) -> reads_only (m ≫= k).
Proof.
  intros Hm Hk sw. unfold mbind, M_bind. specialize (Hm sw).
  destruct (m sw) as [[a|e] sw'] eqn:E; cbn [fst snd] in *; [|done].
  by rewrite Hk.
Qed.

Lemma reads_only_for_each {S A} (xs : list A) (body : A -> M (S * world) unit) :
  (forall x, reads_only (body x)) -> reads_only (for_each xs body).
Proof.
  intros Hb. induction xs as [|x xs IH]; [done|]. by apply reads_only_bind.
Qed.

Lemma reads_only_try {S A} (body : M (S * world) A) handler :
  reads_only body -> (forall e, reads_only (handler e)) ->
  reads_only (try_except body handler).
Proof.
  intros Hb Hh sw. unfold try_except. specialize (Hb sw).
  destruct (body sw) as [[a|e] sw'] eqn:E; cbn [fst snd] in *; [done|].
  by rewrite Hh.
Qed.

Lemma reads_only_io {S A} (m : M world A) :
  (forall w, fs (m w).2 = fs w) -> reads_only (S := S) (io m).
Proof. intros Hm sw. by apply io_keeps_fs. Qed.


Lemma reads_only_dict_get key : reads_only (dict_get key).
Proof. intros [s w]. unfold dict_get. mrun. by destruct (getattr s key). Qed.







(** ** [save_data] stops at the helper *)

Lemma save_data_item_run (entry : string * attr) (self : StereoCalibration)
    (w : world) :
  save_data_item entry (self, w) = (Raise (NameError "file_create"), (self, w)).
Proof. by destruct entry as [key [v|l r]]. Qed.

Lemma save_data_run (c : StereoCalibration) (w : world) :
  c <> [] ->
  save_data (c, w) = (Ok tt, (c, mk_world (fs w) (stdout w ++ [save_error]))).
Proof.
  intros Hc. destruct c as [|entry c]; [done|].
  unfold save_data, try_except. rewrite (bind_ok _ _ _ (entry :: c) (entry :: c, w)) by done.
  cbn [for_each]. rewrite (bind_raise _ _ _ _ _ (save_data_item_run _ _ _)).
  reflexivity.
Qed.

Lemma save_data_reads_only : reads_only save_data.
Proof.
  intros [c w]. destruct c as [|entry c]; [done|]. by rewrite save_data_run.
Qed.

Lemma save_data_keeps_self : keeps_self save_data.
Proof.
  intros [c w]. destruct c as [|entry c]; [done|]. by rewrite save_data_run.
Qed.

Lemma save_data_result (c : StereoCalibration) (w : world) :
  (save_data (c, w)).1 = Ok tt.
Proof. destruct c as [|entry c]; [done|]. by rewrite save_data_run. Qed.
(** ** The calibration run *)





Section CalibrationRun.
Context `{Calib3d}.

















End CalibrationRun.


(** ** Shutdown of the capture and display processes *)

(** X4: once the event is set, a producer at its loop test sends one
    [(None, None)], is finished, and has no further step. *)
Lemma producer_sends_one_sentinel (s : pipeline) :
  stop_event s = true ->
  producer s = P_test ->
  run [Producer; Producer] s
  = Some (mk_pipeline true (queue s ++ [NonePair])%list P_done (produced s)
            (consumer s) (displayed s))
  /\ run [Producer; Producer; Producer] s = None.
Proof.
  intros Hstop Hpc. unfold run, step, producer_step. rewrite Hpc.
  cbn [producer stop_event queue produced consumer displayed]. by rewrite Hstop.
Qed.

Lemma consumer_raises_on_sentinel (s : pipeline) (key : key_press) (rest : list item) :
  consumer s = C_poll ->
  queue s = NonePair :: rest ->
  consumer_step key s
  = Some (mk_pipeline (stop_event s) rest (producer s) (produced s)
            (C_raised Cv2Error) (displayed s)).
Proof. intros Hpc Hq. unfold consumer_step. by rewrite Hpc, Hq. Qed.

(** C9: schedules of the two processes, from the start of the pipeline.
    In the first the consumer has left its loop when the producer sends
    the pair [(None, None)], which stays in the queue; in the second the
    consumer takes that pair out of the queue and raises on it. *)
Theorem sentinel_not_delivered :
  run late_sentinel_schedule pipeline_start
  = Some (mk_pipeline true [NonePair] P_done 1 C_done [FramePair 0])
  /\ run early_sentinel_schedule pipeline_start
     = Some (mk_pipeline true [] P_done 1 (C_raised Cv2Error) [FramePair 0]).
Proof. split; reflexivity. Qed.

(** ** Invariants of the capture and display processes *)

Lemma frame_pairs_S start len :
  frame_pairs start (S len) = (frame_pairs start len ++ [FramePair (start + len)])%list.
Proof. unfold frame_pairs. by rewrite seq_S, map_app. Qed.

Lemma pipeline_invariant_start : pipeline_invariant pipeline_start.
Proof. exists 0, []. cbn. repeat split; done. Qed.

Ltac pipeline_finish :=
  cbn [produced displayed queue consumer producer stop_event] in *;
  split_and!; try done; try lia;
  repeat case_match; try done; try (intuition congruence).

Lemma pipeline_invariant_step (a : actor) (s s' : pipeline) :
  pipeline_invariant s -> step a s = Some s' -> pipeline_invariant s'.
Proof.
  intros (k & sent & Hk & Hd & Hq & Hsent & Hp & Hc) Hstep.
  destruct a as [|key|]; cbn [step] in Hstep.
  - unfold producer_step in Hstep.
    destruct (producer s) eqn:Epc; [| | |done]; injection Hstep as <-.
    + exists k, sent. pipeline_finish.
    + assert (Hs : sent = []) by (destruct (consumer s); intuition congruence).
      subst sent. exists k, []. pipeline_finish.
      all: rewrite Hq, !app_nil_r.
      all: replace (S (produced s) - k) with (S (produced s - k)) by lia.
      all: rewrite frame_pairs_S; do 3 f_equal; lia.
    + assert (Hs : sent = []) by (destruct (consumer s); intuition congruence).
      subst sent. exists k, [NonePair]. pipeline_finish.
      all: by rewrite Hq, app_nil_r.
  - unfold consumer_step in Hstep.
    destruct (consumer s) eqn:Ecs; [| | |done|done].
    + injection Hstep as <-. exists k, sent. pipeline_finish.
    + injection Hstep as <-. exists k, sent. pipeline_finish.
    + destruct (queue s) as [|[j|] rest] eqn:Eq.
      * injection Hstep as <-. exists k, sent. pipeline_finish.
      * injection Hstep as <-.
        destruct (produced s - k) as [|len] eqn:Elen.
        { exfalso. cbn in Hq. subst sent. by destruct (producer s). }
        cbn in Hq. injection Hq as -> ->.
        exists (S k), sent. pipeline_finish.
        all: first [ by rewrite Hd, frame_pairs_S
                   | f_equal; unfold frame_pairs; do 2 f_equal; lia ].
      * injection Hstep as <-.
        destruct (produced s - k) as [|len] eqn:Elen; [|done].
        cbn in Hq. subst sent.
        destruct (producer s) eqn:Epc; try done.
        assert (rest = []) as -> by congruence.
        exists k, []. pipeline_finish.
        all: by rewrite Elen.
  - injection Hstep as <-. exists k, sent. pipeline_finish.
Qed.

Lemma pipeline_invariant_run (schedule : list actor) (s s' : pipeline) :
  pipeline_invariant s -> run schedule s = Some s' -> pipeline_invariant s'.
Proof.
  revert s. induction schedule as [|a schedule IH]; intros s Hinv Hrun.
  - by injection Hrun as <-.
  - cbn [run] in Hrun. destruct (step a s) as [s1|] eqn:Hstep; [|done].
    eapply IH; [|exact Hrun]. by eapply pipeline_invariant_step.
Qed.

Lemma NonePair_not_frame start len : NonePair ∉ frame_pairs start len.
Proof.
  unfold frame_pairs. intros Hin. apply list_elem_of_fmap in Hin as (j & Hj & _).
  discriminate.
Qed.

(** X1: along every schedule the pairs are displayed in the order of
    their production, none twice and none skipped, and the pairs not
    yet displayed wait in the queue in that order, followed by at most
    one [(None, None)]. *)
Theorem frames_displayed_in_order (schedule : list actor) (s : pipeline) :
  run schedule pipeline_start = Some s ->
  exists k sent,
    k <= produced s
    /\ displayed s = frame_pairs 0 k
    /\ queue s = (frame_pairs k (produced s - k) ++ sent)%list
    /\ (sent = [] \/ sent = [NonePair]).
Proof.
  intros Hrun.
  destruct (pipeline_invariant_run _ _ _ pipeline_invariant_start Hrun)
    as (k & sent & Hk & Hd & Hq & Hsent & _).
  exists k, sent. split_and!; try done.
  destruct (consumer s); destruct (producer s); intuition.
Qed.

Lemma frames_displayed_in_order_witness :
  exists k sent,
    k <= 1
    /\ [FramePair 0] = frame_pairs 0 k
    /\ [NonePair] = (frame_pairs k (1 - k) ++ sent)%list
    /\ (sent = [] \/ sent = [NonePair]).
Proof.
  apply (frames_displayed_in_order late_sentinel_schedule
           (mk_pipeline true [NonePair] P_done 1 C_done [FramePair 0])).
  reflexivity.
Defined.

(** X2: whenever [(None, None)] is in the queue, the event is set, the
    producer has finished, and that pair is the last of the queue and
    the only one of its kind. *)
Theorem sentinel_is_last (schedule : list actor) (s : pipeline) :
  run schedule pipeline_start = Some s ->
  NonePair ∈ queue s ->
  stop_event s = true
  /\ producer s = P_done
  /\ exists q, queue s = (q ++ [NonePair])%list /\ NonePair ∉ q.
Proof.
  intros Hrun Hin.
  destruct (pipeline_invariant_run _ _ _ pipeline_invariant_start Hrun)
    as (k & sent & Hk & Hd & Hq & Hsent & Hp & _).
  rewrite Hq in Hin. apply elem_of_app in Hin as [Hin|Hin];
    [by apply NonePair_not_frame in Hin|].
  assert (Hs : sent = [NonePair] /\ producer s = P_done).
  { destruct (consumer s); destruct (producer s);
      first [ by destruct Hsent as (_ & -> & _); apply elem_of_nil in Hin
            | by rewrite Hsent in Hin; apply elem_of_nil in Hin
            | done ]. }
  destruct Hs as [-> Hdone]. rewrite Hdone in Hp.
  split_and!; try done. eexists. split; [exact Hq|]. apply NonePair_not_frame.
Qed.

Lemma sentinel_is_last_witness :
  true = true
  /\ P_done = P_done
  /\ exists q, [NonePair] = (q ++ [NonePair])%list /\ NonePair ∉ q.
Proof.
  apply (sentinel_is_last late_sentinel_schedule
           (mk_pipeline true [NonePair] P_done 1 C_done [FramePair 0])).
  - reflexivity.
  - apply list_elem_of_here.
Defined.



Lemma producer_sends_one_sentinel_witness :
  run [Producer; Producer] (mk_pipeline true [FramePair 0] P_test 1 C_poll [])
  = Some (mk_pipeline true [FramePair 0; NonePair] P_done 1 C_poll [])
  /\ run [Producer; Producer; Producer]
       (mk_pipeline true [FramePair 0] P_test 1 C_poll []) = None.
Proof.
  apply (producer_sends_one_sentinel
           (mk_pipeline true [FramePair 0] P_test 1 C_poll [])); reflexivity.
Defined.

(** ** The time-of-flight frame: order, saturation, shapes *)

Lemma process_frame_lookup cam depth amplitude i d a :
  depth_buf cam = Some depth ->
  amplitude_buf cam = Some amplitude ->
  shape_of depth = shape_of amplitude ->
  items_of depth !! i = Some d ->
  items_of amplitude !! i = Some a ->
  exists out,
    (process_frame cam).1 = Ok out
    /\ image_shape out = shape_of depth
    /\ pixels out !! i = Some (gated_pixel32 (max_distance cam) (reading d) a).
Proof.
  intros Hd Ha Hsh Hi Hj. rewrite (process_frame_same_shape _ _ _ Hd Ha Hsh).
  eexists. split; [reflexivity|]. split; [reflexivity|]. cbn [pixels].
  by rewrite lookup_zip_with, Hi, Hj.
Qed.

Lemma normalized32_byte m r : (0 <= normalized32 m r <= 255)%Z.
Proof. rewrite <- normalize_depth_normalized32. apply normalize_depth_byte. Qed.

Lemma normalized32_antitone m r1 r2 :
  (0 < m)%Q -> (r1 <= r2)%Q -> (normalized32 m r2 <= normalized32 m r1)%Z.
Proof.
  intros Hm Hr. rewrite <- !normalize_depth_normalized32.
  by apply normalize_depth_antitone.
Qed.

(** X5: closer is brighter.  For a positive maximal distance and buffers
    of one shape, of two pixels the one with the smaller depth reading
    gets at least the value of the other, when the amplitude of the
    nearer one is above the cut-off. *)
Theorem closer_is_brighter (cam : TofCamera) (depth amplitude : ndarray)
    (i j : nat) (di dj ai aj : fnum) :
  depth_buf cam = Some depth ->
  amplitude_buf cam = Some amplitude ->
  shape_of depth = shape_of amplitude ->
  (0 < max_distance cam)%Q ->
  items_of depth !! i = Some di -> items_of amplitude !! i = Some ai ->
  items_of depth !! j = Some dj -> items_of amplitude !! j = Some aj ->
  fle ai 7 = false ->
  (reading di <= reading dj)%Q ->
  exists out xi xj,
    (process_frame cam).1 = Ok out
    /\ pixels out !! i = Some xi /\ pixels out !! j = Some xj /\ (xj <= xi)%Z.
Proof.
  intros Hd Ha Hsh Hm Hi Hai Hj Haj Hconf Hle.
  destruct (process_frame_lookup _ _ _ _ _ _ Hd Ha Hsh Hi Hai) as (out & Ho & _ & Hoi).
  destruct (process_frame_lookup _ _ _ _ _ _ Hd Ha Hsh Hj Haj) as (out' & Ho' & _ & Hoj).
  assert (out' = out) as -> by congruence.
  eexists _, _, _. split_and!; [exact Ho | exact Hoi | exact Hoj |].
  unfold gated_pixel32. rewrite Hconf. destruct (fle aj 7).
  - apply normalized32_byte.
  - by apply normalized32_antitone.
Qed.

Lemma closer_is_brighter_witness :
  exists out xi xj,
    (process_frame (cam_of 4 [Fin 1; Fin 3] [Fin 255; Fin 255])).1 = Ok out
    /\ pixels out !! 0 = Some xi /\ pixels out !! 1 = Some xj /\ (xj <= xi)%Z.
Proof.
  apply (closer_is_brighter
           (cam_of 4 [Fin 1; Fin 3] [Fin 255; Fin 255])
           (row_of [Fin 1; Fin 3]) (row_of [Fin 255; Fin 255])
           0 1 (Fin 1) (Fin 3) (Fin 255) (Fin 255));
    try reflexivity; discriminate.
Defined.

(** X6: saturation.  For a positive maximal distance and buffers of one
    shape, a pixel whose depth reading is at least the maximal distance
    is 0, and a pixel whose reading is at most zero (a NaN reading
    counts as zero) under an amplitude above the cut-off is 255. *)
Theorem process_frame_saturates (cam : TofCamera) (depth amplitude : ndarray)
    (i : nat) (d a : fnum) :
  depth_buf cam = Some depth ->
  amplitude_buf cam = Some amplitude ->
  shape_of depth = shape_of amplitude ->
  (0 < max_distance cam)%Q ->
  items_of depth !! i = Some d -> items_of amplitude !! i = Some a ->
  exists out,
    (process_frame cam).1 = Ok out
    /\ ((max_distance cam <= reading d)%Q -> pixels out !! i = Some 0%Z)
    /\ ((reading d <= 0)%Q -> fle a 7 = false -> pixels out !! i = Some 255%Z).
Proof.
  intros Hd Ha Hsh Hm Hi Hai.
  assert (Hm0 : ~ (max_distance cam == 0)%Q).
  { intros E. rewrite E in Hm. by apply (Qlt_irrefl 0). }
  destruct (process_frame_lookup _ _ _ _ _ _ Hd Ha Hsh Hi Hai) as (out & Ho & _ & Hoi).
  exists out. split; [done|]. rewrite Hoi. unfold gated_pixel32. split.
  - intros Hfar. f_equal. destruct (fle a 7); [done|].
    rewrite <- normalize_depth_normalized32. apply normalize_depth_far; [done|].
    apply Qle_shift_div_l; [done|]. by rewrite Qmult_1_l.
  - intros Hnear Hconf. rewrite Hconf. f_equal.
    rewrite <- normalize_depth_normalized32. apply normalize_depth_front; [done|].
    apply Qle_shift_div_r; [done|]. by rewrite Qmult_0_l.
Qed.

Lemma process_frame_saturates_witness :
  exists out,
    (process_frame (cam_of 4 [NaN] [Fin 255])).1 = Ok out
    /\ ((4 <= reading NaN)%Q -> pixels out !! 0 = Some 0%Z)
    /\ ((reading NaN <= 0)%Q -> fle (Fin 255) 7 = false ->
        pixels out !! 0 = Some 255%Z).
Proof.
  apply (process_frame_saturates (cam_of 4 [NaN] [Fin 255])
           (row_of [NaN]) (row_of [Fin 255]) 0 NaN (Fin 255)); reflexivity.
Defined.

(** X7: buffers of shapes that do not agree.  When the shapes of the two
    buffers cannot be broadcast together, [process_frame] raises the
    [ValueError] of numpy, after it has replaced the depth buffer, the
    amplitude buffer and the normalized depth of the camera; two shapes
    of which one is the end of the other, such as (2, 3) and (3), can be
    broadcast. *)
Theorem process_frame_shape_mismatch (cam : TofCamera) (depth amplitude : ndarray) :
  depth_buf cam = Some depth ->
  amplitude_buf cam = Some amplitude ->
  broadcast_shapes (shape_of depth) (shape_of amplitude) = None ->
  process_frame cam =
  (Raise (ValueError broadcast_message),
   mk_TofCamera (max_distance cam) (Some (map_items threshold_amplitude amplitude))
     (Some (map_items nan_to_num depth))
     (Some (mk_image (shape_of depth)
              (map (normalize_depth (max_distance cam))
                   (map nan_to_num (items_of depth)))))
     (result_image cam) (n cam))
  /\ broadcast_shapes [2; 3] [3] = Some [2; 3].
Proof.
  intros Hd Ha Hsh. split; [|reflexivity].
  rewrite (process_frame_present _ _ _ Hd Ha). f_equal.
  match goal with
  | |- bitwise_and ?a ?b = _ => pose proof (bitwise_and_outcome a b) as Hout
  end.
  cbn [image_shape astype_uint8_array map_items shape_of] in Hout.
  by rewrite Hsh in Hout.
Qed.

Lemma process_frame_shape_mismatch_witness :
  process_frame cam_mismatch =
  (Raise (ValueError broadcast_message),
   mk_TofCamera (max_distance cam_mismatch)
     (Some (map_items threshold_amplitude (row_of [Fin 255; Fin 255; Fin 255])))
     (Some (map_items nan_to_num (row_of [Fin 1; NaN])))
     (Some (mk_image (shape_of (row_of [Fin 1; NaN]))
              (map (normalize_depth (max_distance cam_mismatch))
                   (map nan_to_num (items_of (row_of [Fin 1; NaN]))))))
     (result_image cam_mismatch) (n cam_mismatch))
  /\ broadcast_shapes [2; 3] [3] = Some [2; 3].
Proof.
  apply (process_frame_shape_mismatch cam_mismatch (row_of [Fin 1; NaN])
           (row_of [Fin 255; Fin 255; Fin 255])); reflexivity.
Defined.
(** ** Saving the time-of-flight frame *)

Lemma string_length_append (s t : string) :
  String.length (s +:+ t) = String.length s + String.length t.
Proof. induction s as [|c s IH]; simpl; [done|]. by rewrite IH. Qed.

Lemma string_append_inj_r (s1 s2 t : string) : s1 +:+ t = s2 +:+ t -> s1 = s2.
Proof.
  revert s2. induction s1 as [|c s1 IH]; intros [|c' s2] Heq; simpl in Heq.
  - done.
  - apply (f_equal String.length) in Heq.
    rewrite !string_length_append in Heq. simpl in Heq. lia.
  - apply (f_equal String.length) in Heq.
    rewrite !string_length_append in Heq. simpl in Heq. lia.
  - injection Heq as -> Heq. f_equal. by apply IH.
Qed.

Lemma tof_name_inj (j k : nat) :
  "tof" +:+ pretty j +:+ ".png" = "tof" +:+ pretty k +:+ ".png" -> j = k.
Proof.
  intros Heq. apply (String.app_inj "tof") in Heq.
  apply string_append_inj_r in Heq. by apply pretty_nat_inj in Heq.
Qed.

Lemma capture_image_saves cam img w :
  result_image cam = Some img ->
  capture_image (cam, w) =
  (Ok tt, (set_n (n cam + 1) cam,
           mk_world (<["tof" +:+ pretty (n cam) +:+ ".png" := ImageFile (image_of_bytes img)]> (fs w))
                    (stdout w ++ ["Image saved as tof" +:+ pretty (n cam) +:+ ".png"]))).
Proof. intros Hi. unfold capture_image. mrun. by rewrite Hi. Qed.

(** X8: [capture_image] without a resulting image only prints a message:
    the camera, its counter and the files are as before. *)
Theorem capture_image_without_image (cam : TofCamera) (w : world) :
  result_image cam = None ->
  capture_image (cam, w)
  = (Ok tt, (cam, mk_world (fs w) (stdout w ++ ["No image to save"]))).
Proof. intros Hi. unfold capture_image. mrun. by rewrite Hi. Qed.

Lemma capture_image_without_image_witness :
  capture_image (cam_empty, mk_world ∅ [])
  = (Ok tt, (cam_empty, mk_world ∅ ["No image to save"])).
Proof. apply (capture_image_without_image cam_empty (mk_world ∅ [])). reflexivity. Defined.

(** X9: two frames saved one after the other go to two files: after the
    second [capture_image] the file of the first still holds the first
    image, the file of the second holds the second, the counter has
    advanced by two and no other file has changed. *)
Theorem capture_image_twice (cam : TofCamera) (w : world) (img1 img2 : image) :
  result_image cam = Some img1 ->
  exists cam1 w1 cam2 w2,
    capture_image (cam, w) = (Ok tt, (cam1, w1))
    /\ capture_image (set_result_image (Some img2) cam1, w1) = (Ok tt, (cam2, w2))
    /\ n cam2 = n cam + 2
    /\ fs w2 !! ("tof" +:+ pretty (n cam) +:+ ".png")
       = Some (ImageFile (image_of_bytes img1))
    /\ fs w2 !! ("tof" +:+ pretty (n cam + 1) +:+ ".png")
       = Some (ImageFile (image_of_bytes img2))
    /\ forall name,
         name <> "tof" +:+ pretty (n cam) +:+ ".png" ->
         name <> "tof" +:+ pretty (n cam + 1) +:+ ".png" ->
         fs w2 !! name = fs w !! name.
Proof.
  intros Hi. eexists _, _, _, _.
  split; [by apply capture_image_saves|].
  split; [by apply capture_image_saves|].
  cbn [n set_n set_result_image fs]. split_and!.
  - lia.
  - rewrite lookup_insert_ne; [apply lookup_insert_eq|].
    intros Heq. apply tof_name_inj in Heq. lia.
  - apply lookup_insert_eq.
  - intros name H1 H2. by rewrite !lookup_insert_ne.
Qed.

Lemma capture_image_twice_witness :
  exists cam1 w1 cam2 w2,
    capture_image (set_result_image (Some (mk_image [1] [1%Z])) cam_empty, mk_world ∅ [])
      = (Ok tt, (cam1, w1))
    /\ capture_image (set_result_image (Some (mk_image [1] [2%Z])) cam1, w1) = (Ok tt, (cam2, w2))
    /\ n cam2 = 0 + 2
    /\ fs w2 !! ("tof" +:+ pretty 0 +:+ ".png") = Some (ImageFile (image_of_bytes (mk_image [1] [1%Z])))
    /\ fs w2 !! ("tof" +:+ pretty (0 + 1) +:+ ".png")
       = Some (ImageFile (image_of_bytes (mk_image [1] [2%Z])))
    /\ forall name,
         name <> "tof" +:+ pretty 0 +:+ ".png" ->
         name <> "tof" +:+ pretty (0 + 1) +:+ ".png" ->
         fs w2 !! name = (∅ : gmap string file) !! name.
Proof.
  apply (capture_image_twice (set_result_image (Some (mk_image [1] [1%Z])) cam_empty)
           (mk_world ∅ []) (mk_image [1] [1%Z]) (mk_image [1] [2%Z])).
  reflexivity.
Defined.

(** ** The histogram and the count of non-zero pixels *)








(** ** The bands of [process_disparity_image] *)

Lemma same_parameters_refl s : same_parameters s s.
Proof. by repeat split. Qed.

Lemma same_parameters_trans s1 s2 s3 :
  same_parameters s1 s2 -> same_parameters s2 s3 -> same_parameters s1 s3.
Proof. unfold same_parameters. intros H1 H2. destruct_and!. split_and!; congruence. Qed.

Lemma band_verdict_same s s' i : same_parameters s s' -> band_verdict s' i = band_verdict s i.
Proof.
  intros (_ & Hn & Hp & _ & Ht & _). unfold band_verdict, band_count.
  by rewrite Hn, Hp, Ht.
Qed.

Lemma contour_means_no_decision (means : gmap nat Q) (idxs : list nat) :
  omap band_decision (omap (fun idx => ContourMean idx <$> means !! idx) idxs) = [].
Proof.
  induction idxs as [|idx idxs IH]; [done|]. cbn [omap list_omap].
  destruct (means !! idx); cbn; exact IH.
Qed.

Section Bands.
Context `{Cv2}.

Lemma process_contour_run (s : DepthMapProcessor) (out : list report) (seg : list Z) :
  segmented_image s = Some seg ->
  exists s' extra,
    process_contour (s, out) = (Ok tt, (s', (out ++ extra)%list))
    /\ same_parameters s s'
    /\ segmented_image s' = Some seg
    /\ omap band_decision extra = [].
Proof.
  intros Hseg.
  set (found := cv2_findContours (cv2_Canny (apply_morphological_operations s seg))).
  set (s1 := set_contours found s).
  set (means := foldl (add_mean s1) ∅ (imap (fun i c => (i, c)) found)).
  destruct (find_and_draw_contours_run
              (apply_morphological_operations s seg) s out) as [l1 E1].
  destruct (find_and_draw_contours_run
              (apply_morphological_operations s seg)
              (set_mean_amplitudes means (set_mean_amplitudes means s1))
              (out ++ omap (fun idx => ContourMean idx <$> means !! idx)
                           (seq 0 (length found)))%list) as [l2 E2].
  exists (set_contours found (set_mean_amplitudes means (set_mean_amplitudes means s1))),
         (omap (fun idx => ContourMean idx <$> means !! idx) (seq 0 (length found))
          ++ [ContourImage l2])%list.
  split_and!.
  - unfold process_contour.
    rewrite (bind_ok _ _ _ s (s, out)) by done. rewrite Hseg.
    rewrite (bind_ok _ _ _ _ _ E1). fold found s1.
    rewrite (bind_ok _ _ _ s1 (s1, out)) by done.
    rewrite (bind_ok _ _ _ _ _ (calculate_mean_amplitude_run s1 out (contours s1))).
    change (contours s1) with found. fold means.
    rewrite (bind_ok _ _ _ (set_mean_amplitudes means s1)
               (set_mean_amplitudes means s1, out)) by done.
    rewrite (bind_ok _ _ _ tt
               (set_mean_amplitudes means (set_mean_amplitudes means s1), out)) by done.
    erewrite bind_ok; [|apply report_loop_run].
    rewrite (bind_ok _ _ _ _ _ E2). unfold emit. cbn [fst snd].
    by rewrite app_assoc.
  - by repeat split.
  - exact Hseg.
  - rewrite omap_app, contour_means_no_decision. reflexivity.
Qed.

Lemma process_band_run (s : DepthMapProcessor) (out : list report) (i : nat) :
  i + 1 < length (thresholds s) ->
  exists s' extra,
    process_band i (s, out) = (Ok tt, (s', (out ++ extra)%list))
    /\ same_parameters s s'
    /\ omap band_decision extra = [band_verdict s i].
Proof.
  intros Hi.
  destruct (lookup_lt_is_Some_2 (thresholds s) i ltac:(lia)) as [lower Hl].
  destruct (lookup_lt_is_Some_2 (thresholds s) (i + 1) ltac:(lia)) as [upper Hu].
  unfold process_band.
  rewrite (bind_ok _ _ _ s (s, out)) by done. rewrite Hl, Hu.
  set (s1 := set_segmented_image (segment (depth_map_normalized s) lower upper) s).
  rewrite (bind_ok _ _ _ tt (s1, out)) by done.
  rewrite (bind_ok _ _ _ s1 (s1, out)) by done.
  unfold band_verdict, band_count. rewrite Hl, Hu.
  change (default [] (segmented_image s1))
    with (segment (depth_map_normalized s) lower upper).
  change (pixel_min s1) with (pixel_min s).
  destruct (Z.leb_spec (pixel_min s)
              (count_non_zero_pixels_from_histogram
                 (calculate_histogram (segment (depth_map_normalized s) lower upper))))
    as [Hle|Hlt].
  - rewrite bool_decide_true by done.
    erewrite bind_ok; [|reflexivity]. cbn [fst snd].
    destruct (process_contour_run s1
                (out ++ [SegmentKept (i + 1) lower upper
                           (count_non_zero_pixels_from_histogram
                              (calculate_histogram
                                 (segment (depth_map_normalized s) lower upper)))])%list
                _ eq_refl) as (s' & extra & Hrun & Hsame & _ & Hdec).
    rewrite Hrun. eexists s', (_ :: extra). split_and!.
    + by rewrite <- app_assoc.
    + exact Hsame.
    + cbn [omap list_omap band_decision]. by rewrite Hdec.
  - rewrite bool_decide_false by lia.
    exists s1, [SegmentRejected (i + 1) lower upper
                  (count_non_zero_pixels_from_histogram
                     (calculate_histogram (segment (depth_map_normalized s) lower upper)))].
    split_and!; [reflexivity | by repeat split | reflexivity].
Qed.

Lemma process_bands_run (idxs : list nat) (s : DepthMapProcessor) (out : list report) :
  Forall (fun i => i + 1 < length (thresholds s)) idxs ->
  exists s' extra,
    for_each idxs process_band (s, out) = (Ok tt, (s', (out ++ extra)%list))
    /\ same_parameters s s'
    /\ omap band_decision extra = map (band_verdict s) idxs.
Proof.
  revert s out. induction idxs as [|i idxs IH]; intros s out Hidx.
  - exists s, []. split_and!; [by rewrite app_nil_r | apply same_parameters_refl | done].
  - apply Forall_cons in Hidx as [Hi Hidx].
    destruct (process_band_run s out i Hi) as (s1 & e1 & Hrun1 & Hsame1 & Hdec1).
    assert (Hidx1 : Forall (fun i => i + 1 < length (thresholds s1)) idxs).
    { destruct Hsame1 as (_ & _ & _ & _ & -> & _). exact Hidx. }
    destruct (IH s1 (out ++ e1)%list Hidx1) as (s2 & e2 & Hrun2 & Hsame2 & Hdec2).
    exists s2, (e1 ++ e2)%list. split_and!.
    + rewrite (for_each_cons_ok _ _ _ _ _ Hrun1), Hrun2. by rewrite app_assoc.
    + by eapply same_parameters_trans.
    + rewrite omap_app, Hdec1, Hdec2. cbn [map app]. f_equal.
      apply map_ext. intros j. by apply band_verdict_same.
Qed.

Lemma process_disparity_image_run (self : DepthMapProcessor) (out : list report) :
  exists s' extra,
    process_disparity_image (self, out) = (Ok tt, (s', (out ++ extra)%list))
    /\ same_parameters self s'
    /\ omap band_decision extra
       = map (band_verdict self) (seq 0 (length (thresholds self) - 1)).
Proof.
  unfold process_disparity_image.
  rewrite (bind_ok _ _ _ self (self, out)) by done.
  apply process_bands_run. apply Forall_forall. intros i Hi.
  apply elem_of_seq in Hi. lia.
Qed.

End Bands.




Lemma kept_of_verdicts_le (f g : nat -> nat * bool) (idxs : list nat) :
  (forall i, (f i).2 = true -> (g i).2 = true) ->
  length (filter (fun d => d.2 = true) (map f idxs))
  <= length (filter (fun d => d.2 = true) (map g idxs)).
Proof.
  intros Himp. induction idxs as [|i idxs IH]; [done|]. cbn [map].
  destruct ((f i).2) eqn:Ef.
  - rewrite !filter_cons_True by (rewrite ?Himp; done). simpl. lia.
  - rewrite (filter_cons_False _ (f i)) by (rewrite Ef; done).
    destruct ((g i).2) eqn:Eg.
    + rewrite filter_cons_True by done. simpl. lia.
    + by rewrite filter_cons_False by (rewrite Eg; done).
Qed.

Section BandTheorems.
Context `{Cv2}.

(** X11: [process_disparity_image] returns without raising, leaves the
    parameters of the processor as they are, and reports one verdict
    for each pair of adjacent boundaries, in their order: band [i] is
    kept exactly when the count of non-zero pixels of its segment is at
    least [pixel_min].  With fewer than two boundaries it reports none. *)
Theorem bands_judged_in_order (self : DepthMapProcessor) (out : list report) :
  exists s' extra,
    process_disparity_image (self, out) = (Ok tt, (s', (out ++ extra)%list))
    /\ same_parameters self s'
    /\ omap band_decision extra
       = map (band_verdict self) (seq 0 (length (thresholds self) - 1)).
Proof. apply process_disparity_image_run. Qed.

(** X12: raising [pixel_min] never increases the number of kept bands. *)
Theorem kept_bands_antitone_in_pixel_min (self : DepthMapProcessor)
    (out : list report) (p : Z) :
  (pixel_min self <= p)%Z ->
  kept_segments (process_disparity_image (set_pixel_min p self, out)).2.2
  <= kept_segments (process_disparity_image (self, out)).2.2.
Proof.
  intros Hp.
  destruct (process_disparity_image_run self out) as (s1 & e1 & -> & _ & Hd1).
  destruct (process_disparity_image_run (set_pixel_min p self) out)
    as (s2 & e2 & -> & _ & Hd2).
  cbn [fst snd]. unfold kept_segments.
  rewrite !omap_app, !filter_app, !length_app, Hd1, Hd2.
  apply Nat.add_le_mono_l. apply kept_of_verdicts_le.
  intros i. unfold band_verdict. cbn [snd pixel_min set_pixel_min].
  change (band_count (set_pixel_min p self) i) with (band_count self i).
  intros Hk. apply bool_decide_eq_true in Hk. apply bool_decide_eq_true. lia.
Qed.


End BandTheorems.

Lemma kept_bands_antitone_in_pixel_min_witness :
  kept_segments
    (@process_disparity_image toy_cv2
       (set_pixel_min 3 (sample_processor [100; 99]%Z), [])).2.2
  <= kept_segments
       (@process_disparity_image toy_cv2 (sample_processor [100; 99]%Z, [])).2.2.
Proof.
  apply (@kept_bands_antitone_in_pixel_min toy_cv2 (sample_processor [100; 99]%Z) [] 3).
  vm_compute. discriminate.
Defined.


(** ** Frames of the persistence layer *)

Lemma create_file_result data file_name file_type folder_name w :
  (create_file data file_name file_type folder_name w).1 = Ok tt.
Proof.
  unfold create_file, try_except.
  destruct (bool_decide (file_type = "jpg") || bool_decide (file_type = "png")).
  { by destruct data. }
  destruct (bool_decide (file_type = "npy")); [done|].
  destruct (bool_decide (file_type = "csv")); [|done].
  unfold csv_write. by destruct (csv_iterable data).
Qed.

Lemma create_file_other_names data file_name file_type folder_name w :
  exists target, forall name, name <> target ->
    fs (create_file data file_name file_type folder_name w).2 !! name = fs w !! name.
Proof.
  unfold create_file, try_except.
  match goal with |- context [cv2_imwrite ?n _] => exists n; generalize n end.
  intros target name Hne.
  destruct (bool_decide (file_type = "jpg") || bool_decide (file_type = "png")).
  { destruct data; simpl; [|done]. by apply lookup_insert_ne. }
  destruct (bool_decide (file_type = "npy")).
  { simpl. by apply lookup_insert_ne. }
  destruct (bool_decide (file_type = "csv")); [|done].
  unfold csv_write. destruct (csv_iterable data); simpl; by apply lookup_insert_ne.
Qed.

(** X14: [create_file] returns normally whatever it is given, and changes
    at most one file. *)
Theorem create_file_never_raises (data : pyval) (file_name file_type : string)
    (folder_name : option string) (w : world) :
  (create_file data file_name file_type folder_name w).1 = Ok tt
  /\ exists target, forall name, name <> target ->
       fs (create_file data file_name file_type folder_name w).2 !! name
       = fs w !! name.
Proof. split; [apply create_file_result|apply create_file_other_names]. Qed.

(** X15: with a file type other than jpg, png, npy and csv,
    [create_file] writes nothing and prints nothing. *)
Theorem create_file_unknown_type (data : pyval) (file_name file_type : string)
    (folder_name : option string) (w : world) :
  file_type ∉ ["jpg"; "png"; "npy"; "csv"] ->
  create_file data file_name file_type folder_name w = (Ok tt, w).
Proof.
  intros Hty. rewrite !not_elem_of_cons in Hty. destruct Hty as (H1 & H2 & H3 & H4 & _).
  unfold create_file, try_except. rewrite !bool_decide_false by done.
  cbn [orb]. by destruct w.
Qed.

Lemma create_file_unknown_type_witness :
  create_file (Some (arr1 1)) "notes" "txt" (Some "data") (mk_world ∅ [])
  = (Ok tt, mk_world ∅ []).
Proof.
  apply (create_file_unknown_type (Some (arr1 1)) "notes" "txt" (Some "data")
           (mk_world ∅ [])).
  rewrite !not_elem_of_cons. repeat split; try discriminate. apply not_elem_of_nil.
Defined.

(** X16: [save_data] returns normally for every object, leaves the
    object as it is, and changes no file outside the directory [data]. *)
Theorem save_data_frame (c : StereoCalibration) (w : world) (name : string) :
  String.prefix "data/" name = false ->
  (save_data (c, w)).1 = Ok tt
  /\ (save_data (c, w)).2.1 = c
  /\ fs (save_data (c, w)).2.2 !! name = fs w !! name.
Proof.
  intros Hname. split; [apply save_data_result|]. split.
  - apply (save_data_keeps_self (c, w)).
  - by rewrite (save_data_reads_only (c, w)).
Qed.

Lemma save_data_frame_witness :
  (save_data (StereoCalibration_init, mk_world ∅ [])).1 = Ok tt
  /\ (save_data (StereoCalibration_init, mk_world ∅ [])).2.1 = StereoCalibration_init
  /\ fs (save_data (StereoCalibration_init, mk_world ∅ [])).2.2 !! "image/left01.jpg"
     = fs (mk_world ∅ []) !! "image/left01.jpg".
Proof.
  apply (save_data_frame StereoCalibration_init (mk_world ∅ []) "image/left01.jpg").
  reflexivity.
Defined.

Lemma reads_only_np_load {S} name : reads_only (S := S) (io (np_load name)).
Proof.
  apply reads_only_io. intros w. unfold np_load. by repeat case_match.
Qed.

Lemma reads_only_load_side key sd filename : reads_only (load_side key sd filename).
Proof.
  unfold load_side.
  apply reads_only_bind; [apply reads_only_np_load|]. intros v.
  apply reads_only_bind; [apply reads_only_dict_get|]. intros d.
  apply reads_only_bind; [done|]. intros d'.
  apply reads_only_bind; done.
Qed.

Lemma reads_only_load_key directory key : reads_only (load_data_key directory key).
Proof.
  unfold load_data_key.
  apply reads_only_bind; [apply reads_only_dict_get|]. intros [v|l r].
  - apply reads_only_bind; [by apply reads_only_io|]. intros [].
    + apply reads_only_bind; [apply reads_only_np_load|]. intros a.
      apply reads_only_bind; done.
    + by apply reads_only_io.
  - apply reads_only_for_each. intros sd.
    apply reads_only_bind; [by apply reads_only_io|]. intros [].
    + apply reads_only_load_side.
    + by apply reads_only_io.
Qed.

(** X17: [load_data] returns normally for every object, directory and
    state of the files, and changes no file. *)
Theorem load_data_reads_only (directory : string) (c : StereoCalibration) (w : world) :
  (load_data directory (c, w)).1 = Ok tt
  /\ fs (load_data directory (c, w)).2.2 = fs w.
Proof.
  split.
  - unfold load_data, try_except.
    match goal with |- context [match ?b with _ => _ end] => destruct b as [[[]|e] sw'] end;
      [done|].
    unfold io, print. by destruct sw'.
  - apply (reads_only_try _ _).
    + apply reads_only_bind; [done|]. intros self.
      apply reads_only_bind; [|intros; by apply reads_only_io].
      apply reads_only_for_each. apply reads_only_load_key.
    + intros e. by apply reads_only_io.
Qed.

Lemma prefix_of_append (s t : string) : String.prefix s (s +:+ t) = true.
Proof.
  induction s as [|a s IH]; simpl; [by destruct t|].
  by destruct (Ascii.ascii_dec a a).
Qed.

Lemma string_append_assoc (s t u : string) : (s +:+ t) +:+ u = s +:+ (t +:+ u).
Proof.
  unfold String.app. induction s as [|a s IH]; simpl; [done|]. f_equal. exact IH.
Qed.

Lemma load_data_key_sided_missing dir key l0 r0 self w :
  getattr self key = Some (Sided l0 r0) ->
  fs w !! (dir +:+ "/" +:+ key +:+ "_" +:+ "left" +:+ ".npy") = None ->
  fs w !! (dir +:+ "/" +:+ key +:+ "_" +:+ "right" +:+ ".npy") = None ->
  load_data_key dir key (self, w) =
  (Ok tt, (self, mk_world (fs w)
     (stdout w ++ ["File " +:+ (dir +:+ "/" +:+ key +:+ "_" +:+ "left" +:+ ".npy")
                     +:+ " not found.";
                   "File " +:+ (dir +:+ "/" +:+ key +:+ "_" +:+ "right" +:+ ".npy")
                     +:+ " not found."]))).
Proof.
  intros H Hl Hr. unfold load_data_key, dict_get. mrun. rewrite H. mrun.
  rewrite (path_exists_absent _ _ Hl). mrun.
  unfold print at 1. mrun.
  rewrite (path_exists_absent _ (mk_world (fs w) _)) by exact Hr. mrun.
  unfold print. cbn [fs stdout]. by rewrite <- app_assoc.
Qed.

Lemma load_keys_missing dir (self : StereoCalibration) (keys : list string) (w : world) :
  (forall name, String.prefix (dir +:+ "/") name = true -> fs w !! name = None) ->
  Forall (fun key => is_Some (getattr self key)) keys ->
  for_each keys (load_data_key dir) (self, w)
  = (Ok tt, (self, mk_world (fs w)
       (stdout w ++ flat_map (fun key =>
          match getattr self key with
          | Some (Sided _ _) =>
              ["File " +:+ (dir +:+ "/" +:+ key +:+ "_" +:+ "left" +:+ ".npy")
                       +:+ " not found.";
               "File " +:+ (dir +:+ "/" +:+ key +:+ "_" +:+ "right" +:+ ".npy")
                       +:+ " not found."]
          | Some (Plain _) =>
              ["File " +:+ (dir +:+ "/" +:+ key +:+ ".npy") +:+ " not found."]
          | None => []
          end) keys))).
Proof.
  intros Hempty Hkeys. revert w Hempty.
  induction Hkeys as [|key keys [d Hd] _ IH]; intros w Hempty.
  - simpl. rewrite app_nil_r. by destruct w.
  - assert (Hnone : forall rest, fs w !! (dir +:+ "/" +:+ rest) = None).
    { intros rest. apply Hempty. rewrite <- string_append_assoc. apply prefix_of_append. }
    cbn [flat_map]. rewrite Hd. destruct d as [v|l r].
    + erewrite for_each_cons_ok;
        [|eapply load_data_key_plain_missing; [exact Hd|apply Hnone]].
      rewrite IH by done. cbn [fs stdout]. by rewrite <- app_assoc.
    + erewrite for_each_cons_ok;
        [|eapply load_data_key_sided_missing; [exact Hd|apply Hnone|apply Hnone]].
      rewrite IH by done. cbn [fs stdout]. by rewrite <- app_assoc.
Qed.

Lemma getattr_own_keys (self : StereoCalibration) :
  Forall (fun key => is_Some (getattr self key)) (map fst self).
Proof.
  apply Forall_forall. intros key Hin. apply list_elem_of_fmap in Hin as ([k a] & -> & Hin).
  induction self as [|[k' a'] self IH]; [by apply elem_of_nil in Hin|].
  simpl. case_bool_decide; [eauto|].
  apply elem_of_cons in Hin as [[= <- <-]|Hin]; [done|]. by apply IH.
Qed.

(** X18: run on a directory that holds none of the files, [load_data]
    leaves the object as it is, prints one line for each file it did
    not find, and ends with the line that reports success. *)
Theorem load_data_empty_directory (directory : string) (c : StereoCalibration)
    (w : world) :
  (forall name, String.prefix (directory +:+ "/") name = true -> fs w !! name = None) ->
  load_data directory (c, w)
  = (Ok tt, (c, mk_world (fs w)
              (stdout w ++ not_found_messages directory c
                 ++ ["Data loading completed successfully."]))).
Proof.
  intros Hempty. unfold load_data, try_except.
  rewrite (bind_ok _ _ _ c (c, w)) by done.
  erewrite bind_ok; [|apply load_keys_missing; [exact Hempty|apply getattr_own_keys]].
  unfold io, print. cbn [fst snd fs stdout]. unfold not_found_messages.
  by rewrite <- app_assoc.
Qed.

Lemma load_data_empty_directory_witness :
  load_data "data" (StereoCalibration_init, mk_world ∅ [])
  = (Ok tt, (StereoCalibration_init,
             mk_world (fs (mk_world ∅ []))
               (stdout (mk_world ∅ []) ++ not_found_messages "data" StereoCalibration_init
                  ++ ["Data loading completed successfully."]))).
Proof.
  apply (load_data_empty_directory "data" StereoCalibration_init (mk_world ∅ [])).
  intros name _. apply lookup_empty.
Defined.

Lemma np_load_object name w :
  fs w !! name = Some (NpyFile None) ->
  np_load name w
  = (Raise (ValueError "Object arrays cannot be loaded when allow_pickle=False"), w).
Proof. intros H. unfold np_load. by rewrite H. Qed.

Lemma load_data_key_plain_fail dir key v0 self w :
  getattr self key = Some (Plain v0) ->
  fs w !! (dir +:+ "/" +:+ key +:+ ".npy") = Some (NpyFile None) ->
  load_data_key dir key (self, w)
  = (Raise (ValueError "Object arrays cannot be loaded when allow_pickle=False"),
     (self, w)).
Proof.
  intros H Hf. unfold load_data_key, dict_get. mrun. rewrite H. mrun.
  rewrite (path_exists_present _ _ _ Hf). mrun.
  rewrite (np_load_object _ _ Hf). reflexivity.
Qed.

Lemma load_data_key_sided_fail_left dir key l0 r0 self w :
  getattr self key = Some (Sided l0 r0) ->
  fs w !! (dir +:+ "/" +:+ key +:+ "_" +:+ "left" +:+ ".npy") = Some (NpyFile None) ->
  load_data_key dir key (self, w)
  = (Raise (ValueError "Object arrays cannot be loaded when allow_pickle=False"),
     (self, w)).
Proof.
  intros H Hl. unfold load_data_key, load_side, dict_get. mrun. rewrite H. mrun.
  rewrite (path_exists_present _ _ _ Hl). mrun.
  rewrite (np_load_object _ _ Hl). reflexivity.
Qed.

Lemma load_data_key_sided_fail_right dir key l0 r0 a self w :
  getattr self key = Some (Sided l0 r0) ->
  fs w !! (dir +:+ "/" +:+ key +:+ "_" +:+ "left" +:+ ".npy") = Some (NpyFile (Some a)) ->
  fs w !! (dir +:+ "/" +:+ key +:+ "_" +:+ "right" +:+ ".npy") = Some (NpyFile None) ->
  load_data_key dir key (self, w)
  = (Raise (ValueError "Object arrays cannot be loaded when allow_pickle=False"),
     (setattr self key (Sided (Some a) r0), w)).
Proof.
  intros H Hl Hr. unfold load_data_key, load_side, dict_get. mrun. rewrite H. mrun.
  rewrite (path_exists_present _ _ _ Hl). mrun.
  rewrite (np_load_array _ _ _ Hl). mrun. rewrite H. mrun.
  rewrite (path_exists_present _ _ _ Hr). mrun.
  rewrite (np_load_object _ _ Hr). reflexivity.
Qed.

(** C4: the helper that [save_data] calls is not defined, so that a
    fully populated calibration is not saved: [save_data] prints the
    error and writes no file, and a load from the data directory, where
    no file is, leaves every field of a fresh instance unset. *)
Theorem save_data_saves_nothing (c : StereoCalibration) (w : world) :
  fully_populated c ->
  (forall name, String.prefix "data/" name = true -> fs w !! name = None) ->
  import_from_exception "file_create" = Raise (ImportError "file_create" "exception")
  /\ save_data (c, w) = (Ok tt, (c, mk_world (fs w) (stdout w ++ [save_error])))
  /\ (load_data "data" (StereoCalibration_init, (save_data (c, w)).2.2)).2.1
     = StereoCalibration_init
  /\ (load_data "data" (StereoCalibration_init, (save_data (c, w)).2.2)).2.1 <> c.
Proof.
  intros Hc Hempty.
  assert (Hne : c <> []).
  { destruct Hc as [Hwf _]. intros ->. by apply Forall2_nil_inv_l in Hwf. }
  assert (Hload : (load_data "data"
                     (StereoCalibration_init, (save_data (c, w)).2.2)).2.1
                  = StereoCalibration_init).
  { rewrite (save_data_run _ _ Hne). cbn [fst snd].
    unfold load_data, try_except.
    rewrite (bind_ok _ _ _ StereoCalibration_init
               (StereoCalibration_init, mk_world (fs w) (stdout w ++ [save_error])))
      by done.
    erewrite bind_ok;
      [|apply load_keys_missing; [exact Hempty|apply getattr_own_keys]].
    reflexivity. }
  split; [reflexivity|]. split; [by apply save_data_run|]. split; [exact Hload|].
  rewrite Hload. intros <-. destruct Hc as [_ Hpop].
  apply Forall_cons in Hpop as [[[? Hl] _] _]. discriminate.
Qed.

Lemma save_data_saves_nothing_witness :
  import_from_exception "file_create" = Raise (ImportError "file_create" "exception")
  /\ save_data (sample_calibration, mk_world ∅ [])
     = (Ok tt, (sample_calibration, mk_world ∅ ([] ++ [save_error])))
  /\ (load_data "data"
        (StereoCalibration_init,
         (save_data (sample_calibration, mk_world ∅ [])).2.2)).2.1
     = StereoCalibration_init
  /\ (load_data "data"
        (StereoCalibration_init,
         (save_data (sample_calibration, mk_world ∅ [])).2.2)).2.1
     <> sample_calibration.
Proof.
  apply (save_data_saves_nothing sample_calibration (mk_world ∅ [])).
  - exact sample_calibration_populated.
  - intros name _. apply lookup_empty.
Defined.

Lemma loaded_fields_plain key a rest :
  loaded_fields ((key, Plain (Some a)) :: rest)
  = (key, Plain (Some a)) :: loaded_fields rest.
Proof. reflexivity. Qed.

Lemma loaded_fields_sided key a b rest :
  loaded_fields ((key, Sided (Some a) (Some b)) :: rest)
  = (key, Sided (Some a) (Some b)) :: loaded_fields rest.
Proof. reflexivity. Qed.

(** The fields of [c] one after the other, until one is not set. *)
Ltac load_walk :=
  unfold load_data, StereoCalibration_init; mrun;
  repeat (first
    [ erewrite load_data_key_sided by (first [reflexivity | eassumption]);
      rewrite loaded_fields_sided
    | erewrite load_data_key_plain by (first [reflexivity | eassumption]);
      rewrite loaded_fields_plain
    | erewrite load_data_key_sided_fail_left by (first [reflexivity | eassumption])
    | erewrite load_data_key_sided_fail_right by (first [reflexivity | eassumption])
    | erewrite load_data_key_plain_fail by (first [reflexivity | eassumption])
    | match goal with
      | |- context [loaded_fields ((_, Plain ?v) :: _)] => is_var v; destruct v
      | |- context [loaded_fields ((_, Sided ?l _) :: _)] => is_var l; destruct l
      | |- context [loaded_fields ((_, Sided (Some _) ?r) :: _)] => is_var r; destruct r
      end ];
    mrun).

(** X19: a directory in which the file of a field that is not set holds
    the pickled [None] that [np.save] writes for it.  [load_data] loads
    the fields that come before the first such field, stops there with
    the error of [np.load], which it prints, and leaves that field and
    the ones after it unset; it returns normally and changes no file. *)
Theorem incomplete_calibration_not_reloaded (c : StereoCalibration) (w : world) :
  well_formed c ->
  ~ fully_populated c ->
  stored c w ->
  load_data "data" (StereoCalibration_init, w)
  = (Ok tt,
     (loaded_fields c,
      mk_world (fs w)
        (stdout w ++ ["Error loading data: "
                      +:+ "Object arrays cannot be loaded when allow_pickle=False"]))).
Proof.
  intros Hwf Hnot Hfiles.
  assert (Hpop : ~ Forall (fun x : string * attr => populated x.2) c).
  { intros Hp. by apply Hnot. }
  clear Hnot. unfold well_formed, StereoCalibration_init in Hwf. inv_forall2.
  repeat match goal with
         | x : string * attr |- _ =>
             destruct x as [? []]; cbn [fst snd same_kind] in *; try done
         end.
  subst. unfold stored, stored_files in Hfiles.
  cbn [flat_map app] in Hfiles.
  repeat match type of Hfiles with
         | Forall _ (_ :: _) =>
             let Hx := fresh "Hfile" in apply Forall_cons in Hfiles as [Hx Hfiles]
         end.
  clear Hfiles. unfold npy_name in *. cbn [fst snd String.append] in *.
  load_walk.
  all: first [ exfalso; apply Hpop; repeat (constructor; [simpl; eauto|]); constructor
             | unfold print; cbn [fst snd fs stdout]; reflexivity ].
Qed.

Lemma incomplete_calibration_not_reloaded_witness :
  load_data "data" (StereoCalibration_init, unset_directory)
  = (Ok tt,
     (loaded_fields StereoCalibration_init,
      mk_world (fs unset_directory)
        (stdout unset_directory
           ++ ["Error loading data: "
               +:+ "Object arrays cannot be loaded when allow_pickle=False"]))).
Proof.
  apply (incomplete_calibration_not_reloaded StereoCalibration_init unset_directory).
  - unfold well_formed, StereoCalibration_init.
    repeat (constructor; [split; exact I || reflexivity|]). constructor.
  - intros [_ Hpop]. apply Forall_cons in Hpop as [[[? Hl] _] _]. discriminate.
  - unfold stored, stored_files, StereoCalibration_init. cbn [flat_map app].
    repeat (constructor; [vm_compute; reflexivity|]). constructor.
Defined.
(** ** Import of the calibration images *)



Section ImportPhase.
Context `{Calib3d}.



Lemma cv2_imread_total name w : exists i, cv2_imread name w = (Ok i, w).
Proof. unfold cv2_imread. repeat case_match; eauto. Qed.





Lemma import_pair_skips folder k s w :
  fs w !! left_name folder k = None \/ fs w !! right_name folder k = None ->
  import_pair folder k (s, w)
  = (Ok tt, (s, mk_world (fs w) (stdout w ++ ["Importing pair No " +:+ pretty k]))).
Proof.
  intros Hmissing. unfold import_pair, path_isfile.
  erewrite bind_ok; [|reflexivity]. cbn [fst snd].
  fold (left_name folder k) (right_name folder k).
  set (w1 := mk_world _ _).
  assert (Hfs : fs w1 = fs w) by done.
  destruct Hmissing as [Hl|Hr].
  - erewrite bind_ok;
      [|unfold io; cbn [fst snd]; rewrite path_exists_absent by (by rewrite Hfs);
        reflexivity].
    destruct (path_exists (right_name folder k) w1) as [r w2] eqn:E.
    assert (w2 = w1 /\ exists b, r = Ok b) as [-> [b ->]].
    { revert E. unfold path_exists. intros [= <- <-]. eauto. }
    erewrite bind_ok; [|unfold io; cbn [fst snd]; rewrite E; reflexivity].
    reflexivity.
  - destruct (path_exists (left_name folder k) w1) as [r w2] eqn:E.
    assert (w2 = w1 /\ exists b, r = Ok b) as [-> [b ->]].
    { revert E. unfold path_exists. intros [= <- <-]. eauto. }
    erewrite bind_ok; [|unfold io; cbn [fst snd]; rewrite E; reflexivity].
    erewrite bind_ok;
      [|unfold io; cbn [fst snd]; rewrite path_exists_absent by (by rewrite Hfs);
        reflexivity].
    by rewrite andb_false_r.
Qed.

Lemma import_loop_skips folder ks s w :
  (forall k, k ∈ ks ->
     fs w !! left_name folder k = None \/ fs w !! right_name folder k = None) ->
  for_each ks (import_pair folder) (s, w)
  = (Ok tt, (s, mk_world (fs w)
                  (stdout w ++ map (fun k => "Importing pair No " +:+ pretty k) ks))).
Proof.
  revert w. induction ks as [|k ks IH]; intros w Hmissing.
  - simpl. rewrite app_nil_r. by destruct w.
  - erewrite for_each_cons_ok;
      [|apply import_pair_skips, Hmissing, elem_of_cons; by left].
    rewrite IH.
    + cbn [fs stdout map]. by rewrite <- app_assoc.
    + intros k' Hk'. cbn [fs]. apply Hmissing, elem_of_cons. by right.
Qed.

Lemma import_phase_skips nbr folder s w :
  (forall k, 1 <= k <= nbr ->
     fs w !! left_name folder k = None \/ fs w !! right_name folder k = None) ->
  import_phase nbr folder (s, w)
  = (Ok tt, (s, mk_world (fs w)
                  (stdout w ++ ["Start Calibration"; "Start reading images"]
                     ++ map (fun k => "Importing pair No " +:+ pretty k) (seq 1 nbr)))).
Proof.
  intros Hmissing. unfold import_phase.
  erewrite bind_ok; [|reflexivity]. cbn [fst snd].
  erewrite bind_ok; [|reflexivity]. cbn [fst snd].
  rewrite import_loop_skips.
  - cbn [fs stdout]. by rewrite <- !app_assoc.
  - intros k Hk. cbn [fs]. apply Hmissing. apply elem_of_seq in Hk. lia.
Qed.

(** X21: a pair of which the left or the right file is not there is
    passed over without a message of its own: when this holds of every
    pair, the import returns with the calibrator as it was, no file
    changed, and nothing printed but the announcements. *)
Theorem missing_pairs_are_skipped (self : Calibrator) (w : world)
    (nbr_photo : nat) (image_folder : string) :
  (forall k, 1 <= k <= nbr_photo ->
     fs w !! left_name image_folder k = None
     \/ fs w !! right_name image_folder k = None) ->
  import_phase nbr_photo image_folder (self, w)
  = (Ok tt, (self, mk_world (fs w)
               (stdout w ++ ["Start Calibration"; "Start reading images"]
                  ++ map (fun k => "Importing pair No " +:+ pretty k)
                         (seq 1 nbr_photo)))).
Proof. apply import_phase_skips. Qed.




End ImportPhase.


Lemma missing_pairs_are_skipped_witness :
  @import_phase returning_cv2 2 "image" (sample_calibrator, mk_world ∅ [])
  = (Ok tt, (sample_calibrator,
             mk_world (fs (mk_world ∅ []))
               (stdout (mk_world ∅ [])
                  ++ ["Start Calibration"; "Start reading images"]
                  ++ map (fun k => "Importing pair No " +:+ pretty k) (seq 1 2)))).
Proof.
  apply (@missing_pairs_are_skipped returning_cv2 sample_calibrator (mk_world ∅ [])
           2 "image").
  intros k _. left. apply lookup_empty.
Defined.


(** ** Capture of the calibration images *)

Lemma string_append_same_length (s t u v : string) :
  s +:+ u = t +:+ v -> String.length u = String.length v -> u = v.
Proof.
  unfold String.app. revert t. induction s as [|a s IH]; intros [|b t] Heq Hlen; simpl in Heq.
  - done.
  - apply (f_equal String.length) in Heq. simpl in Heq.
    pose proof (string_length_append t v) as Hl. unfold String.app in Hl. lia.
  - apply (f_equal String.length) in Heq. simpl in Heq.
    pose proof (string_length_append s u) as Hl. unfold String.app in Hl. lia.
  - injection Heq as _ Heq. by eapply IH.
Qed.

Lemma png_is_not_jpg (s t : string) : s +:+ ".png" <> t +:+ ".jpg".
Proof. intros Heq. by apply string_append_same_length in Heq. Qed.

Lemma os_path_join_png (a b : string) :
  exists stem, os_path_join a (b +:+ ".png") = stem +:+ ".png".
Proof.
  unfold os_path_join. destruct (String.prefix _ _); [eauto|].
  destruct (_ || _).
  - exists (a +:+ b). by rewrite string_append_assoc.
  - exists (a +:+ "/" +:+ b). by rewrite !string_append_assoc.
Qed.

Lemma validate_images_fs answers w b rest w' :
  validate_images answers w = Some (b, (rest, w')) ->
  fs w' = fs w /\ length rest < length answers.
Proof.
  revert w. induction answers as [|a answers IH]; intros w; [done|].
  cbn [validate_images]. case_bool_decide.
  - intros [= <- <- <-]. split; [done|simpl; lia].
  - intros Hrun. apply IH in Hrun as [-> Hlen]. split; [done|simpl; lia].
Qed.

Section Capture.
Context `{Picamera2}.

Lemma capture_and_save_image_run self picam_id filename w :
  exists frame metadata,
    capture_and_save_image self picam_id filename w
    = (Ok tt, mk_world (<[filename := ImageFile frame]> (fs w))
                (stdout w ++ ["Image captured " +:+ filename +:+ ": " +:+ metadata])).
Proof.
  unfold capture_and_save_image.
  destruct (picam_capture_file _ _ _) as [frame metadata]. by exists frame, metadata.
Qed.

Lemma show_image_fs title image cmap w : fs (show_image title image cmap w).2 = fs w.
Proof.
  unfold show_image, mbind, M_bind, mret, M_ret, raise, print.
  destruct (bool_decide (cmap ∈ colormaps)); [by destruct image|].
  destruct (bool_decide (cmap <> "gray")); by destruct image.
Qed.

Lemma display_images_fs l r w : fs (display_images l r w).2 = fs w.
Proof.
  unfold display_images.
  destruct (cv2_imread_total l w) as [i1 E1]. rewrite (bind_ok _ _ _ _ _ E1).
  destruct (cv2_imread_total r w) as [i2 E2]. rewrite (bind_ok _ _ _ _ _ E2).
  unfold mbind, M_bind.
  pose proof (show_image_fs "Left Image" i1 "gray" w) as H1.
  destruct (show_image "Left Image" i1 "gray" w) as [[[]|e] w1]; cbn [snd] in *; [|done].
  by rewrite show_image_fs.
Qed.

Lemma capture_turn_jpg_free self a b l r w :
  jpg_free w ->
  jpg_free ((capture_and_save_image self a (os_path_join l ("left_" +:+ r +:+ ".png")) ;;
             capture_and_save_image self b (os_path_join l ("right_" +:+ r +:+ ".png")) ;;
             display_images (os_path_join l ("left_" +:+ r +:+ ".png"))
                            (os_path_join l ("right_" +:+ r +:+ ".png"))) w).2.
Proof.
  intros Hfree stem.
  rewrite <- !(string_append_assoc _ r ".png").
  destruct (os_path_join_png l ("left_" +:+ r)) as [sl ->].
  destruct (os_path_join_png l ("right_" +:+ r)) as [sr ->].
  destruct (capture_and_save_image_run self a (sl +:+ ".png") w) as (f1 & m1 & E1).
  rewrite (bind_ok _ _ _ _ _ E1).
  match goal with
  | |- context [(capture_and_save_image self b ?n ≫= _) ?w1] =>
      destruct (capture_and_save_image_run self b n w1) as (f2 & m2 & E2)
  end.
  rewrite (bind_ok _ _ _ _ _ E2).
  rewrite display_images_fs. cbn [fs].
  rewrite !lookup_insert_ne by (apply png_is_not_jpg). apply Hfree.
Qed.

Lemma capture_loop_jpg_free fuel self nbr folder counter answers w r rest w' :
  jpg_free w ->
  capture_loop fuel self nbr folder counter answers w = Some (r, (rest, w')) ->
  jpg_free w'.
Proof.
  revert counter answers w.
  induction fuel as [|fuel IH]; intros counter answers w Hfree; [done|].
  cbn [capture_loop]. case_bool_decide; [|by intros [= _ _ <-]].
  pose proof (capture_turn_jpg_free self (left_cam_id self) (right_cam_id self)
                folder (zfill2 (counter + 1)) w Hfree) as Hturn.
  match goal with
  | |- context [match ?m w with _ => _ end] => destruct (m w) as [[[]|e] w1]
  end; cbn [snd] in Hturn; [|by intros [= _ _ <-]].
  destruct (validate_images answers w1) as [[b [answers' w2]]|] eqn:Ev; [|done].
  apply validate_images_fs in Ev as [Hfs _].
  assert (jpg_free w2) as Hfree2 by (intros stem; rewrite Hfs; apply Hturn).
  destruct b; apply IH; intros stem; apply Hfree2.
Qed.

Lemma show_image_gray title (i : ndarray) w :
  show_image title (Some i) "gray" w = (Ok tt, w).
Proof.
  unfold show_image.
  assert (bool_decide ("gray" ∈ colormaps) = false) as -> by (vm_compute; reflexivity).
  rewrite bool_decide_false by (intros Hne; by apply Hne). reflexivity.
Qed.

Lemma holds_image_insert (w w' : world) name name' frame :
  fs w' = <[name' := ImageFile frame]> (fs w) ->
  holds_image w name -> holds_image w' name.
Proof.
  intros Hfs [i Hi]. unfold holds_image. rewrite Hfs.
  destruct (decide (name' = name)) as [->|Hne].
  - rewrite lookup_insert_eq. eauto.
  - rewrite lookup_insert_ne by done. eauto.
Qed.

Lemma holds_image_inserted (w' : world) m name frame :
  fs w' = <[name := ImageFile frame]> m -> holds_image w' name.
Proof. intros Hfs. unfold holds_image. rewrite Hfs, lookup_insert_eq. eauto. Qed.

Lemma capture_turn_run self a b lname rname w :
  exists w1,
    (capture_and_save_image self a lname ;;
     capture_and_save_image self b rname ;;
     display_images lname rname) w = (Ok tt, w1)
    /\ (forall name, holds_image w name -> holds_image w1 name)
    /\ holds_image w1 lname /\ holds_image w1 rname.
Proof.
  destruct (capture_and_save_image_run self a lname w) as (f1 & m1 & E1).
  rewrite (bind_ok _ _ _ _ _ E1).
  match goal with
  | |- context [(capture_and_save_image self b ?n ≫= _) ?w1] =>
      destruct (capture_and_save_image_run self b n w1) as (f2 & m2 & E2)
  end.
  rewrite (bind_ok _ _ _ _ _ E2). cbn [fs stdout].
  set (w1 := mk_world (<[lname := ImageFile f1]> (fs w))
               (stdout w ++ ["Image captured " +:+ lname +:+ ": " +:+ m1])).
  set (w2 := mk_world _ _).
  assert (H12 : fs w2 = <[rname := ImageFile f2]> (fs w1)) by done.
  assert (Hl : holds_image w2 lname).
  { eapply holds_image_insert; [exact H12|]. by eapply holds_image_inserted. }
  assert (Hr : holds_image w2 rname) by (by eapply holds_image_inserted).
  exists w2. split; [|split; [|done]].
  - unfold display_images. destruct Hl as [il Hl], Hr as [ir Hr].
    erewrite bind_ok; [|unfold cv2_imread; rewrite Hl; reflexivity].
    erewrite bind_ok; [|unfold cv2_imread; rewrite Hr; reflexivity].
    erewrite bind_ok; [|apply show_image_gray]. apply show_image_gray.
  - intros name Hn. eapply holds_image_insert; [exact H12|].
    by eapply (holds_image_insert w w1).
Qed.

Lemma capture_loop_accepts self n folder rest (d : nat) :
  forall counter fuel w,
    counter + d = n -> d < fuel ->
    (forall k, 1 <= k <= counter ->
       holds_image w (left_filename folder k) /\ holds_image w (right_filename folder k)) ->
    exists w',
      capture_loop fuel self n folder counter (replicate d "y" ++ rest)%list w
      = Some (Ok tt, (rest, w'))
      /\ forall k, 1 <= k <= n ->
           holds_image w' (left_filename folder k)
           /\ holds_image w' (right_filename folder k).
Proof.
  induction d as [|d IH]; intros counter fuel w Hn Hfuel Hfiles;
    (destruct fuel as [|fuel]; [lia|]); cbn [capture_loop].
  - rewrite bool_decide_false by lia. exists w. split; [done|].
    intros k Hk. apply Hfiles. lia.
  - rewrite bool_decide_true by lia.
    fold (left_filename folder (counter + 1)) (right_filename folder (counter + 1)).
    destruct (capture_turn_run self (left_cam_id self) (right_cam_id self)
                (left_filename folder (counter + 1))
                (right_filename folder (counter + 1)) w)
      as (w1 & -> & Hkeep & Hl & Hr).
    cbn [replicate app validate_images].
    rewrite bool_decide_true by (apply elem_of_cons; by left).
    rewrite bool_decide_true by done.
    apply IH; [lia|lia|].
    intros k Hk. destruct (decide (k = counter + 1)) as [->|Hne].
    + split; [destruct Hl as [i Hi]|destruct Hr as [i Hi]]; by exists i.
    + destruct (Hfiles k ltac:(lia)) as [Hl' Hr'].
      apply Hkeep in Hl' as [i Hi]. apply Hkeep in Hr' as [j Hj].
      split; [by exists i|by exists j].
Qed.

(** X23: when the user accepts every pair, [capture_images] returns after
    [nbr_photos] turns, with the answers it did not need left, and both
    files of each pair hold an image. *)
Theorem capture_images_all_accepted (self : DualCameraCapture) (nbr_photos : nat)
    (image_folder : string) (rest : list string) (w : world) :
  exists w',
    capture_images self nbr_photos image_folder
      (replicate nbr_photos "y" ++ rest)%list w
    = Some (Ok tt, (rest, w'))
    /\ forall k, 1 <= k <= nbr_photos ->
         holds_image w' (left_filename image_folder k)
         /\ holds_image w' (right_filename image_folder k).
Proof.
  unfold capture_images. apply capture_loop_accepts.
  - lia.
  - rewrite length_app, length_replicate. lia.
  - intros k Hk. lia.
Qed.

Section Calibration.
Context `{Calib3d}.

(** X24: the files that [capture_images] writes are not the files that
    [calibration_process] reads: the first are named [left_NN.png] and
    [right_NN.png], the second [leftNN.jpg] and [rightNN.jpg].  In a
    folder without files of the second kind, the import that follows a
    capture passes over every pair and leaves the calibrator as it
    was. *)
Theorem captured_pairs_are_not_imported (cam : DualCameraCapture)
    (calibrator : Calibrator) (nbr_photos : nat) (image_folder : string)
    (answers rest : list string) (w w' : world) (r : result unit) :
  jpg_free w ->
  capture_images cam nbr_photos image_folder answers w = Some (r, (rest, w')) ->
  import_phase nbr_photos image_folder (calibrator, w')
  = (Ok tt, (calibrator,
             mk_world (fs w')
               (stdout w' ++ ["Start Calibration"; "Start reading images"]
                  ++ map (fun k => "Importing pair No " +:+ pretty k)
                         (seq 1 nbr_photos)))).
Proof.
  intros Hfree Hrun. apply import_phase_skips. intros k _. left.
  unfold left_name. rewrite <- !string_append_assoc.
  by eapply capture_loop_jpg_free.
Qed.

End Calibration.
End Capture.

Lemma captured_pairs_are_not_imported_witness :
  @import_phase returning_cv2 1 "image" (sample_calibrator, captured_world)
  = (Ok tt, (sample_calibrator,
       mk_world (fs captured_world)
         (stdout captured_world
            ++ ["Start Calibration"; "Start reading images"]
            ++ map (fun k => "Importing pair No " +:+ pretty k) (seq 1 1)))).
Proof.
  apply (@captured_pairs_are_not_imported toy_picam returning_cv2 sample_capture
           sample_calibrator 1 "image" ["y"] [] (mk_world ∅ []) captured_world (Ok tt)).
  - intros stem. apply lookup_empty.
  - vm_compute. reflexivity.
Defined.

(** ** From the raw disparity to the depth *)





Lemma round64_0 : round64 0 = Fin 0.
Proof. reflexivity. Qed.

Lemma product_float32_nonneg (p : Q) :
  (0 <= p)%Q ->
  to_float32 (round64 p) = PosInf
  \/ exists q, to_float32 (round64 p) = Fin q /\ (0 <= q)%Q.
Proof.
  intros Hp.
  pose proof (round_float_mono binary64 prec64_pos _ _ Hp) as H1.
  fold round64 in H1. rewrite round64_0 in H1.
  destruct (round64 p) as [p64| | |]; simpl in H1; try done; [|by left].
  cbn [to_float32].
  pose proof (round32_mono _ _ H1) as H2. rewrite round32_0 in H2.
  destruct (round32 p64) as [p32| | |]; simpl in H2; try done; [|by left].
  right. by exists p32.
Qed.

(** X26: the depth falls as the disparity grows.  For a focal length and
    a baseline of non-negative product, of two pixels of positive
    disparity the one of the larger disparity has the smaller depth, or
    the same. *)
Theorem depth_decreases_with_disparity (self : StereoVision) (disp : list Q)
    (i j : nat) (d1 d2 : Q) :
  disparity self = Some disp ->
  (0 <= focal_length self * baseline self)%Q ->
  disp !! i = Some d1 ->
  disp !! j = Some d2 ->
  (0 < d1)%Q -> (d1 <= d2)%Q ->
  exists dep z1 z2,
    depth (depth_calcul self).2 = Some dep
    /\ dep !! i = Some z1 /\ dep !! j = Some z2
    /\ fnum_le z2 z1.
Proof.
  intros Hdisp Hfb Hi Hj Hpos Hle. rewrite (depth_calcul_run _ _ Hdisp).
  cbn [snd depth]. eexists _, _, _. split; [reflexivity|].
  rewrite !list_lookup_fmap, Hi, Hj. split; [reflexivity|]. split; [reflexivity|].
  assert (Hpos2 : (0 < d2)%Q) by (eapply Qlt_le_trans; eassumption).
  rewrite !depth_pixel_positive by done.
  destruct (product_float32_nonneg _ Hfb) as [->|(q & -> & Hq)].
  - unfold fdiv. rewrite !Qeq_bool_false by lra.
    assert (E1 : Qle_bool 0 d1 = true) by (apply Qle_bool_iff; lra).
    assert (E2 : Qle_bool 0 d2 = true) by (apply Qle_bool_iff; lra).
    by rewrite E1, E2.
  - rewrite !fdiv_finite by lra. apply round32_mono.
    apply Qle_shift_div_l; [done|].
    unfold Qdiv. rewrite <- Qmult_assoc, (Qmult_comm (/ d2) d1), Qmult_assoc.
    apply Qle_shift_div_r; [done|].
    rewrite !(Qmult_comm q). by apply Qmult_le_compat_r.
Qed.

Lemma depth_decreases_with_disparity_witness :
  exists dep z1 z2,
    depth (depth_calcul (stereo_of 1300 (6 # 100) [2%Q; 4%Q])).2 = Some dep
    /\ dep !! 0 = Some z1 /\ dep !! 1 = Some z2
    /\ fnum_le z2 z1.
Proof.
  apply (depth_decreases_with_disparity (stereo_of 1300 (6 # 100) [2%Q; 4%Q])
           [2%Q; 4%Q] 0 1 2%Q 4%Q).
  - reflexivity.
  - discriminate.
  - reflexivity.
  - reflexivity.
  - reflexivity.
  - discriminate.
Defined.
(** ** The amplitude gate on the raw samples *)

Lemma Qle_bool_false_lt (x y : Q) : Qle_bool x y = false -> (y < x)%Q.
Proof.
  intros H. apply Qnot_le_lt. intros Hn. apply Qle_bool_iff in Hn. congruence.
Qed.

Lemma Qclamp_below (x : Q) : (Qclamp 0 255 x <= 7)%Q <-> (x <= 7)%Q.
Proof.
  unfold Qclamp.
  destruct (Qle_bool x 0) eqn:E1; [apply Qle_bool_iff in E1; lra|].
  apply Qle_bool_false_lt in E1.
  destruct (Qle_bool 255 x) eqn:E2; [apply Qle_bool_iff in E2; lra|].
  reflexivity.
Qed.

Lemma round32_8 : round32 8 = Fin 8.
Proof. vm_compute. reflexivity. Qed.

Lemma round32_seven_and_half_ulp : round32 (7 + (1 # 4194304)) = Fin 7.
Proof. vm_compute. reflexivity. Qed.

(** Above the midpoint between 7 and the next float32 the rounding is
    above 7. *)
Lemma round32_above_seven (y : Q) :
  (7 + (1 # 4194304) < y)%Q -> (y < 8)%Q ->
  exists r, round32 y = Fin r /\ (7 < r)%Q.
Proof.
  intros H1 H2.
  destruct (round32_bounded 0 8 y round32_0 round32_8) as (r & E & Hr0 & Hr8);
    [lra..|].
  exists r. split; [done|].
  destruct (round_float_value binary32 y r E) as (Habs & _ & _); [lra|].
  rewrite (Qabs_pos r) in Habs by done.
  assert (Hy : (Qabs y == y)%Q) by (apply Qabs_pos; lra).
  assert (Hpos : (0 < Qabs y)%Q) by (rewrite Hy; lra).
  rewrite (round_positive_comp binary32 _ _ Hpos Hy) in Habs.
  assert (E4 : pow2 2 = 4%Q) by reflexivity.
  assert (E8 : pow2 (2 + 1) = 8%Q) by reflexivity.
  assert (Hm : magnitude y = 2%Z).
  { apply magnitude_unique; [rewrite E4|rewrite E8]; lra. }
  assert (He : ulp_exponent binary32 y = (-21)%Z).
  { rewrite ulp_exponent_normal; [by rewrite Hm|].
    eapply Qle_trans; [apply (pow2_le _ 2); by vm_compute|]. rewrite E4. lra. }
  unfold round_positive in Habs. rewrite He in Habs.
  assert (E21 : pow2 (-21) = (1 # 2097152)%Q) by reflexivity.
  rewrite E21 in Habs.
  set (t := (y / (1 # 2097152))%Q) in *.
  assert (Ht : (t == y * 2097152)%Q) by (unfold t; field).
  pose proof (round_half_even_near t) as Hnear.
  apply Qabs_Qle_condition in Hnear as [Hn1 _].
  assert (Hz : (14680064 < round_half_even t)%Z).
  { rewrite Zlt_Qlt. change (inject_Z 14680064) with 14680064%Q. lra. }
  assert (Hz' : (14680065 <= inject_Z (round_half_even t))%Q).
  { change 14680065%Q with (inject_Z 14680065). rewrite <- Zle_Qle. lia. }
  lra.
Qed.

Lemma fle_fnum_le (x : fnum) (c : Q) : fnum_le x (Fin c) -> fle x c = true.
Proof. destruct x; simpl; try done. by intros H; apply Qle_bool_iff. Qed.

Lemma scaled_gate (a : fnum) :
  fle (clip 0 255 (fscale (255 / 1024) a)) 7 = raw_gate a.
Proof.
  destruct a as [q| | |]; [|done..].
  cbn [fscale raw_gate].
  set (y := (q * (255 / 1024))%Q).
  assert (Hy : (y == (255 # 1024) * q)%Q) by (unfold y; field).
  destruct (Qle_bool (q * 255) (7168 + (1 # 4096))) eqn:E.
  - apply Qle_bool_iff in E.
    assert (Hle : (y <= 7 + (1 # 4194304))%Q) by lra.
    pose proof (round32_mono _ _ Hle) as Hr.
    rewrite round32_seven_and_half_ulp in Hr.
    apply fle_fnum_le.
    apply (clip_mono 0 255) in Hr; [|done].
    eapply fnum_le_trans; [exact Hr|]. cbn. by vm_compute.
  - apply Qle_bool_false_lt in E.
    assert (Hgt : (7 + (1 # 4194304) < y)%Q) by lra.
    destruct (Qlt_le_dec y 8) as [H8|H8].
    + destruct (round32_above_seven y Hgt H8) as (r & -> & Hr).
      cbn [clip fle]. apply not_true_is_false. intros Hn.
      apply Qle_bool_iff in Hn. apply (proj1 (Qclamp_below r)) in Hn. lra.
    + pose proof (round32_mono _ _ H8) as Hr. rewrite round32_8 in Hr.
      destruct (round32 y) as [r| | |]; simpl in Hr; try done.
      cbn [clip fle]. apply not_true_is_false. intros Hn.
      apply Qle_bool_iff in Hn. apply (proj1 (Qclamp_below r)) in Hn. lra.
Qed.

(** X27: the amplitude gate in terms of the raw samples.  A frame of the
    sensor whose buffers have one shape gives an image of that shape in
    which a pixel is zero when its raw amplitude [a] has
    [a * 255 <= 7168 + 1 / 4096], where the scaled amplitude rounds to 7
    or less in float32, that is up to 28 on the scale of 1024, and is the
    clamped and truncated [(1 - depth / max_distance) * 255] of float32
    arithmetic when it is above; a NaN amplitude passes the gate. *)
Theorem raw_amplitude_gate (cam : TofCamera) (depth amplitude : ndarray)
    (i : nat) (d a : fnum) :
  shape_of depth = shape_of amplitude ->
  items_of depth !! i = Some d ->
  items_of amplitude !! i = Some a ->
  exists image,
    (take_frame depth amplitude cam).1 = Ok tt
    /\ result_image (take_frame depth amplitude cam).2 = Some image
    /\ image_shape image = shape_of depth
    /\ pixels image !! i
       = Some (if raw_gate a then 0%Z
               else normalized32 (max_distance cam) (reading d)).
Proof.
  intros Hsh Hi Hj.
  set (scaled := map_items (fun a => clip 0 255 (fscale (255 / 1024) a)) amplitude).
  set (cam1 := mk_TofCamera (max_distance cam) (Some scaled)
                 (Some depth) (depth_normalized cam) (result_image cam) (n cam)).
  destruct (process_frame_lookup cam1 depth scaled i d
              (clip 0 255 (fscale (255 / 1024) a)))
    as (out & Hrun & Hout & Hpix); try done.
  { unfold scaled, map_items. cbn [items_of]. by rewrite list_lookup_fmap, Hj. }
  exists out. unfold take_frame.
  rewrite (bind_ok _ _ _ tt (mk_TofCamera (max_distance cam) (amplitude_buf cam)
                               (Some depth) (depth_normalized cam) (result_image cam)
                               (n cam))) by done.
  rewrite (bind_ok _ _ _ tt cam1) by done.
  destruct (process_frame cam1) as [r cam2] eqn:E. cbn [fst] in Hrun. subst r.
  rewrite (bind_ok _ _ _ _ _ E). cbn [fst snd store_result_image set_result_image result_image].
  split; [done|]. split; [done|]. split; [done|].
  rewrite Hpix. unfold gated_pixel32. by rewrite scaled_gate.
Qed.

Lemma raw_amplitude_gate_witness :
  exists image,
    (take_frame (row_of [Fin 1; Fin 1]) (row_of [Fin 28; Fin 29]) (cam_fresh 4)).1 = Ok tt
    /\ result_image
         (take_frame (row_of [Fin 1; Fin 1]) (row_of [Fin 28; Fin 29]) (cam_fresh 4)).2
       = Some image
    /\ image_shape image = shape_of (row_of [Fin 1; Fin 1])
    /\ pixels image !! 0
       = Some (if raw_gate (Fin 28) then 0%Z
               else normalized32 (max_distance (cam_fresh 4)) (reading (Fin 1))).
Proof.
  apply (raw_amplitude_gate (cam_fresh 4) (row_of [Fin 1; Fin 1])
           (row_of [Fin 28; Fin 29]) 0 (Fin 1) (Fin 28)); reflexivity.
Defined.

(** ** The dictionary of mean amplitudes *)

Section MeanAmplitudeKeys.
Context `{Cv2}.

Lemma add_mean_domain self entries (m : gmap nat Q) (i : nat) :
  is_Some (foldl (add_mean self) m entries !! i)
  <-> is_Some (m !! i)
      \/ exists c, (i, c) ∈ entries
                   /\ Qle_bool (min_contour_area self) (cv2_contourArea c) = true.
Proof.
  revert m. induction entries as [|[j d] entries IH]; intros m.
  - simpl. split; [by left|]. intros [Hm|(c & Hin & _)]; [done|].
    by apply elem_of_nil in Hin.
  - cbn [foldl]. rewrite IH. unfold add_mean. cbn [fst snd].
    destruct (Qle_bool (min_contour_area self) (cv2_contourArea d)) eqn:Hgate.
    + rewrite lookup_insert_is_Some. split.
      * intros [[->|[_ Hm]]|(c & Hin & Hc)].
        -- right. exists d. split; [apply elem_of_cons; by left|done].
        -- by left.
        -- right. exists c. split; [apply elem_of_cons; by right|done].
      * intros [Hm|(c & Hin & Hc)].
        -- left. destruct (decide (j = i)); [by left|by right].
        -- apply elem_of_cons in Hin as [[= <- <-]|Hin]; [left; by left|].
           right. eauto.
    + split.
      * intros [Hm|(c & Hin & Hc)]; [by left|].
        right. exists c. split; [apply elem_of_cons; by right|done].
      * intros [Hm|(c & Hin & Hc)]; [by left|].
        apply elem_of_cons in Hin as [[= <- <-]|Hin]; [congruence|].
        right. eauto.
Qed.

(** X28: [calculate_mean_amplitude] starts from an empty dictionary:
    whatever the dictionary held before, the one it returns and stores
    has an entry exactly under the indices of the contours whose area is
    at least [min_contour_area]. *)
Theorem mean_amplitudes_of_gated_contours (self : DepthMapProcessor)
    (out : list report) (cs : list contour) :
  exists m,
    calculate_mean_amplitude cs (self, out)
    = (Ok m, (set_mean_amplitudes m self, out))
    /\ forall i, is_Some (m !! i)
         <-> exists c, cs !! i = Some c
                       /\ (min_contour_area self <= cv2_contourArea c)%Q.
Proof.
  eexists. split; [apply calculate_mean_amplitude_run|].
  intros i. rewrite add_mean_domain. split.
  - intros [Hm|(c & Hin & Hc)]; [by rewrite lookup_empty in Hm; destruct Hm|].
    apply elem_of_lookup_imap in Hin as (j & c' & [= <- <-] & Hj).
    exists c. split; [done|]. by apply Qle_bool_iff.
  - intros (c & Hc & Hgate). right. exists c. split.
    + apply elem_of_lookup_imap. eauto.
    + by apply Qle_bool_iff.
Qed.

End MeanAmplitudeKeys.

